(** * Ints: a shallow embedding of the interpreter and its frontend

    The development follows the layout of the C++ sources:
    - [runtime/value.cpp]      : [DynamicArray], [Value]
    - [lexer/tokenize.cpp]     : [tokenize]
    - [parser/parse.cpp]       : the recursive-descent parser
    - [runtime/interpreter.cpp]: [Scope] and the tree-walking evaluator

    C++ [int] is modelled as [Z] restricted to 32 bits, [size_t] as [N]
    (conversions between the two are written out), [std::string] as
    [string], exceptions as the [Throw] outcome carrying [what()]. *)

From Stdlib Require Import ZArith NArith List String Ascii Bool Lia.
From stdpp Require Import base gmap strings list pretty.

Set Warnings "-register-all".
Open Scope Z_scope.

(** ** Outcomes of a C++ computation *)

Inductive outcome (A : Type) : Type :=
| Ok (a : A)                 (* normal return *)
| Throw (what : string)      (* a std::exception propagating upwards *)
| Exit (code : Z)            (* exit(code) was called *)
| Killed (signal : Z)        (* the process raised a fatal signal *)
| UB                         (* undefined behaviour of the C++ abstract machine *)
| OutOfFuel.                 (* the model ran out of fuel: no answer *)

Arguments Ok {A} a.
Arguments Throw {A} what.
Arguments Exit {A} code.
Arguments Killed {A} signal.
Arguments UB {A}.
Arguments OutOfFuel {A}.

Definition obind {A B} (m : outcome A) (k : A -> outcome B) : outcome B :=
  match m with
  | Ok a => k a
  | Throw w => Throw w
  | Exit c => Exit c
  | Killed g => Killed g
  | UB => UB
  | OutOfFuel => OutOfFuel
  end.

Definition omap {A B} (f : A -> B) (m : outcome A) : outcome B :=
  obind m (fun a => Ok (f a)).

Declare Scope outcome_scope.
Delimit Scope outcome_scope with outcome.
Notation "'let*' x ':=' m 'in' k" := (obind m (fun x => k))
  (at level 10, x name, m at level 100, k at level 200) : outcome_scope.
Notation "'let*' ( x , y ) ':=' m 'in' k" :=
  (obind m (fun p => let '(x, y) := p in k))
  (at level 10, x name, y name, m at level 100, k at level 200) : outcome_scope.
Notation "'let*' ( x , y , z ) ':=' m 'in' k" :=
  (obind m (fun p => let '(x, y, z) := p in k))
  (at level 10, x name, y name, z name, m at level 100, k at level 200)
  : outcome_scope.
Open Scope outcome_scope.

(** ** Machine integers *)

Definition INT_MIN : Z := - 2 ^ 31.
Definition INT_MAX : Z := 2 ^ 31 - 1.

Definition in_int (z : Z) : bool := (INT_MIN <=? z) && (z <=? INT_MAX).

(** Conversion of an out-of-range integer to [int] (modulo 2^32). *)
Definition wrap_int (z : Z) : Z := (z + 2 ^ 31) mod 2 ^ 32 - 2 ^ 31.

(** [size_t] is 64 bits wide. *)
Definition to_size_t (z : Z) : N := Z.to_N (z mod 2 ^ 64).
Definition int_of_size_t (n : N) : Z := wrap_int (Z.of_N n).

(** [operator new[]] and [std::vector::reserve] refuse requests above
    [max_size] elements; below it memory is assumed to be available. *)
Definition max_size : N := 2 ^ 61 - 1.

(** Signed overflow and division by zero are undefined in C++. *)
Definition int_result (z : Z) : outcome Z := if in_int z then Ok z else UB.
Definition int_add (x y : Z) : outcome Z := int_result (x + y).
Definition int_sub (x y : Z) : outcome Z := int_result (x - y).
Definition int_mul (x y : Z) : outcome Z := int_result (x * y).
Definition int_div (x y : Z) : outcome Z :=
  if y =? 0 then UB else int_result (Z.quot x y).

(** [std::to_string] on unsigned and signed integers. *)
Definition to_string_N (n : N) : string := pretty n.
Definition to_string_Z (z : Z) : string := pretty z.

(** ** runtime/value.cpp *)

(** [std::variant<std::vector<int>, DynamicArray>]; a [DynamicArray] is a
    buffer [data] with its [size], modelled by the list of its elements. *)
Inductive Storage : Type :=
| VVector (v : list Z)
| VDynamicArray (d : list Z).

Record Value : Type := mkValue { value : Storage; minimum : N }.

Record ArrayDescriptor : Type :=
  mkArrayDescriptor { getSize : option N; getCanGrow : bool }.

Definition size_of (l : list Z) : N := N.of_nat (length l).

(** [DynamicArray::DynamicArray(size_t size)]: value-initialised buffer. *)
Definition DynamicArray_new (size : N) : outcome (list Z) :=
  if (max_size <? size)%N then Throw "std::bad_array_new_length"
  else Ok (repeat 0 (N.to_nat size)).

(** [DynamicArray::fromValue] *)
Definition fromValue (v : Value) : list Z :=
  match value v with
  | VVector vec => vec
  | VDynamicArray d => d
  end.

(** [Value::getSize] *)
Definition Value_getSize (v : Value) : N := size_of (fromValue v).

(** [DynamicArray::operator std::string]: "[ e0, e1, ... ]" *)
Fixpoint join_ints (l : list Z) : string :=
  match l with
  | [] => EmptyString
  | [x] => to_string_Z x
  | x :: rest => to_string_Z x +:+ ", " +:+ join_ints rest
  end.

Definition DynamicArray_to_string (d : list Z) : string :=
  "[ " +:+ join_ints d +:+ " ]".

(** The elementwise loops of the arithmetic operators. *)
Fixpoint pointwise (op : Z -> Z -> outcome Z) (a b : list Z) : outcome (list Z) :=
  match a, b with
  | x :: a', y :: b' =>
      let* z := op x y in
      let* rest := pointwise op a' b' in
      Ok (z :: rest)
  | _, _ => Ok []
  end.

Definition DynamicArray_arith (what : string) (op : Z -> Z -> outcome Z)
    (a b : list Z) : outcome (list Z) :=
  if negb (size_of a =? size_of b)%N then Throw what else pointwise op a b.

Definition DynamicArray_add := DynamicArray_arith "Cannot add arrays with different sizes" int_add.
Definition DynamicArray_sub := DynamicArray_arith "Cannot subtract arrays with different sizes" int_sub.
Definition DynamicArray_mul := DynamicArray_arith "Cannot multiply arrays with different sizes" int_mul.
Definition DynamicArray_div := DynamicArray_arith "Cannot divide arrays with different sizes" int_div.

(** The comparison loops: [for (i < size) if (bad data[i] other[i]) return false;
    return true]. *)
Fixpoint none_bad (bad : Z -> Z -> bool) (a b : list Z) : bool :=
  match a, b with
  | x :: a', y :: b' => if bad x y then false else none_bad bad a' b'
  | _, _ => true
  end.

Definition DynamicArray_compare (bad : Z -> Z -> bool) (a b : list Z) : bool :=
  if negb (size_of a =? size_of b)%N then false else none_bad bad a b.

Definition DynamicArray_eq := DynamicArray_compare (fun x y => negb (x =? y)).
Definition DynamicArray_ne := DynamicArray_compare (fun x y => x =? y).
Definition DynamicArray_lt := DynamicArray_compare (fun x y => x >=? y).
Definition DynamicArray_le := DynamicArray_compare (fun x y => x >? y).
Definition DynamicArray_gt := DynamicArray_compare (fun x y => x <=? y).
Definition DynamicArray_ge := DynamicArray_compare (fun x y => x <? y).

(** [Value::operator=], vector destination and [DynamicArray] source: the
    existing slots are overwritten ([at] out of range leaves a zero), the
    remaining source elements are pushed back. *)
Fixpoint assign_from_dynamic (this_arg other_arg : list Z) : list Z :=
  match this_arg, other_arg with
  | [], rest => rest
  | _ :: t, [] => 0 :: assign_from_dynamic t []
  | _ :: t, o :: os => o :: assign_from_dynamic t os
  end.

(** [for (i < n) this_arg[i] = other_arg[i]] on two raw buffers. *)
Fixpoint copy_prefix (n : nat) (this_arg other_arg : list Z) : outcome (list Z) :=
  match n with
  | O => Ok this_arg
  | S k =>
      match this_arg, other_arg with
      | _ :: t, o :: os => let* rest := copy_prefix k t os in Ok (o :: rest)
      | _, _ => UB
      end
  end.

(** [Value& Value::operator=(const Value& other)] *)
Definition Value_assign (this other : Value) : outcome Value :=
  match value this with
  | VVector this_arg =>
      match value other with
      | VVector other_arg =>
          if (size_of other_arg <? minimum this)%N then
            Throw "Cannot set value. Destination minimum is larger than the sources length"
          else Ok (mkValue (VVector other_arg) (minimum this))
      | VDynamicArray other_arg =>
          if (minimum other <? minimum this)%N then
            Throw ("Cannot set value. Destination minimum (" +:+ to_string_N (minimum this)
                   +:+ ") is larger than the sources length (" +:+ to_string_N (minimum other)
                   +:+ ")")
          else Ok (mkValue (VVector (assign_from_dynamic this_arg other_arg)) (minimum this))
      end
  | VDynamicArray this_arg =>
      match value other with
      | VVector other_arg =>
          if negb (minimum this =? size_of other_arg)%N then
            Throw "Cannot set value. Destination length is not equal to the sources length"
          else
            let* d := copy_prefix (N.to_nat (minimum this)) this_arg other_arg in
            Ok (mkValue (VDynamicArray d) (minimum this))
      | VDynamicArray other_arg =>
          if negb (minimum this =? minimum other)%N then
            Throw "Cannot set value. Destination length is not equal to the sources length"
          else
            let* d := copy_prefix (N.to_nat (minimum this)) this_arg other_arg in
            Ok (mkValue (VDynamicArray d) (minimum this))
      end
  end.

(** [Value Value::fromDescriptor(descriptor, std::optional<Value> value)].
    In the growable branch the vector is only [reserve]d, so it stays empty
    and [dynamicArray.size()] is 0. *)
Definition fromDescriptor (descriptor : ArrayDescriptor) (v : option Value)
    : outcome Value :=
  if getCanGrow descriptor then
    let* ignored :=
      match getSize descriptor with
      | Some n => if (max_size <? n)%N then Throw "vector::reserve" else Ok tt
      | None => Ok tt
      end in
    let dynamicArray : list Z := [] in
    let result := mkValue (VVector dynamicArray) (size_of dynamicArray) in
    match v with
    | Some other => Value_assign result other
    | None => Ok result
    end
  else
    match getSize descriptor with
    | Some size =>
        let* d := DynamicArray_new size in
        let result := mkValue (VDynamicArray d) size in
        match v with
        | Some other => Value_assign result other
        | None => Ok result
        end
    | None =>
        match v with
        | Some other => Ok other
        | None => Throw "Static array cannot be defined without a value"
        end
    end.

(** [Value::sameSize] *)
Definition sameSize (a b : Value) : bool :=
  (size_of (fromValue a) =? size_of (fromValue b))%N.

Definition Value_arith (what : string)
    (op : list Z -> list Z -> outcome (list Z)) (this other : Value) : outcome Value :=
  if negb (sameSize this other) then Throw what
  else
    let left := fromValue this in
    let right := fromValue other in
    let* r := op left right in
    Ok (mkValue (VDynamicArray r) (size_of left)).

Definition Value_add := Value_arith "Cannot add arrays with different sizes" DynamicArray_add.
Definition Value_sub := Value_arith "Cannot subtract arrays with different sizes" DynamicArray_sub.
Definition Value_mul := Value_arith "Cannot multiply arrays with different sizes" DynamicArray_mul.
Definition Value_div := Value_arith "Cannot divide arrays with different sizes" DynamicArray_div.

Definition Value_compare (cmp : list Z -> list Z -> bool) (this other : Value) : bool :=
  if negb (sameSize this other) then false
  else cmp (fromValue this) (fromValue other).

Definition Value_eq := Value_compare DynamicArray_eq.
Definition Value_ne := Value_compare DynamicArray_ne.
Definition Value_lt := Value_compare DynamicArray_lt.
Definition Value_le := Value_compare DynamicArray_le.
Definition Value_gt := Value_compare DynamicArray_gt.
Definition Value_ge := Value_compare DynamicArray_ge.

(** ** lexer/tokenize.h *)

Inductive TokenType : Type := IDENTIFIER | INT_LIT | STRING_LIT | SYMBOL.

Record Token : Type := mkToken { getType : TokenType; getValue : string }.

Definition TokenType_eqb (a b : TokenType) : bool :=
  match a, b with
  | IDENTIFIER, IDENTIFIER | INT_LIT, INT_LIT
  | STRING_LIT, STRING_LIT | SYMBOL, SYMBOL => true
  | _, _ => false
  end.

(** [Token::operator==] *)
Definition Token_eqb (a b : Token) : bool :=
  TokenType_eqb (getType a) (getType b) && String.eqb (getValue a) (getValue b).

Definition tokenTypeToString (type : TokenType) : string :=
  match type with
  | IDENTIFIER => "IDENTIFIER"
  | INT_LIT => "INT_LIT"
  | STRING_LIT => "STRING_LIT"
  | SYMBOL => "SYMBOL"
  end.

(** ** lexer/tokenize.cpp *)

(** The <cctype> predicates in the "C" locale; bytes above 127 belong to
    no class. *)
Definition code_of (c : ascii) : N := N_of_ascii c.

Definition isdigit (c : ascii) : bool := (48 <=? code_of c)%N && (code_of c <=? 57)%N.
Definition isalpha (c : ascii) : bool :=
  ((65 <=? code_of c)%N && (code_of c <=? 90)%N)
  || ((97 <=? code_of c)%N && (code_of c <=? 122)%N).
Definition isalnum (c : ascii) : bool := isalpha c || isdigit c.
Definition isspace (c : ascii) : bool :=
  (code_of c =? 32)%N || ((9 <=? code_of c)%N && (code_of c <=? 13)%N).

Definition string_of_char (c : ascii) : string := String c EmptyString.

Definition dquote : ascii := "034"%char.
Definition backslash : ascii := "092"%char.
Definition newline : ascii := "010"%char.

(** The [while (++i < code.size() && predicate(code[i]))] loop of
    [collectWhile], run on the text that starts at the current index. *)
Fixpoint collect (predicate : ascii -> bool) (rest : list ascii) : list ascii :=
  match rest with
  | c :: rest' => if predicate c then c :: collect predicate rest' else []
  | [] => []
  end.

(** [collectWhile(code, i, char_num, predicate)]: returns the collected text
    and the updated [i] and [char_num]; both end one short of the first
    character that was not collected. *)
Definition collectWhile (code : list ascii) (i : nat) (char_num : Z)
    (predicate : ascii -> bool) : string * nat * Z :=
  let result := collect predicate (drop i code) in
  (string_of_list_ascii result,
   (i + length result - 1)%nat,
   char_num - 1 + Z.of_nat (length result) - 1).

(** [interpretEscapes] *)
Fixpoint interpretEscapes (raw : list ascii) : outcome (list ascii) :=
  match raw with
  | [] => Ok []
  | c :: rest =>
      if Ascii.eqb c backslash then
        match rest with
        | next :: rest' =>
            let* decoded :=
              if Ascii.eqb next "n"%char then Ok newline
              else if Ascii.eqb next "t"%char then Ok "009"%char
              else if Ascii.eqb next "r"%char then Ok "013"%char
              else if Ascii.eqb next backslash then Ok backslash
              else if Ascii.eqb next dquote then Ok dquote
              else if Ascii.eqb next "'"%char then Ok "'"%char
              else if Ascii.eqb next "0"%char then Ok "000"%char
              else Throw ("Unexpected character after '" +:+ string_of_char backslash
                          +:+ "': '" +:+ string_of_char next +:+ "'") in
            let* tail := interpretEscapes rest' in
            Ok (decoded :: tail)
        | [] => Ok [c]
        end
      else
        let* tail := interpretEscapes rest in
        Ok (c :: tail)
  end.

(** The body of a string literal: the loop appends [code[i++]] while
    [i < code_length] and [code[i]] is not the quote or [code[i - 1]] is a
    backslash. [prev] is [code[i - 1]]; the result is the text and whether the
    loop stopped before the end of the code. *)
Fixpoint string_body (rest : list ascii) (prev : ascii) : list ascii * bool :=
  match rest with
  | [] => ([], false)
  | c :: rest' =>
      if negb (Ascii.eqb c dquote) || Ascii.eqb prev backslash then
        let '(s, closed) := string_body rest' c in (c :: s, closed)
      else ([], true)
  end.

Definition symbols : list ascii := list_ascii_of_string "[]-><{}:+!=*/%;().,".

Definition is_symbol (c : ascii) : bool := existsb (Ascii.eqb c) symbols.

(** The [for] loop of [tokenize]; [fuel] bounds the number of iterations. *)
Fixpoint tokenize_loop (fuel : nat) (code : list ascii) (i : nat)
    (char_num line_num : Z) (result : list Token) : outcome (list Token) :=
  match fuel with
  | O => OutOfFuel
  | S fuel' =>
      match code !! i with
      | None => Ok result
      | Some c =>
          if isalpha c then
            let '(identifier, i1, char_num1) := collectWhile code i char_num isalnum in
            tokenize_loop fuel' code (S i1) (char_num1 + 1) line_num
              (result ++ [mkToken IDENTIFIER identifier])
          else if isdigit c
                  || (Ascii.eqb c "-"%char
                      && match code !! (S i) with Some d => isdigit d | None => false end)
          then
            let '(digits, i1, char_num1) := collectWhile code (S i) (char_num + 1) isdigit in
            tokenize_loop fuel' code (S i1) (char_num1 + 1) line_num
              (result ++ [mkToken INT_LIT (string_of_char c +:+ digits)])
          else if Ascii.eqb c dquote then
            let '(string_lit, closed) := string_body (drop (S i) code) c in
            let i1 := (S i + length string_lit)%nat in
            let char_num1 := char_num + 1 + Z.of_nat (length string_lit) in
            if negb closed then
              Throw ("Unexpected end of file in String Literal at line "
                     +:+ to_string_Z line_num +:+ ", char " +:+ to_string_Z char_num1
                     +:+ ". Expected " +:+ string_of_char dquote)
            else
              let* decoded := interpretEscapes string_lit in
              tokenize_loop fuel' code (S i1) (char_num1 + 1) line_num
                (result ++ [mkToken STRING_LIT (string_of_list_ascii decoded)])
          else if Ascii.eqb c newline then
            tokenize_loop fuel' code (S i) (1 + 1) (line_num + 1) result
          else if is_symbol c then
            tokenize_loop fuel' code (S i) (char_num + 1) line_num
              (result ++ [mkToken SYMBOL (string_of_char c)])
          else if negb (isspace c) then
            Throw ("Unexpected character '" +:+ string_of_char c +:+ "' at line "
                   +:+ to_string_Z line_num +:+ ", char " +:+ to_string_Z char_num)
          else
            tokenize_loop fuel' code (S i) (char_num + 1) line_num result
      end
  end.

(** [std::vector<Token> tokenize(const std::string& code)] *)
Definition tokenize (code : string) : outcome (list Token) :=
  let chars := list_ascii_of_string code in
  tokenize_loop (S (length chars)) chars 0 1 1 [].

(** ** parser/parse.h: the syntax tree *)

Inductive ArithmeticType : Type :=
| TYPE_LEFT_PARENTHESIS
| TYPE_ADDITION
| TYPE_SUBTRACTION
| TYPE_MULTIPLICATION
| TYPE_DIVISION.

(** [ExpressionNode] holds a [primary] (variant of [ArithmeticNode] and
    [ArrayNode]) and an [ArrayPostFixNode]. The operands of an
    [ArithmeticNode] are pointers that the parser may leave null. *)
Inductive ExpressionNode : Type :=
| mkExpression (primary : Primary) (postfix : list PostFix)
with Primary : Type :=
| PArithmetic (arithmetic : ArithmeticNode)
| PArray (array : ArrayNode)
with ArithmeticNode : Type :=
| mkArithmetic (left right : option ExpressionNode) (type : ArithmeticType)
with ArrayNode : Type :=
| AInts (ints : list Z)
| AIdentifier (name : string)
| ACall (call : FunctionCallNode)
with FunctionCallNode : Type :=
| mkFunctionCall (identifier : string) (parameters : list ExpressionNode)
with PostFix : Type :=
| PRange (range : ArrayRangeNode)
| PMethod (method : MethodNode)
with ArrayRangeNode : Type :=
| mkArrayRange (start finish : option Bound)
with Bound : Type :=
| BSize (n : N)
| BExpression (e : ExpressionNode)
with MethodNode : Type :=
| mkMethod (identifier : string) (parameters : list ExpressionNode).

(** [ExpressionNode::ExpressionNode(std::vector<int> values)] *)
Definition Expression_of_ints (values : list Z) : ExpressionNode :=
  mkExpression (PArray (AInts values)) [].

Record VariableDeclarationNode : Type := mkVariableDeclaration {
  decl_identifier : string;
  decl_descriptor : ArrayDescriptor;
  decl_value : option ExpressionNode }.

Record VariableAssignmentNode : Type := mkVariableAssignment {
  getLeft : string;
  getRight : ExpressionNode }.

Inductive VariableBindingNode : Type :=
| VBDeclaration (d : VariableDeclarationNode)
| VBAssignment (a : VariableAssignmentNode).

Inductive IfCompareType : Type := EQ | NE | LT | LE | GT | GE.

Record IfCompareNode : Type := mkIfCompare {
  cmp_type : IfCompareType;
  cmp_left : ExpressionNode;
  cmp_right : ExpressionNode }.

(** [std::variant<IfCompareNode, IfDeclarationNode>] *)
Inductive IfCondition : Type :=
| CCompare (c : IfCompareNode)
| CDeclaration (d : VariableDeclarationNode).

Inductive StatementNode : Type :=
| SVariableBinding (b : VariableBindingNode)
| SForLoop (f : ForLoopNode)
| SIf (i : IfNode)
| SWhile (w : WhileNode)
| SFunctionCall (c : FunctionCallNode)
| SReturn (value : ExpressionNode)
with ForLoopNode : Type :=
| mkForLoop (element : string) (iterable : ExpressionNode) (body : list StatementNode)
with IfNode : Type :=
| mkIf (condition : IfCondition) (body : list StatementNode)
       (elseIfBranches : option IfNode) (elseBody : option (list StatementNode))
with WhileNode : Type :=
| mkWhile (condition : IfCondition) (body : list StatementNode).

(** [BodyNode] is the vector of its statements. *)
Abbreviation BodyNode := (list StatementNode).

Record FunctionParameterNode : Type := mkFunctionParameter {
  param_identifier : string;
  param_descriptor : ArrayDescriptor }.

Record FunctionDefinitionNode : Type := mkFunctionDefinition {
  fn_identifier : string;
  getParams : list FunctionParameterNode;
  getOutput : ArrayDescriptor;
  getBody : BodyNode }.

Inductive UseType : Type := PATH | STANDARD_HEADER.

Record UseNode : Type := mkUse { use_value : ArrayNode; use_type : UseType }.

Inductive RootItem : Type :=
| RVariableBinding (b : VariableBindingNode)
| RFunctionCall (c : FunctionCallNode)
| RFunctionDefinition (f : FunctionDefinitionNode)
| RUse (u : UseNode).

(** [RootNode] is the vector of its top-level values. *)
Abbreviation RootNode := (list RootItem).

(** ** util/error.cpp *)

Definition UnexpectedTokenError (source unexpected expected : string) : string :=
  "Unexpected token " +:+ unexpected +:+ " in " +:+ source +:+ ". Expected " +:+ expected.

Definition UnexpectedEOFError (source expected : string) : string :=
  "Unexpected end of file in " +:+ source +:+ ". Expected " +:+ expected.

(** ** parser/parse.cpp *)

Definition is_empty (s : string) : bool :=
  match s with EmptyString => true | _ => false end.

(** [s[0]] of a [std::string]: the terminating zero when [s] is empty. *)
Definition first_char (s : string) : ascii :=
  match s with String c _ => c | EmptyString => "000"%char end.

Definition symbol (s : string) : Token := mkToken SYMBOL s.

(** [tokens[i].getType() == SYMBOL && tokens[i].getValue()[0] == c] *)
Definition is_symbol_char (t : Token) (c : ascii) : bool :=
  TokenType_eqb (getType t) SYMBOL && Ascii.eqb (first_char (getValue t)) c.

(** [i < tokens.size() && tokens[i] == Token(SYMBOL, s)] *)
Definition at_symbol (tokens : list Token) (i : nat) (s : string) : bool :=
  match tokens !! i with
  | Some t => Token_eqb t (symbol s)
  | None => false
  end.

(** [expect(tokens, i, source, type, expectedValue)] *)
Definition expect (tokens : list Token) (i : nat) (source : string)
    (type : TokenType) (expectedValue : string) : outcome Token :=
  match tokens !! i with
  | None =>
      Throw (UnexpectedEOFError source
               (if is_empty expectedValue then "token" else expectedValue))
  | Some token =>
      if negb (TokenType_eqb (getType token) type) then
        Throw (UnexpectedTokenError source (getValue token)
                 (if is_empty expectedValue then tokenTypeToString type
                  else expectedValue))
      else if negb (is_empty expectedValue)
              && negb (String.eqb (getValue token) expectedValue) then
        Throw (UnexpectedTokenError source (getValue token) expectedValue)
      else Ok token
  end.

(** [std::stoi]: optional white space and sign, then decimal digits; both
    of its exceptions report "stoi". *)
Fixpoint skip_spaces (s : list ascii) : list ascii :=
  match s with
  | c :: rest => if isspace c then skip_spaces rest else s
  | [] => []
  end.

Definition digits_value (ds : list ascii) : Z :=
  fold_left (fun acc d => acc * 10 + (Z.of_N (code_of d) - 48)) ds 0.

Definition stoi (s : string) : outcome Z :=
  let body := skip_spaces (list_ascii_of_string s) in
  let '(negative, rest) :=
    match body with
    | c :: rest' =>
        if Ascii.eqb c "-"%char then (true, rest')
        else if Ascii.eqb c "+"%char then (false, rest')
        else (false, body)
    | [] => (false, body)
    end in
  let ds := collect isdigit rest in
  match ds with
  | [] => Throw "stoi"
  | _ =>
      let z := if negative then - digits_value ds else digits_value ds in
      if in_int z then Ok z else Throw "stoi"
  end.

(** [char] is signed: bytes above 127 convert to negative [int]s. *)
Definition int_of_char (c : ascii) : Z :=
  let n := Z.of_N (code_of c) in if n <? 128 then n else n - 256.

(** [ArrayNode::stringToInts] *)
Definition stringToInts (s : string) : list Z :=
  map int_of_char (list_ascii_of_string s).

(** [ArrayDescriptor::parse] *)
Definition ArrayDescriptor_parse (tokens : list Token) (i : nat)
    : outcome (ArrayDescriptor * nat) :=
  let* ignored := expect tokens i "Array Descriptor" SYMBOL "[" in
  let i := S i in
  let* (size, i) :=
    match tokens !! i with
    | Some t =>
        match getType t with
        | INT_LIT => let* z := stoi (getValue t) in Ok (Some (to_size_t z), S i)
        | _ => Ok (None, i)
        end
    | None => Ok (None, i)
    end in
  let* t := expect tokens i "Array Descriptor" SYMBOL EmptyString in
  let canGrow := negb (is_empty (getValue t)) && Ascii.eqb (first_char (getValue t)) "+"%char in
  let i := if canGrow then S i else i in
  let* ignored := expect tokens i "Array Descriptor" SYMBOL "]" in
  Ok (mkArrayDescriptor size canGrow, S i).

(** [FunctionParameterNode::parse] *)
Definition FunctionParameterNode_parse (tokens : list Token) (i : nat)
    : outcome (FunctionParameterNode * nat) :=
  let* t := expect tokens i "Function Parameter" IDENTIFIER EmptyString in
  let identifier := getValue t in
  let i := S i in
  let* ignored := expect tokens i "Function Definition" SYMBOL ":" in
  let i := S i in
  let* (descriptor, i) := ArrayDescriptor_parse tokens i in
  Ok (mkFunctionParameter identifier descriptor, i).

(** The two stacks of [ExpressionNode::parse]. *)
Inductive Precedence : Type := LEFT_PARENTHESIS | ADD_SUB | MULT_DIV.

Definition Precedence_value (p : Precedence) : Z :=
  match p with LEFT_PARENTHESIS => 0 | ADD_SUB => 1 | MULT_DIV => 2 end.

Definition OutputItem : Type := ArithmeticType + ExpressionNode.
Definition OperatorItem : Type := option ArithmeticType * Precedence.

(** [operators.top().first.value()] *)
Definition optional_value (o : option ArithmeticType) : outcome ArithmeticType :=
  match o with
  | Some t => Ok t
  | None => Throw "bad optional access"
  end.

(** [while (!operators.empty() && stop(top)) output.push(top.first.value())],
    with [keep] the negation of the loop condition on the top element. *)
Fixpoint pop_operators (keep : OperatorItem -> bool)
    (output : list OutputItem) (operators : list OperatorItem)
    : outcome (list OutputItem * list OperatorItem) :=
  match operators with
  | [] => Ok (output, [])
  | top :: rest =>
      if keep top then Ok (output, operators)
      else
        let* t := optional_value (fst top) in
        pop_operators keep (inl t :: output) rest
  end.

Definition wrap_arithmetic (a : ArithmeticNode) : ExpressionNode :=
  mkExpression (PArithmetic a) [].

(** The inner [while (result.size() > 1)] loop of the folding phase:
    [current] has been popped, [below] is the rest of the stack. *)
Fixpoint collapse (current : ArithmeticNode) (below : list ArithmeticNode)
    : outcome (list ArithmeticNode) :=
  match below with
  | [] => Ok [current]
  | mkArithmetic l r t :: rest =>
      match r with
      | None => Ok (mkArithmetic l (Some (wrap_arithmetic current)) t :: rest)
      | Some _ =>
          match l with
          | None => collapse (mkArithmetic (Some (wrap_arithmetic current)) r t) rest
          | Some _ => Throw "Invalid array expression"
          end
      end
  end.

(** The outer [while (output.size() > 0)] loop of the folding phase. *)
Fixpoint fold_output (output : list OutputItem) (result : list ArithmeticNode)
    : outcome (list ArithmeticNode) :=
  match output with
  | [] => Ok result
  | inr e :: output' =>
      match result with
      | mkArithmetic l r t :: below =>
          match r with
          | None => fold_output output' (mkArithmetic l (Some e) t :: below)
          | Some _ =>
              match l with
              | None =>
                  let* result' := collapse (mkArithmetic (Some e) r t) below in
                  fold_output output' result'
              | Some _ => Throw "Invalid array expression"
              end
          end
      | [] => UB
      end
  | inl t :: output' => fold_output output' (mkArithmetic None None t :: result)
  end.

(** Everything in [ExpressionNode::parse] after the label [exit_loop]. *)
Definition finish_expression (output : list OutputItem) (operators : list OperatorItem)
    : outcome ExpressionNode :=
  let* (output, rest_operators) := pop_operators (fun _ => false) output operators in
  match output with
  | [] => Throw "Empty expression."
  | inr e :: rest =>
      match rest with
      | [] => Ok e
      | _ => Throw "Invalid array expression."
      end
  | inl t :: rest =>
      let* result := fold_output rest [mkArithmetic None None t] in
      match result with
      | [top] => Ok (wrap_arithmetic top)
      | _ => Throw "Invalid array expression"
      end
  end.

(** The operator cases of the [switch (c)] in [ExpressionNode::parse];
    [None] is the [default: goto exit_loop]. *)
Definition operator_of (c : ascii) : option OperatorItem :=
  if Ascii.eqb c "+"%char then Some (Some TYPE_ADDITION, ADD_SUB)
  else if Ascii.eqb c "-"%char then Some (Some TYPE_SUBTRACTION, ADD_SUB)
  else if Ascii.eqb c "*"%char then Some (Some TYPE_MULTIPLICATION, MULT_DIV)
  else if Ascii.eqb c "/"%char then Some (Some TYPE_DIVISION, MULT_DIV)
  else if Ascii.eqb c "("%char then Some (None, LEFT_PARENTHESIS)
  else None.

Definition is_left_parenthesis (p : Precedence) : bool :=
  match p with LEFT_PARENTHESIS => true | _ => false end.

(** The literal loop of [ArrayNode::parse]:
    [while (i < tokens.size() && !(tokens[i] is the symbol ']'))]. *)
Fixpoint array_literal_loop (fuel : nat) (tokens : list Token) (i : nat)
    (ints : list Z) : outcome (list Z * nat) :=
  match fuel with
  | O => OutOfFuel
  | S fuel' =>
      match tokens !! i with
      | None => Ok (ints, i)
      | Some t =>
          if is_symbol_char t "]"%char then Ok (ints, i)
          else
            let* lit := expect tokens i "Array" INT_LIT EmptyString in
            let* z := stoi (getValue lit) in
            let i := S i in
            match tokens !! i with
            | None => UB
            | Some t' =>
                if negb (is_symbol_char t' "]"%char) then
                  let* ignored := expect tokens i "Array" SYMBOL "," in
                  array_literal_loop fuel' tokens (S i) (ints ++ [z])
                else array_literal_loop fuel' tokens i (ints ++ [z])
            end
      end
  end.

(** The expression parsers are mutually recursive; [fuel] bounds the depth
    of calls and the number of loop iterations. Every parser returns its
    node together with the updated index [i]. *)
Fixpoint ExpressionNode_parse (fuel : nat) (tokens : list Token) (i : nat)
    : outcome (ExpressionNode * nat) :=
  match fuel with
  | O => OutOfFuel
  | S fuel' =>
      let* (i', stacks) := expression_loop fuel' tokens i 0%nat [] [] in
      let* e := finish_expression (fst stacks) (snd stacks) in
      Ok (e, i')
  end

(** The [while] loop of [ExpressionNode::parse] up to [exit_loop]. *)
with expression_loop (fuel : nat) (tokens : list Token) (i numLeftParentheses : nat)
    (output : list OutputItem) (operators : list OperatorItem)
    : outcome (nat * (list OutputItem * list OperatorItem)) :=
  match fuel with
  | O => OutOfFuel
  | S fuel' =>
      match tokens !! i with
      | None => Ok (i, (output, operators))
      | Some token =>
          if (numLeftParentheses =? 0)%nat && Token_eqb token (symbol ")") then
            Ok (i, (output, operators))
          else
            let operand :=
              let* (arrayNode, i1) := ArrayNode_parse fuel' tokens i in
              let* (postFix, i2) := ArrayPostFixNode_parse fuel' tokens i1 [] in
              (* --i; break; ++i *)
              expression_loop fuel' tokens i2 numLeftParentheses
                (inr (mkExpression (PArray arrayNode) postFix) :: output) operators in
            match getType token with
            | IDENTIFIER | STRING_LIT => operand
            | INT_LIT => Throw "Unexpected int literal in array expression."
            | SYMBOL =>
                let c := first_char (getValue token) in
                if Ascii.eqb c "["%char then operand
                else if Ascii.eqb c ")"%char then
                  let* (output', operators') :=
                    pop_operators (fun top => is_left_parenthesis (snd top))
                      output operators in
                  match operators' with
                  | [] => Throw "More ) than ( in array expression."
                  | _ :: operators'' =>
                      expression_loop fuel' tokens (S i) (numLeftParentheses - 1)
                        output' operators''
                  end
                else
                  match operator_of c with
                  | None => Ok (i, (output, operators))
                  | Some (newOperator, newPrecedence) =>
                      let numLeftParentheses' :=
                        if is_left_parenthesis newPrecedence
                        then S numLeftParentheses else numLeftParentheses in
                      let* (output', operators') :=
                        pop_operators
                          (fun top => Precedence_value (snd top)
                                      <? Precedence_value newPrecedence)
                          output operators in
                      expression_loop fuel' tokens (S i) numLeftParentheses'
                        output' ((newOperator, newPrecedence) :: operators')
                  end
            end
      end
  end

with ArrayNode_parse (fuel : nat) (tokens : list Token) (i : nat)
    : outcome (ArrayNode * nat) :=
  match fuel with
  | O => OutOfFuel
  | S fuel' =>
      match tokens !! i with
      | None => UB
      | Some token =>
          match getType token with
          | IDENTIFIER =>
              if at_symbol tokens (S i) "(" then
                let* (call, i1) := FunctionCallNode_parse fuel' tokens i in
                Ok (ACall call, i1)
              else Ok (AIdentifier (getValue token), S i)
          | STRING_LIT => Ok (AInts (stringToInts (getValue token)), S i)
          | _ =>
              let* ignored := expect tokens i "Array" SYMBOL "[" in
              let* (ints, i1) := array_literal_loop fuel' tokens (S i) [] in
              let* ignored' := expect tokens i1 "Array" SYMBOL "]" in
              Ok (AInts ints, S i1)
          end
      end
  end

with FunctionCallNode_parse (fuel : nat) (tokens : list Token) (i : nat)
    : outcome (FunctionCallNode * nat) :=
  match fuel with
  | O => OutOfFuel
  | S fuel' =>
      let* t := expect tokens i "Function Call" IDENTIFIER EmptyString in
      let i := S i in
      let* ignored := expect tokens i "Function Call" SYMBOL "(" in
      let i := S i in
      let* (parameters, i) := parseExpressions fuel' tokens i [] in
      let* ignored' := expect tokens i "Function Call" SYMBOL ")" in
      let i := S i in
      if (length tokens <=? i)%nat then
        Throw (UnexpectedEOFError "Function Call" "; or . after function call")
      else Ok (mkFunctionCall (getValue t) parameters, i)
  end

(** [parseExpressions(tokens, i, ')')] *)
with parseExpressions (fuel : nat) (tokens : list Token) (i : nat)
    (expressions : list ExpressionNode) : outcome (list ExpressionNode * nat) :=
  match fuel with
  | O => OutOfFuel
  | S fuel' =>
      match tokens !! i with
      | None => Ok (expressions, i)
      | Some t =>
          if is_symbol_char t ")"%char then Ok (expressions, i)
          else
            let* (e, i1) := ExpressionNode_parse fuel' tokens i in
            match tokens !! i1 with
            | None => Throw (UnexpectedEOFError "Expression" ", or )")
            | Some t1 =>
                let i2 := if is_symbol_char t1 ","%char then S i1 else i1 in
                parseExpressions fuel' tokens i2 (expressions ++ [e])
            end
      end
  end

with ArrayPostFixNode_parse (fuel : nat) (tokens : list Token) (i : nat)
    (result : list PostFix) : outcome (list PostFix * nat) :=
  match fuel with
  | O => OutOfFuel
  | S fuel' =>
      match tokens !! i with
      | None => Ok (result, i)
      | Some t =>
          if is_symbol_char t "["%char then
            let* (r, i1) := ArrayRangeNode_parse fuel' tokens i in
            ArrayPostFixNode_parse fuel' tokens i1 (result ++ [PRange r])
          else if is_symbol_char t "."%char then
            let* (m, i1) := MethodNode_parse fuel' tokens i in
            ArrayPostFixNode_parse fuel' tokens i1 (result ++ [PMethod m])
          else Ok (result, i)
      end
  end

with ArrayRangeNode_parse (fuel : nat) (tokens : list Token) (i : nat)
    : outcome (ArrayRangeNode * nat) :=
  match fuel with
  | O => OutOfFuel
  | S fuel' =>
      let* ignored := expect tokens i "Array Range" SYMBOL "[" in
      let i := S i in
      let upper_bound (start : option Bound) (i : nat) :=
        let* ignored' := expect tokens i "Array Range" SYMBOL ":" in
        let i := S i in
        match tokens !! i, tokens !! (S i) with
        | Some t, Some _ =>
            let* (finish, i) :=
              match getType t with
              | INT_LIT =>
                  let* z := stoi (getValue t) in Ok (Some (BSize (to_size_t z)), S i)
              | _ =>
                  if negb (Token_eqb t (symbol "]")) then
                    let* (e, i1) := ExpressionNode_parse fuel' tokens i in
                    Ok (Some (BExpression e), i1)
                  else Ok (None, i)
              end in
            let* ignored'' := expect tokens i "Array Range" SYMBOL "]" in
            Ok (mkArrayRange start finish, S i)
        | _, _ => Throw (UnexpectedEOFError "Array Range" "Lower bound or :")
        end in
      match tokens !! i, tokens !! (S i) with
      | Some t, Some _ =>
          match getType t with
          | INT_LIT =>
              let* z := stoi (getValue t) in
              let startAsSizeT := to_size_t z in
              let i := S i in
              if at_symbol tokens i "]" then
                Ok (mkArrayRange (Some (BSize startAsSizeT))
                      (Some (BSize (Z.to_N ((Z.of_N startAsSizeT + 1) mod 2 ^ 64)))),
                    S i)
              else upper_bound (Some (BSize startAsSizeT)) i
          | _ =>
              if negb (Token_eqb t (symbol ":")) then
                let* (startAsExpression, i1) := ExpressionNode_parse fuel' tokens i in
                let i2 := if at_symbol tokens i1 "]" then S i1 else i1 in
                upper_bound (Some (BExpression startAsExpression)) i2
              else upper_bound None i
          end
      | _, _ => Throw (UnexpectedEOFError "Array Range" "Lower bound or :")
      end
  end

with MethodNode_parse (fuel : nat) (tokens : list Token) (i : nat)
    : outcome (MethodNode * nat) :=
  match fuel with
  | O => OutOfFuel
  | S fuel' =>
      let* ignored := expect tokens i "Method" SYMBOL "." in
      let i := S i in
      let* t := expect tokens i "Method" IDENTIFIER EmptyString in
      let i := S i in
      let* ignored' := expect tokens i "Method" SYMBOL "(" in
      let i := S i in
      let* (parameters, i) := parseExpressions fuel' tokens i [] in
      let* ignored'' := expect tokens i "Method" SYMBOL ")" in
      Ok (mkMethod (getValue t) parameters, S i)
  end.

(** [VariableDeclarationNode::parse] *)
Definition VariableDeclarationNode_parse (fuel : nat) (tokens : list Token) (i : nat)
    : outcome (VariableDeclarationNode * nat) :=
  let* ignored := expect tokens i "Variable Declaration" IDENTIFIER "let" in
  let i := S i in
  let* t := expect tokens i "Variable Declaration" IDENTIFIER EmptyString in
  let i := S i in
  let* ignored' := expect tokens i "Variable Declaration" SYMBOL ":" in
  let i := S i in
  let* (descriptor, i) := ArrayDescriptor_parse tokens i in
  match tokens !! i with
  | Some t' =>
      if is_symbol_char t' "="%char then
        let* (e, i1) := ExpressionNode_parse fuel tokens (S i) in
        Ok (mkVariableDeclaration (getValue t) descriptor (Some e), i1)
      else Ok (mkVariableDeclaration (getValue t) descriptor None, i)
  | None => Ok (mkVariableDeclaration (getValue t) descriptor None, i)
  end.

(** [VariableAssignmentNode::parse] *)
Definition VariableAssignmentNode_parse (fuel : nat) (tokens : list Token) (i : nat)
    : outcome (VariableAssignmentNode * nat) :=
  let* t := expect tokens i "Variable Assignment" IDENTIFIER EmptyString in
  let i := S i in
  let* ignored := expect tokens i "Variable Assignment" SYMBOL "=" in
  let i := S i in
  let* (e, i) := ExpressionNode_parse fuel tokens i in
  Ok (mkVariableAssignment (getValue t) e, i).

(** [VariableBindingNode::parse] *)
Definition VariableBindingNode_parse (fuel : nat) (tokens : list Token) (i : nat)
    : outcome (VariableBindingNode * nat) :=
  let* t := expect tokens i "Variable Bind" IDENTIFIER EmptyString in
  if String.eqb (getValue t) "let" then
    let* (d, i) := VariableDeclarationNode_parse fuel tokens i in
    Ok (VBDeclaration d, i)
  else
    let* (a, i) := VariableAssignmentNode_parse fuel tokens i in
    Ok (VBAssignment a, i).

(** [ReturnNode::parse] *)
Definition ReturnNode_parse (fuel : nat) (tokens : list Token) (i : nat)
    : outcome (ExpressionNode * nat) :=
  let* ignored := expect tokens i "Return" IDENTIFIER "return" in
  let i := S i in
  let* (e, i) := ExpressionNode_parse fuel tokens i in
  let* ignored' := expect tokens i "Return" SYMBOL ";" in
  Ok (e, S i).

(** [IfCompareNode::parse] *)
Definition IfCompareNode_parse (fuel : nat) (tokens : list Token) (i : nat)
    : outcome (IfCompareNode * nat) :=
  let* (left, i) := ExpressionNode_parse fuel tokens i in
  let* t := expect tokens i "If Comparison" SYMBOL EmptyString in
  let symbol1 := first_char (getValue t) in
  let i := S i in
  let nextIsEq :=
    match tokens !! i with
    | Some t' => is_symbol_char t' "="%char
    | None => false
    end in
  let i := if nextIsEq then S i else i in
  let* type :=
    if nextIsEq then
      if Ascii.eqb symbol1 "<"%char then Ok LE
      else if Ascii.eqb symbol1 "="%char then Ok EQ
      else if Ascii.eqb symbol1 ">"%char then Ok GE
      else if Ascii.eqb symbol1 "!"%char then Ok NE
      else
        match tokens !! (i - 1)%nat with
        | Some p =>
            Throw (UnexpectedTokenError "If Comparison"
                     (tokenTypeToString (getType p) +:+ " " +:+ string_of_char symbol1)
                     "Comparison Operator")
        | None => UB
        end
    else
      if Ascii.eqb symbol1 "<"%char then Ok LT
      else if Ascii.eqb symbol1 ">"%char then Ok GT
      else
        match tokens !! i with
        | Some p =>
            Throw (UnexpectedTokenError "If Comparison"
                     (tokenTypeToString (getType p) +:+ " " +:+ string_of_char symbol1)
                     "Comparison Operator")
        | None => UB
        end in
  let* (right, i) := ExpressionNode_parse fuel tokens i in
  Ok (mkIfCompare type left right, i).

(** The condition of [IfNode::parse] and [WhileNode::parse]. *)
Definition IfCondition_parse (fuel : nat) (tokens : list Token) (i : nat)
    : outcome (IfCondition * nat) :=
  match tokens !! i with
  | None => UB
  | Some t =>
      if TokenType_eqb (getType t) IDENTIFIER && String.eqb (getValue t) "let" then
        let* (d, i) := VariableDeclarationNode_parse fuel tokens i in
        Ok (CDeclaration d, i)
      else
        let* (c, i) := IfCompareNode_parse fuel tokens i in
        Ok (CCompare c, i)
  end.

(** The statement parsers. *)
Fixpoint BodyNode_parse (fuel : nat) (tokens : list Token) (i : nat)
    : outcome (BodyNode * nat) :=
  match fuel with
  | O => OutOfFuel
  | S fuel' =>
      let* ignored := expect tokens i "Body" SYMBOL "{" in
      let* (statements, i) := body_loop fuel' tokens (S i) [] in
      let* ignored' := expect tokens i "Body" SYMBOL "}" in
      Ok (statements, S i)
  end

(** [while (i < tokens.size() && !(tokens[i] is the symbol '}'))] *)
with body_loop (fuel : nat) (tokens : list Token) (i : nat)
    (statements : list StatementNode) : outcome (list StatementNode * nat) :=
  match fuel with
  | O => OutOfFuel
  | S fuel' =>
      match tokens !! i with
      | None => Ok (statements, i)
      | Some t =>
          if is_symbol_char t "}"%char then Ok (statements, i)
          else
            let* (s, i1) := StatementNode_parse fuel' tokens i in
            body_loop fuel' tokens i1 (statements ++ [s])
      end
  end

with StatementNode_parse (fuel : nat) (tokens : list Token) (i : nat)
    : outcome (StatementNode * nat) :=
  match fuel with
  | O => OutOfFuel
  | S fuel' =>
      match tokens !! i with
      | None => Throw (UnexpectedEOFError "Statement" "token")
      | Some t =>
          match getType t with
          | IDENTIFIER =>
              let identifier := getValue t in
              if String.eqb identifier "if" then
                let* (n, i) := IfNode_parse fuel' tokens i in Ok (SIf n, i)
              else if String.eqb identifier "for" then
                let* (n, i) := ForLoopNode_parse fuel' tokens i in Ok (SForLoop n, i)
              else if String.eqb identifier "while" then
                let* (n, i) := WhileNode_parse fuel' tokens i in Ok (SWhile n, i)
              else if String.eqb identifier "return" then
                let* (e, i) := ReturnNode_parse fuel' tokens i in Ok (SReturn e, i)
              else
                let* (result, i) :=
                  if at_symbol tokens (S i) "(" then
                    let* (c, i) := FunctionCallNode_parse fuel' tokens i in
                    Ok (SFunctionCall c, i)
                  else
                    let* (b, i) := VariableBindingNode_parse fuel' tokens i in
                    Ok (SVariableBinding b, i) in
                let* ignored := expect tokens i "Statement" SYMBOL ";" in
                Ok (result, S i)
          | _ =>
              match i with
              | O => UB
              | S p =>
                  match tokens !! p with
                  | Some previous =>
                      Throw (UnexpectedTokenError "Statement" (getValue t)
                               ("Identifier. Previous token: " +:+ getValue previous))
                  | None => UB
                  end
              end
          end
      end
  end

with IfNode_parse (fuel : nat) (tokens : list Token) (i : nat)
    : outcome (IfNode * nat) :=
  match fuel with
  | O => OutOfFuel
  | S fuel' =>
      let* ignored := expect tokens i "If" IDENTIFIER "if" in
      let i := S i in
      if (length tokens <=? i)%nat then Throw (UnexpectedEOFError "If" "token")
      else
        let* (condition, i) := IfCondition_parse fuel' tokens i in
        let* (body, i) := BodyNode_parse fuel' tokens i in
        match tokens !! i with
        | Some t =>
            if TokenType_eqb (getType t) IDENTIFIER && String.eqb (getValue t) "else" then
              let i := S i in
              match tokens !! i with
              | None => Throw (UnexpectedEOFError "If" "if or { after else")
              | Some t' =>
                  if is_symbol_char t' "{"%char then
                    let* (elseBody, i) := BodyNode_parse fuel' tokens i in
                    Ok (mkIf condition body None (Some elseBody), i)
                  else
                    let* (elseIf, i) := IfNode_parse fuel' tokens i in
                    Ok (mkIf condition body (Some elseIf) None, i)
              end
            else Ok (mkIf condition body None None, i)
        | None => Ok (mkIf condition body None None, i)
        end
  end

with ForLoopNode_parse (fuel : nat) (tokens : list Token) (i : nat)
    : outcome (ForLoopNode * nat) :=
  match fuel with
  | O => OutOfFuel
  | S fuel' =>
      let* ignored := expect tokens i "For Loop" IDENTIFIER "for" in
      let i := S i in
      let* t := expect tokens i "For Loop" IDENTIFIER EmptyString in
      let i := S i in
      let* ignored' := expect tokens i "For Loop" SYMBOL ":" in
      let i := S i in
      let* (iterable, i) := ExpressionNode_parse fuel' tokens i in
      let* (body, i) := BodyNode_parse fuel' tokens i in
      Ok (mkForLoop (getValue t) iterable body, i)
  end

with WhileNode_parse (fuel : nat) (tokens : list Token) (i : nat)
    : outcome (WhileNode * nat) :=
  match fuel with
  | O => OutOfFuel
  | S fuel' =>
      let* ignored := expect tokens i "while" IDENTIFIER "while" in
      let i := S i in
      if (length tokens <=? i)%nat then Throw (UnexpectedEOFError "while" "token")
      else
        let* (condition, i) := IfCondition_parse fuel' tokens i in
        let* (body, i) := BodyNode_parse fuel' tokens i in
        Ok (mkWhile condition body, i)
  end.

(** The parameter loop of [FunctionDefinitionNode::parse]. *)
Fixpoint params_loop (fuel : nat) (tokens : list Token) (i : nat)
    (params : list FunctionParameterNode)
    : outcome (list FunctionParameterNode * nat) :=
  match fuel with
  | O => OutOfFuel
  | S fuel' =>
      match tokens !! i with
      | None => Ok (params, i)
      | Some t =>
          if Token_eqb t (symbol ")") then Ok (params, i)
          else
            let* (p, i1) := FunctionParameterNode_parse tokens i in
            let i2 := if at_symbol tokens i1 "," then S i1 else i1 in
            params_loop fuel' tokens i2 (params ++ [p])
      end
  end.

(** [FunctionDefinitionNode::parse] *)
Definition FunctionDefinitionNode_parse (fuel : nat) (tokens : list Token) (i : nat)
    : outcome (FunctionDefinitionNode * nat) :=
  let* ignored := expect tokens i "Function Definition" IDENTIFIER "fn" in
  let i := S i in
  let* t := expect tokens i "Function Definition" IDENTIFIER EmptyString in
  let i := S i in
  let* ignored1 := expect tokens i "Function Definition" SYMBOL "(" in
  let i := S i in
  let* (params, i) := params_loop fuel tokens i [] in
  let* ignored2 := expect tokens i "Function Definition" SYMBOL ")" in
  let i := S i in
  let* ignored3 := expect tokens i "Function Definition" SYMBOL "-" in
  let i := S i in
  let* ignored4 := expect tokens i "Function Definition" SYMBOL ">" in
  let i := S i in
  let* (output, i) := ArrayDescriptor_parse tokens i in
  let* (body, i) := BodyNode_parse fuel tokens i in
  Ok (mkFunctionDefinition (getValue t) params output body, i).

(** [UseNode::parse] *)
Definition UseNode_parse (fuel : nat) (tokens : list Token) (i : nat)
    : outcome (UseNode * nat) :=
  let* ignored := expect tokens i "use" IDENTIFIER "use" in
  let i := S i in
  match tokens !! i with
  | None =>
      Throw (UnexpectedEOFError "use"
               (string_of_char dquote +:+ "array literal" +:+ string_of_char dquote
                +:+ " or <standard_header>"))
  | Some t =>
      if Token_eqb t (symbol "<") then
        let i := S i in
        let* h := expect tokens i "use" IDENTIFIER EmptyString in
        let i := S i in
        let* ignored' := expect tokens i "use" SYMBOL ">" in
        Ok (mkUse (AInts (stringToInts (getValue h))) STANDARD_HEADER, S i)
      else
        let* (a, i) := ArrayNode_parse fuel tokens i in
        Ok (mkUse a PATH, i)
  end.

(** The [while (i < numTokens)] loop of [RootNode::parse]. *)
Fixpoint root_loop (fuel : nat) (tokens : list Token) (i : nat)
    (values : list RootItem) : outcome RootNode :=
  match fuel with
  | O => OutOfFuel
  | S fuel' =>
      match tokens !! i with
      | None => Ok values
      | Some t =>
          match getType t with
          | IDENTIFIER =>
              if String.eqb (getValue t) "fn" then
                let* (f, i1) := FunctionDefinitionNode_parse fuel' tokens i in
                root_loop fuel' tokens i1 (values ++ [RFunctionDefinition f])
              else if String.eqb (getValue t) "use" then
                let* (u, i1) := UseNode_parse fuel' tokens i in
                root_loop fuel' tokens i1 (values ++ [RUse u])
              else
                let* (item, i1) :=
                  if at_symbol tokens (S i) "(" then
                    let* (c, i1) := FunctionCallNode_parse fuel' tokens i in
                    Ok (RFunctionCall c, i1)
                  else
                    let* (b, i1) := VariableBindingNode_parse fuel' tokens i in
                    Ok (RVariableBinding b, i1) in
                let* ignored := expect tokens i1 "TODO" SYMBOL ";" in
                root_loop fuel' tokens (S i1) (values ++ [item])
          | _ =>
              Throw ("Unexpected value " +:+ getValue t +:+ ". Expected let, use, or fn")
          end
      end
  end.

(** [RootNode::parse] *)
Definition RootNode_parse (fuel : nat) (tokens : list Token) : outcome RootNode :=
  root_loop fuel tokens 0 [].

(** ** runtime/interpreter.h: scopes *)

(** [std::variant<std::shared_ptr<Value>, std::shared_ptr<FunctionDefinitionNode>>].
    The pointed-to values are never mutated, so a binding holds the value. *)
Inductive Binding : Type :=
| BValue (v : Value)
| BFunction (f : FunctionDefinitionNode).

(** A [Scope] object; [parent] is the identifier of the scope the weak
    pointer refers to. *)
Record Scope : Type := mkScope {
  parent : option nat;
  variables : gmap string Binding }.

(** The live [Scope] objects. Scopes are created and destroyed in stack
    order; the newest is the head of the list and the identifier of a scope
    is the number of scopes below it. *)
Abbreviation Scopes := (list Scope).

(** [std::weak_ptr<Scope>::lock] *)
Fixpoint lock (scopes : Scopes) (id : nat) : option Scope :=
  match scopes with
  | [] => None
  | s :: below => if (length below =? id)%nat then Some s else lock below id
  end.

(** [Scope::has] *)
Definition Scope_has (s : Scope) (name : string) : bool :=
  match variables s !! name with Some _ => true | None => false end.

(** [Scope::hasRecursive], called on the scope [this]. *)
Fixpoint Scope_hasRecursive (scopes : Scopes) (this : nat) (name : string) : bool :=
  match scopes with
  | [] => false
  | s :: below =>
      if (length below =? this)%nat then
        if Scope_has s name then true
        else
          match parent s with
          | Some p => Scope_hasRecursive below p name
          | None => false
          end
      else Scope_hasRecursive below this name
  end.

(** [Scope::get] *)
Fixpoint Scope_get (scopes : Scopes) (this : nat) (name : string) : outcome Binding :=
  match scopes with
  | [] => Throw ("Undefined variable: " +:+ name)
  | s :: below =>
      if (length below =? this)%nat then
        match variables s !! name with
        | Some b => Ok b
        | None =>
            match parent s with
            | Some p => Scope_get below p name
            | None => Throw ("Undefined variable: " +:+ name)
            end
        end
      else Scope_get below this name
  end.

(** [Scope::set]: [variables.insert_or_assign(name, value)] in the nearest
    scope that has [name]. *)
Fixpoint Scope_set (scopes : Scopes) (this : nat) (name : string) (b : Binding)
    : outcome Scopes :=
  match scopes with
  | [] => Throw ("Undefined variable for assignment: " +:+ name)
  | s :: below =>
      if (length below =? this)%nat then
        if Scope_has s name then
          Ok (mkScope (parent s) (<[name := b]> (variables s)) :: below)
        else
          match parent s with
          | Some p => let* below' := Scope_set below p name b in Ok (s :: below')
          | None => Throw ("Undefined variable for assignment: " +:+ name)
          end
      else let* below' := Scope_set below this name b in Ok (s :: below')
  end.

(** [Scope::define]: [variables.emplace(name, value)], which keeps an
    existing entry. *)
Definition emplace (name : string) (b : Binding) (s : Scope) : Scope :=
  if Scope_has s name then s
  else mkScope (parent s) (<[name := b]> (variables s)).

Fixpoint Scope_define (scopes : Scopes) (this : nat) (name : string) (b : Binding)
    : Scopes :=
  match scopes with
  | [] => []
  | s :: below =>
      if (length below =? this)%nat then emplace name b s :: below
      else s :: Scope_define below this name b
  end.

(** ** The state of a run *)

Record State : Type := mkState {
  scopes : Scopes;                  (* the live scopes *)
  interpretedFiles : list string;   (* the vector threaded through the loader *)
  cout : string;                    (* bytes written to std::cout *)
  cerr : string;                    (* bytes written to std::cerr *)
  keys : list ascii;                (* keys waiting at the terminal *)
  opened : list string;             (* paths handed to readCode, oldest first *)
  cleared : nat }.                  (* number of terminal clears *)

Definition set_scopes (h : Scopes) (st : State) : State :=
  mkState h (interpretedFiles st) (cout st) (cerr st) (keys st) (opened st) (cleared st).
Definition set_interpretedFiles (l : list string) (st : State) : State :=
  mkState (scopes st) l (cout st) (cerr st) (keys st) (opened st) (cleared st).
Definition set_cout (s : string) (st : State) : State :=
  mkState (scopes st) (interpretedFiles st) s (cerr st) (keys st) (opened st) (cleared st).
Definition set_cerr (s : string) (st : State) : State :=
  mkState (scopes st) (interpretedFiles st) (cout st) s (keys st) (opened st) (cleared st).
Definition set_keys (k : list ascii) (st : State) : State :=
  mkState (scopes st) (interpretedFiles st) (cout st) (cerr st) k (opened st) (cleared st).
Definition set_opened (l : list string) (st : State) : State :=
  mkState (scopes st) (interpretedFiles st) (cout st) (cerr st) (keys st) l (cleared st).
Definition set_cleared (n : nat) (st : State) : State :=
  mkState (scopes st) (interpretedFiles st) (cout st) (cerr st) (keys st) (opened st) n.

(** Stateful computations: an outcome together with the state it leaves. *)
Definition M (A : Type) : Type := State -> outcome A * State.

Definition ret {A} (a : A) : M A := fun st => (Ok a, st).

Definition bind {A B} (m : M A) (k : A -> M B) : M B :=
  fun st =>
    match m st with
    | (Ok a, st') => k a st'
    | (Throw w, st') => (Throw w, st')
    | (Exit c, st') => (Exit c, st')
    | (Killed g, st') => (Killed g, st')
    | (UB, st') => (UB, st')
    | (OutOfFuel, st') => (OutOfFuel, st')
    end.

Definition lift {A} (o : outcome A) : M A := fun st => (o, st).
Definition throw {A} (what : string) : M A := lift (Throw what).

Declare Scope M_scope.
Delimit Scope M_scope with M.
Notation "'do' x '<-' m ';' k" := (bind m (fun x => k))
  (at level 10, x name, m at level 100, k at level 200) : M_scope.
Notation "'run' m ';' k" := (bind m (fun _ => k))
  (at level 10, m at level 100, k at level 200) : M_scope.
Open Scope M_scope.

Definition get_scopes : M Scopes := fun st => (Ok (scopes st), st).
Definition put_scopes (h : Scopes) : M unit := fun st => (Ok tt, set_scopes h st).

(** [if (auto locked = scope.lock()) k else throw std::runtime_error(what)] *)
Definition locked {A} (scope : nat) (what : string) (k : M A) : M A :=
  fun st =>
    match lock (scopes st) scope with
    | Some _ => k st
    | None => (Throw what, st)
    end.

(** [std::make_shared<Scope>(parent)]: the new scope and its identifier. *)
Definition new_Scope (parent : option nat) : M nat :=
  fun st =>
    (Ok (length (scopes st)), set_scopes (mkScope parent ∅ :: scopes st) st).

(** The newest scope goes out of scope. *)
Definition release_Scope : M unit :=
  fun st => (Ok tt, set_scopes (tail (scopes st)) st).

(** A block that owns a fresh scope: [auto scope =
    std::make_shared<Scope>(parent)] at its start, the scope destroyed when
    the block is left. *)
Definition with_Scope {A} (parent : option nat) (block : nat -> M A) : M A :=
  do scope <- new_Scope parent;
  do result <- block scope;
  run release_Scope;
  ret result.

Definition define (scope : nat) (name : string) (b : Binding) : M unit :=
  fun st => (Ok tt, set_scopes (Scope_define (scopes st) scope name b) st).

Fixpoint mapM {A B} (f : A -> M B) (l : list A) : M (list B) :=
  match l with
  | [] => ret []
  | x :: rest =>
      do y <- f x;
      do ys <- mapM f rest;
      ret (y :: ys)
  end.

(** Loops that stop at the first iteration yielding a return value. *)
Fixpoint first_return {A} (f : A -> M (option Value)) (l : list A) : M (option Value) :=
  match l with
  | [] => ret None
  | x :: rest =>
      do r <- f x;
      match r with
      | Some v => ret (Some v)
      | None => first_return f rest
      end
  end.

(** ** runtime/interpreter.cpp *)

(** [static_cast<char>(int)] *)
Definition char_of_int (z : Z) : ascii := ascii_of_N (Z.to_N (z mod 256)).

(** [valueToString] *)
Definition valueToString (v : Value) : string :=
  string_of_list_ascii (map char_of_int (fromValue v)).

(** The value [Value(DynamicArray(0), 0)]. *)
Definition empty_Value : Value := mkValue (VDynamicArray []) 0.

(** [literal + n] where [literal] is a string literal and [n] a [size_t]:
    pointer arithmetic, which yields the text from offset [n]. *)
Definition literal_plus (literal : string) (n : nat) : outcome string :=
  if (n <=? String.length literal)%nat
  then Ok (string_of_list_ascii (drop n (list_ascii_of_string literal)))
  else UB.

(** [throw std::runtime_error("Function f expected ... but received " + n)] *)
Definition throw_arity {A} (literal : string) (n : nat) : M A :=
  lift (let* what := literal_plus literal n in Throw what).

(** [applyAppend] *)
Definition applyAppend (v : Value) (parameters : list Value) : outcome Value :=
  match parameters with
  | [param1] =>
      let size1 := Value_getSize v in
      let size2 := Value_getSize param1 in
      Ok (mkValue (VDynamicArray (fromValue v ++ fromValue param1)) (size1 + size2))
  | _ => Throw "append expects 1 argument with type []"
  end.

(** [sqrt] on [double] converted back to [int]; the conversion of the NaN
    that a negative argument gives is undefined. *)
Fixpoint sqrt_all (l : list Z) : outcome (list Z) :=
  match l with
  | [] => Ok []
  | x :: rest =>
      if x <? 0 then UB
      else let* rest' := sqrt_all rest in Ok (Z.sqrt x :: rest')
  end.

(** [applySqrt] *)
Definition applySqrt (v : Value) (parameters : list Value) : outcome Value :=
  match parameters with
  | [] =>
      let fixedValue := fromValue v in
      let* result := sqrt_all fixedValue in
      Ok (mkValue (VDynamicArray result) (size_of result))
  | _ => Throw "sqrt expects 0 arguments"
  end.

(** [applySize] *)
Definition applySize (v : Value) (parameters : list Value) : outcome Value :=
  match parameters with
  | [] => Ok (mkValue (VDynamicArray [int_of_size_t (Value_getSize v)]) 1)
  | _ => Throw "size expects 0 arguments"
  end.

(** The tail of [interpretArrayRange], once both bounds are known. *)
Definition slice (v : Value) (start finish : N) : outcome Value :=
  let size := Value_getSize v in
  if (finish <? start)%N then
    Throw "Array Range upper bound must be greater than or equal to the lower bound"
  else
    let newSize := (finish - start)%N in
    let* result := DynamicArray_new newSize in
    if (size <? finish)%N then
      Throw "Array range bounds must be smaller than the length of the array"
    else
      let staticValue := fromValue v in
      Ok (mkValue (VDynamicArray (take (N.to_nat newSize) (drop (N.to_nat start) staticValue)))
            newSize).

(** Comparison of [std::optional<size_t>] with a [size_t]. *)
Definition optional_eq (o : option N) (v : N) : bool :=
  match o with Some x => (x =? v)%N | None => false end.
Definition optional_lt (o : option N) (v : N) : bool :=
  match o with Some x => (x <? v)%N | None => true end.

(** The test of [interpretIfDeclaration]. *)
Definition descriptor_accepts (descriptor : ArrayDescriptor) (v : Value) : bool :=
  optional_eq (getSize descriptor) (Value_getSize v)
  || (optional_lt (getSize descriptor) (Value_getSize v) && getCanGrow descriptor).

Definition compare (type : IfCompareType) (left right : Value) : bool :=
  match type with
  | EQ => Value_eq left right
  | NE => Value_ne left right
  | LT => Value_lt left right
  | LE => Value_le left right
  | GT => Value_gt left right
  | GE => Value_ge left right
  end.

(** The body of [interpretRange] after its argument has been evaluated. *)
Definition range_of (param1 : list Z) : outcome Value :=
  match param1 with
  | [length] =>
      if length <? 0 then
        Throw ("Function range expected 1 non-negative argument with size [1] but "
               +:+ "received the value " +:+ DynamicArray_to_string param1)
      else
        let result := map (fun i => int_of_size_t (N.of_nat i)) (seq 0 (Z.to_nat length)) in
        Ok (mkValue (VDynamicArray result) (size_of result))
  | _ =>
      Throw ("Function range expected 1 argument with size [1] but received ["
             +:+ to_string_N (size_of param1) +:+ "]")
  end.

(** [*std::get_if<std::shared_ptr<FunctionDefinitionNode>>(&scope->get(name))]:
    [get_if] yields a null pointer when the binding holds a value, and
    dereferencing it is undefined. *)
Definition function_at (h : Scopes) (scope : nat) (name : string)
    : outcome FunctionDefinitionNode :=
  let* b := Scope_get h scope name in
  match b with
  | BFunction f => Ok f
  | BValue _ => UB
  end.

(** [*std::get_if<std::shared_ptr<Value>>(&scope->get(name))], likewise. *)
Definition value_at (h : Scopes) (scope : nat) (name : string) : outcome Value :=
  let* b := Scope_get h scope name in
  match b with
  | BValue v => Ok v
  | BFunction _ => UB
  end.

(** The loop that binds the parameters of a call in the callee's scope. *)
Fixpoint bind_parameters (scope : nat) (params : list FunctionParameterNode)
    (arguments : list Value) : M unit :=
  match params, arguments with
  | param :: params', argument :: arguments' =>
      do v <- lift (fromDescriptor (param_descriptor param) (Some argument));
      run define scope (param_identifier param) (BValue v);
      bind_parameters scope params' arguments'
  | _, _ => ret tt
  end.

(** [getCharImmediate]: one key from the terminal; end of input reads as
    [EOF], Ctrl+C raises [SIGINT]. *)
Definition SIGINT : Z := 2.

Definition getCharImmediate : M ascii :=
  fun st =>
    let '(ch, st') :=
      match keys st with
      | c :: rest => (c, set_keys rest st)
      | [] => ("255"%char, st)
      end in
    if (code_of ch =? 3)%N then (Killed SIGINT, st') else (Ok ch, st').

Fixpoint foldM {A B} (f : B -> A -> M B) (l : list A) (b : B) : M B :=
  match l with
  | [] => ret b
  | x :: rest => do b' <- f b x; foldM f rest b'
  end.

Fixpoint forM {A} (f : A -> M unit) (l : list A) : M unit :=
  match l with
  | [] => ret tt
  | x :: rest => run f x; forM f rest
  end.

Definition write_cout (s : string) : M unit :=
  fun st => (Ok tt, set_cout (cout st +:+ s) st).
Definition write_cerr (s : string) : M unit :=
  fun st => (Ok tt, set_cerr (cerr st +:+ s) st).

(** [clearTerminal] *)
Definition clearTerminal : M unit :=
  fun st => (Ok tt, set_cleared (S (cleared st)) st).

(** [try body catch (const std::exception& e) handler(e.what())] *)
Definition try_catch {A} (body : M A) (handler : string -> M A) : M A :=
  fun st =>
    match body st with
    | (Throw what, st') => handler what st'
    | r => r
    end.

Section Interpreter.

(** The files of the host: [fs path] is the content of the file at [path],
    if it can be opened. *)
Variable fs : string -> option string.

(** [readCode] (util/file.cpp) *)
Definition readCode (path : string) : M string :=
  fun st =>
    let st' := set_opened (opened st ++ [path]) st in
    match fs path with
    | Some content => (Ok content, st')
    | None => (Throw ("Failed to open file: " +:+ path), st')
    end.

(** [interpretFunctionDefinition] *)
Definition interpretFunctionDefinition (functionDefinition : FunctionDefinitionNode)
    (parent : nat) : M unit :=
  locked parent "Error interpreting function definition"
    (define parent (fn_identifier functionDefinition) (BFunction functionDefinition)).

(** The evaluator proper. Its functions are mutually recursive and a
    program may loop for ever, so the recursion is cut at five functions:
    nested calls of [interpretExpression], [interpretFunctionCall],
    [interpretBody], [interpretIf] and the iteration of the [while] loop are
    made through [rec], the evaluator one level of fuel below. *)
Record Evaluator : Type := mkEvaluator {
  rec_Expression : ExpressionNode -> nat -> M Value;
  rec_FunctionCall : FunctionCallNode -> nat -> M Value;
  rec_Body : BodyNode -> nat -> M (option Value);
  rec_If : IfNode -> nat -> M (option Value * bool);
  rec_while : IfCondition -> BodyNode -> nat -> M (option Value) }.

Section Level.

Variable rec : Evaluator.

Definition interpretParameters (parameters : list ExpressionNode) (scope : nat)
    : M (list Value) :=
  mapM (fun parameter => rec_Expression rec parameter scope) parameters.

Definition interpretArray (array : ArrayNode) (scope : nat) : M Value :=
  locked scope "Error interpreting array"
    match array with
    | AInts arg => ret (mkValue (VVector arg) (size_of arg))
    | AIdentifier arg => do h <- get_scopes; lift (value_at h scope arg)
    | ACall arg => rec_FunctionCall rec arg scope
    end.

Definition interpretArithmetic (arithmetic : ArithmeticNode) (scope : nat) : M Value :=
  let '(mkArithmetic l r type) := arithmetic in
  match l with
  | None => lift UB
  | Some l' =>
      do left <- rec_Expression rec l' scope;
      match r with
      | None => lift UB
      | Some r' =>
          do right <- rec_Expression rec r' scope;
          match type with
          | TYPE_ADDITION => lift (Value_add left right)
          | TYPE_SUBTRACTION => lift (Value_sub left right)
          | TYPE_MULTIPLICATION => lift (Value_mul left right)
          | TYPE_DIVISION => lift (Value_div left right)
          | TYPE_LEFT_PARENTHESIS => throw "Error interpreting arithmetic"
          end
      end
  end.

Definition applyMethod (v : Value) (method : MethodNode) (scope : nat) : M Value :=
  let '(mkMethod identifier ps) := method in
  do parameters <- interpretParameters ps scope;
  if String.eqb identifier "append" then lift (applyAppend v parameters)
  else if String.eqb identifier "sqrt" then lift (applySqrt v parameters)
  else if String.eqb identifier "size" then lift (applySize v parameters)
  else throw ("Unknown method " +:+ identifier).

Definition interpretArrayRangeBound (bound : Bound) (scope : nat) : M N :=
  match bound with
  | BSize n => ret n
  | BExpression e =>
      do v <- rec_Expression rec e scope;
      match fromValue v with
      | [x] =>
          if x <? 0 then
            throw ("Array Bounds value must be an integer or evaluate to "
                   +:+ "an array with 1 positive value")
          else ret (to_size_t x)
      | _ =>
          throw ("Array Bounds value must be an integer or evaluate to "
                 +:+ "an array with 1 positive value")
      end
  end.

Definition interpretArrayRange (range : ArrayRangeNode) (v : Value) (scope : nat)
    : M Value :=
  let '(mkArrayRange s e) := range in
  let size := Value_getSize v in
  let startV := match s with Some b => b | None => BSize 0 end in
  let endV := match e with Some b => b | None => BSize size end in
  do start <- interpretArrayRangeBound startV scope;
  do finish <- interpretArrayRangeBound endV scope;
  lift (slice v start finish).

Definition applyPostfix (v : Value) (postfixNode : list PostFix) (scope : nat)
    : M Value :=
  foldM (fun resultValue postfix =>
           match postfix with
           | PRange arg => interpretArrayRange arg resultValue scope
           | PMethod arg => applyMethod resultValue arg scope
           end)
    postfixNode v.

Definition interpretExpression (expression : ExpressionNode) (scope : nat) : M Value :=
  let '(mkExpression primary postfix) := expression in
  do v <- match primary with
          | PArithmetic arg => interpretArithmetic arg scope
          | PArray arg => interpretArray arg scope
          end;
  applyPostfix v postfix scope.

Definition interpretVariableDeclaration
    (variableDeclaration : VariableDeclarationNode) (scope : nat) : M unit :=
  locked scope "Error interpreting variable declaration"
    (do v <- match decl_value variableDeclaration with
             | Some e => do x <- interpretExpression e scope; ret (Some x)
             | None => ret None
             end;
     do made <- lift (fromDescriptor (decl_descriptor variableDeclaration) v);
     define scope (decl_identifier variableDeclaration) (BValue made)).

Definition interpretVariableAssignment
    (variableAssignment : VariableAssignmentNode) (scope : nat) : M unit :=
  locked scope "Error interpreting variable assignment"
    (do h <- get_scopes;
     if negb (Scope_hasRecursive h scope (getLeft variableAssignment)) then
       throw (getLeft variableAssignment +:+ " has not been defined")
     else
       do right <- interpretExpression (getRight variableAssignment) scope;
       do h' <- get_scopes;
       do h'' <- lift (Scope_set h' scope (getLeft variableAssignment) (BValue right));
       put_scopes h'').

Definition interpretVariableBinding (variableBinding : VariableBindingNode)
    (scope : nat) : M unit :=
  match variableBinding with
  | VBDeclaration arg => interpretVariableDeclaration arg scope
  | VBAssignment arg => interpretVariableAssignment arg scope
  end.

Definition interpretIfDeclaration (condition : VariableDeclarationNode) (scope : nat)
    : M bool :=
  match decl_value condition with
  | None => run interpretVariableDeclaration condition scope; ret true
  | Some expression =>
      locked scope "Error interpreting if declaration"
        (do v <- interpretExpression expression scope;
         let descriptor := decl_descriptor condition in
         if descriptor_accepts descriptor v then
           do made <- lift (fromDescriptor descriptor (Some v));
           run define scope (decl_identifier condition) (BValue made);
           ret true
         else ret false)
  end.

Definition interpretIfCompare (condition : IfCompareNode) (scope : nat) : M bool :=
  do left <- interpretExpression (cmp_left condition) scope;
  do right <- interpretExpression (cmp_right condition) scope;
  ret (compare (cmp_type condition) left right).

Definition interpretIfCondition (variantCondition : IfCondition) (scope : nat)
    : M bool :=
  match variantCondition with
  | CCompare condition => interpretIfCompare condition scope
  | CDeclaration condition => interpretIfDeclaration condition scope
  end.

(** One turn of the [while] statement inside [interpretWhile], run in
    [scope]; the next turn is [rec_while rec]. *)
Definition while_loop (condition : IfCondition) (body : BodyNode) (scope : nat)
    : M (option Value) :=
  do c <- interpretIfCondition condition scope;
  if c then
    do result <- rec_Body rec body scope;
    match result with
    | Some v => ret (Some v)
    | None => rec_while rec condition body scope
    end
  else ret None.

Definition interpretWhile (whileNode : WhileNode) (parentScope : nat)
    : M (option Value) :=
  let '(mkWhile condition body) := whileNode in
  with_Scope (Some parentScope) (fun scope => while_loop condition body scope).

Definition interpretForLoop (forLoop : ForLoopNode) (parentScope : nat)
    : M (option Value) :=
  let '(mkForLoop element iterableNode body) := forLoop in
  do iterable <- interpretExpression iterableNode parentScope;
  first_return
    (fun element_value =>
       with_Scope (Some parentScope)
         (fun scope =>
            run define scope element
                  (BValue (mkValue (VDynamicArray [element_value]) 1));
            rec_Body rec body scope))
    (fromValue iterable).

Definition interpretIf (ifNode : IfNode) (parentScope : nat)
    : M (option Value * bool) :=
  let '(mkIf condition body elseIf elseBody) := ifNode in
  with_Scope (Some parentScope)
    (fun scope =>
       do isConditionTrue <- interpretIfCondition condition scope;
       if isConditionTrue then
         do r <- rec_Body rec body scope; ret (r, true)
       else
         do elseIfResult <-
           match elseIf with
           | Some branch => rec_If rec branch scope
           | None => ret (None, false)
           end;
         if snd elseIfResult then ret (fst elseIfResult, true)
         else
           match elseBody with
           | Some b => do r <- rec_Body rec b scope; ret (r, true)
           | None => ret (None, false)
           end).

Definition interpretPrint (functionCall : FunctionCallNode) (scope : nat) : M Value :=
  let '(mkFunctionCall identifier parameters) := functionCall in
  match parameters with
  | [p] =>
      do param1 <- interpretExpression p scope;
      run write_cout (valueToString param1);
      ret empty_Value
  | _ => throw_arity "Function print expected 1 argument but received "
           (length parameters)
  end.

Definition interpretRead (functionCall : FunctionCallNode) (scope : nat) : M Value :=
  let '(mkFunctionCall identifier parameters) := functionCall in
  match parameters with
  | [p] =>
      do param1 <- interpretExpression p scope;
      do code <- readCode (valueToString param1);
      interpretArray (AInts (stringToInts code)) scope
  | _ => throw_arity "Function read expected 1 argument but received "
           (length parameters)
  end.

Definition interpretGetchar (functionCall : FunctionCallNode) (scope : nat) : M Value :=
  let '(mkFunctionCall identifier parameters) := functionCall in
  match parameters with
  | [] =>
      do ch <- getCharImmediate;
      interpretArray (AInts (stringToInts (string_of_char ch))) scope
  | _ => throw_arity "Function getchar expected 0 argument but received "
           (length parameters)
  end.

Definition interpretClear (functionCall : FunctionCallNode) : M Value :=
  let '(mkFunctionCall identifier parameters) := functionCall in
  match parameters with
  | [] => run clearTerminal; ret empty_Value
  | _ => throw_arity "Function clear expected 0 argument but received "
           (length parameters)
  end.

Definition interpretRange (functionCall : FunctionCallNode) (scope : nat) : M Value :=
  let '(mkFunctionCall identifier parameters) := functionCall in
  match parameters with
  | [p] =>
      do v <- interpretExpression p scope;
      lift (range_of (fromValue v))
  | _ => throw_arity "Function range expected 1 argument but received "
           (length parameters)
  end.

Definition interpretExit (functionCall : FunctionCallNode) (scope : nat) : M Value :=
  let '(mkFunctionCall identifier parameters) := functionCall in
  match parameters with
  | [p] =>
      do v <- interpretExpression p scope;
      match fromValue v with
      | code :: _ => lift (Exit code)
      | [] => lift UB
      end
  | _ => throw_arity "Function range expected 1 argument but received "
           (length parameters)
  end.

Definition interpretFunctionCall (functionCall : FunctionCallNode) (parent : nat)
    : M Value :=
  let '(mkFunctionCall identifier parameters) := functionCall in
  locked parent "Error interpreting function call"
    (do h <- get_scopes;
     if Scope_hasRecursive h parent identifier then
       do ignored <- lift (function_at h parent identifier);
       do arguments <- interpretParameters parameters parent;
       (* [functionDefinition] is a reference into the scope's map, used
          after the arguments have been evaluated *)
       do h' <- get_scopes;
       do functionDefinition <- lift (function_at h' parent identifier);
       with_Scope (Some parent)
         (fun scope =>
            let params := getParams functionDefinition in
            if negb (length params =? length arguments)%nat then
              throw ("Function " +:+ fn_identifier functionDefinition +:+ " expected "
                     +:+ to_string_N (N.of_nat (length params))
                     +:+ " argument(s) but received "
                     +:+ to_string_N (N.of_nat (length arguments)))
            else
              run bind_parameters scope params arguments;
              do returnValue <- rec_Body rec (getBody functionDefinition) scope;
              ret (match returnValue with Some v => v | None => empty_Value end))
     else if String.eqb identifier "print" then interpretPrint functionCall parent
     else if String.eqb identifier "read" then interpretRead functionCall parent
     else if String.eqb identifier "getchar" then interpretGetchar functionCall parent
     else if String.eqb identifier "clear" then interpretClear functionCall
     else if String.eqb identifier "range" then interpretRange functionCall parent
     else if String.eqb identifier "exit" then interpretExit functionCall parent
     else throw ("Undefined function '" +:+ identifier +:+ "'")).

Definition interpretStatement (statement : StatementNode) (scope : nat)
    : M (option Value) :=
  match statement with
  | SVariableBinding arg => run interpretVariableBinding arg scope; ret None
  | SForLoop arg => interpretForLoop arg scope
  | SWhile arg => interpretWhile arg scope
  | SIf arg => do r <- interpretIf arg scope; ret (fst r)
  | SFunctionCall arg => do ignored <- interpretFunctionCall arg scope; ret None
  | SReturn arg => do v <- interpretExpression arg scope; ret (Some v)
  end.

Definition interpretBody (body : BodyNode) (scope : nat) : M (option Value) :=
  first_return (fun statement => interpretStatement statement scope) body.

End Level.

(** The evaluator with [fuel] levels of nested calls available. *)
Fixpoint evaluator (fuel : nat) : Evaluator :=
  match fuel with
  | O =>
      mkEvaluator (fun _ _ => lift OutOfFuel) (fun _ _ => lift OutOfFuel)
        (fun _ _ => lift OutOfFuel) (fun _ _ => lift OutOfFuel)
        (fun _ _ _ => lift OutOfFuel)
  | S fuel' =>
      let rec := evaluator fuel' in
      mkEvaluator (interpretExpression rec) (interpretFunctionCall rec)
        (interpretBody rec) (interpretIf rec) (while_loop rec)
  end.

(** The module loader. *)
Fixpoint interpretFile (fuel : nat) (filename : string) (scope : nat) : M unit :=
  match fuel with
  | O => lift OutOfFuel
  | S fuel' =>
      do code <- readCode filename;
      do tokens <- lift (tokenize code);
      do root <- lift (RootNode_parse fuel' tokens);
      forM (fun value =>
              match value with
              | RFunctionDefinition arg => interpretFunctionDefinition arg scope
              | RUse arg => interpretUse fuel' arg scope
              | _ => ret tt
              end)
        root
  end

with interpretUse (fuel : nat) (use : UseNode) (scope : nat) : M unit :=
  match fuel with
  | O => lift OutOfFuel
  | S fuel' =>
      do v <- interpretArray (evaluator fuel') (use_value use) scope;
      let filename := valueToString v in
      fun st =>
        if existsb (String.eqb filename) (interpretedFiles st) then (Ok tt, st)
        else
          interpretFile fuel' filename scope
            (set_interpretedFiles (interpretedFiles st ++ [filename]) st)
  end.

(** The arguments handed to [main]: the count, and for every argument its
    length followed by its characters. *)
Definition commandLineArgs (args : list string) : list Z :=
  flat_map (fun arg => int_of_size_t (N.of_nat (String.length arg))
                       :: map int_of_char (list_ascii_of_string arg))
    args.

(** [void interpret(filename, argc, args)] *)
Definition interpret (fuel : nat) (filename : string) (argc : Z) (args : list string)
    : M unit :=
  do scope <- new_Scope None;
  run (fun st => (Ok tt, set_interpretedFiles [] st));
  run interpretFile fuel filename scope;
  do h <- get_scopes;
  if match lock h scope with Some s => Scope_has s "main" | None => false end then
    let mainArgs := [Expression_of_ints [argc];
                     Expression_of_ints (commandLineArgs args)] in
    try_catch
      (run interpretFunctionCall (evaluator fuel) (mkFunctionCall "main" mainArgs) scope;
       ret tt)
      (fun what =>
         run write_cerr ("Error: " +:+ what +:+ string_of_char newline);
         lift (Exit 1))
  else ret tt.

End Interpreter.

(** The state in which a run starts. *)
Definition initial_State (keys : list ascii) : State :=
  mkState [] [] EmptyString EmptyString keys [] 0.

(** [main] (main.cpp) passes [argv[1]] as the file and [argv[2..]] as the
    arguments, and returns 0 once [interpret] has returned. Between the two
    it waits while [isGuiRunning()] holds; that function belongs to the
    windowing code, which is not among the sources, and the interpreter
    embedded here opens no window: the wait is taken to end at once. *)
Definition run_program (fs : string -> option string) (fuel : nat)
    (filename : string) (args : list string) (keys : list ascii)
    : outcome unit * State :=
  interpret fs fuel filename (Z.of_nat (length args)) args (initial_State keys).

(** The exit status of the process, when it terminates by returning from
    [main] or through [exit]. *)
Definition exit_status (o : outcome unit) : option Z :=
  match o with
  | Ok _ => Some 0
  | Exit code => Some (code mod 256)
  | _ => None
  end.

(** * Specification-level notions and sample inputs *)

(** The resolution of a range bound in the words of the specification: an
    absent bound is its default, a literal bound is itself, and an
    expression bound is the single non-negative integer it evaluates to. *)
Inductive resolves (rec : Evaluator) (scope : nat) (default : N)
    : option Bound -> State -> N -> State -> Prop :=
| resolves_absent (st : State) :
    resolves rec scope default None st default st
| resolves_literal (n : N) (st : State) :
    resolves rec scope default (Some (BSize n)) st n st
| resolves_expression (e : ExpressionNode) (st st' : State) (v : Value) (x : Z) :
    rec_Expression rec e scope st = (Ok v, st') ->
    fromValue v = [x] ->
    0 <= x <= INT_MAX ->
    resolves rec scope default (Some (BExpression e)) st (Z.to_N x) st'.

(** A host without files. *)
Definition no_files : string -> option string := fun _ => None.

(** A host with one file. *)
Definition one_file (path content : string) : string -> option string :=
  fun p => if String.eqb p path then Some content else None.

Definition growable : ArrayDescriptor := mkArrayDescriptor None true.

Definition identifier_expression (name : string) : ExpressionNode :=
  mkExpression (PArray (AIdentifier name)) [].

(** [fn f(p: [+]) -> [+] { return x; }] *)
Definition sample_f : FunctionDefinitionNode :=
  mkFunctionDefinition "f" [mkFunctionParameter "p" growable] growable
    [SReturn (identifier_expression "x")].

(** The root scope defines [sample_f]; its child, the scope of a running
    function body, has the local variable [x]. *)
Definition sample_call_scopes : Scopes :=
  [mkScope (Some 0%nat) {[ "x" := BValue (mkValue (VVector [72; 105]) 2) ]};
   mkScope None {[ "f" := BFunction sample_f ]}].

Definition sample_call_state : State :=
  set_scopes sample_call_scopes (initial_State []).


(** Program texts. A string literal of the language is written with
    [quoted]. *)
Definition quoted (s : string) : string :=
  string_of_char dquote +:+ s +:+ string_of_char dquote.

(** [fn main(_: [+]) -> [+] { print("Hi"); }] *)
Definition hello_underscore : string :=
  "fn main(_: [+]) -> [+] { print(" +:+ quoted "Hi" +:+ "); }".

(** [fn main(c: [+], a: [+]) -> [+] { print("Hi"); }] *)
Definition hello_two_parameters : string :=
  "fn main(c: [+], a: [+]) -> [+] { print(" +:+ quoted "Hi" +:+ "); }".

(** [fn main(a: [+]) -> [+] { print("Hi"); }] *)
Definition hello_one_parameter : string :=
  "fn main(a: [+]) -> [+] { print(" +:+ quoted "Hi" +:+ "); }".

(** A root file that names itself: [use "a.ints"]. *)
Definition self_use : string := "use " +:+ quoted "a.ints".


(** Names never disappear from a live scope: [h'] has the scopes of [h],
    and each of them still has the names it had. *)
Definition keeps_names (h h' : Scopes) : Prop :=
  length h' = length h
  /\ forall id s, lock h id = Some s ->
       exists s', lock h' id = Some s'
                  /\ forall x, Scope_has s x = true -> Scope_has s' x = true.

(** A computation that, when it returns, has kept the names of every
    scope that was live when it started. *)
Definition preserves {A} (m : M A) : Prop :=
  forall st a st', m st = (Ok a, st') -> keeps_names (scopes st) (scopes st').

Record Evaluator_preserves (rec : Evaluator) : Prop := mkEvaluator_preserves {
  preserves_rec_Expression : forall e scope, preserves (rec_Expression rec e scope);
  preserves_rec_FunctionCall : forall c scope, preserves (rec_FunctionCall rec c scope);
  preserves_rec_Body : forall b scope, preserves (rec_Body rec b scope);
  preserves_rec_If : forall i scope, preserves (rec_If rec i scope);
  preserves_rec_while : forall c b scope, preserves (rec_while rec c b scope) }.


(** The evaluation of the initializer of a declaration: the optional value
    handed to [fromDescriptor] and the state it leaves. *)
Definition initializer_gives (rec : Evaluator) (d : VariableDeclarationNode)
    (scope : nat) (st : State) (v : option Value) (st1 : State) : Prop :=
  match decl_value d with
  | Some e => exists x, interpretExpression rec e scope st = (Ok x, st1) /\ v = Some x
  | None => st1 = st /\ v = None
  end.

(** C10 read literally: executing a declaration in a scope that already
    has the declared name leaves the value of that name unchanged. *)
Definition redeclaration_keeps_value : Prop :=
  forall (fs : string -> option string) (fuel : nat) (d : VariableDeclarationNode)
         (scope : nat) (st st' : State) (s : Scope) (b : Binding),
    lock (scopes st) scope = Some s ->
    variables s !! decl_identifier d = Some b ->
    interpretVariableDeclaration (evaluator fs fuel) d scope st = (Ok tt, st') ->
    exists s', lock (scopes st') scope = Some s'
               /\ variables s' !! decl_identifier d = Some b.

Definition call_expression (name : string) (parameters : list ExpressionNode)
    : ExpressionNode :=
  mkExpression (PArray (ACall (mkFunctionCall name parameters))) [].

(** [fn f() -> [+] { x = "B"; return "A"; }] *)
Definition assigning_f : FunctionDefinitionNode :=
  mkFunctionDefinition "f" [] growable
    [SVariableBinding (VBAssignment (mkVariableAssignment "x" (Expression_of_ints [66])));
     SReturn (Expression_of_ints [65])].

(** The root scope defines [assigning_f]; its child, the scope of a [while]
    statement after the first turn, has [x] bound to "A". *)
Definition second_turn_scopes (x : Value) : Scopes :=
  [mkScope (Some 0%nat) {[ "x" := BValue x ]};
   mkScope None {[ "f" := BFunction assigning_f ]}].

(** [let x: [+] = f()] *)
Definition let_x_f : VariableDeclarationNode :=
  mkVariableDeclaration "x" growable (Some (call_expression "f" [])).

(** [let x: [+] = [1]] *)
Definition let_x_1 : VariableDeclarationNode :=
  mkVariableDeclaration "x" growable (Some (Expression_of_ints [1])).

(** A program whose [while] body declares [x] from a call that assigns
    [x]. *)
Definition redeclaring_loop : string :=
  "fn f() -> [+] { x = " +:+ quoted "B" +:+ "; return " +:+ quoted "A" +:+ "; } "
  +:+ "fn main(c: [+], a: [+]) -> [+] { let x: [+] = " +:+ quoted "C" +:+ "; "
  +:+ "let i: [+] = [0]; "
  +:+ "while i < [2] { let x: [+] = f(); print(x); i = i + [1]; } }".

(** ** Notions used by the further properties *)

(** The relation that a comparison operator tests on a pair of elements. *)
Definition holds (type : IfCompareType) (x y : Z) : Prop :=
  match type with
  | EQ => x = y
  | NE => x <> y
  | LT => x < y
  | LE => x <= y
  | GT => x > y
  | GE => x >= y
  end.

(** The shape of the values that the interpreter builds: a fixed buffer
    holds exactly [minimum] elements, a vector at least [minimum]. *)
Definition well_formed (v : Value) : Prop :=
  match value v with
  | VVector l => (minimum v <= size_of l)%N
  | VDynamicArray d => minimum v = size_of d
  end.


(** The outcomes of a function of the frontend: a result or an exception. *)
Definition returns_or_throws {A} (o : outcome A) : Prop :=
  match o with
  | Ok _ | Throw _ => True
  | _ => False
  end.

(** A blank: white space other than the end of line. *)
Definition is_blank (c : ascii) : bool := isspace c && negb (Ascii.eqb c newline).

(** [print(name);] *)
Definition print_statement (name : string) : StatementNode :=
  SFunctionCall (mkFunctionCall "print" [identifier_expression name]).

(** The names that [interpretFunctionCall] handles itself. *)
Definition builtin_names : list string :=
  ["print"; "read"; "getchar"; "clear"; "range"; "exit"].

(** The top-level items that are statements. *)
Definition is_statement (item : RootItem) : bool :=
  match item with
  | RVariableBinding _ | RFunctionCall _ => true
  | RFunctionDefinition _ | RUse _ => false
  end.

(** [let x: [] = [1]; print(x); x = [2];] *)
Definition statements_only : string := "let x: [] = [1]; print(x); x = [2];".

(** What a computation may do to the state besides changing the scopes:
    append to the standard output, consume keys, open files and clear the
    terminal. The standard error and the list of loaded files stay. *)
Definition only_appends (st st' : State) : Prop :=
  cerr st' = cerr st
  /\ interpretedFiles st' = interpretedFiles st
  /\ (exists out, cout st' = cout st +:+ out)
  /\ (exists consumed, keys st = consumed ++ keys st')
  /\ (exists more, opened st' = opened st ++ more)
  /\ (cleared st <= cleared st')%nat.

(** A computation that, however it ends, has done no more than that. *)
Definition respects {A} (m : M A) : Prop :=
  forall st r st', m st = (r, st') -> only_appends st st'.

Record Evaluator_respects (rec : Evaluator) : Prop := mkEvaluator_respects {
  respects_rec_Expression : forall e scope, respects (rec_Expression rec e scope);
  respects_rec_FunctionCall : forall c scope, respects (rec_FunctionCall rec c scope);
  respects_rec_Body : forall b scope, respects (rec_Body rec b scope);
  respects_rec_If : forall i scope, respects (rec_If rec i scope);
  respects_rec_while : forall c b scope, respects (rec_while rec c b scope) }.




(** [ArrayDescriptor::operator std::string] (parser/parse.cpp) *)
Definition ArrayDescriptor_to_string (d : ArrayDescriptor) : string :=
  "[" +:+ match getSize d with Some n => to_string_N n | None => EmptyString end
      +:+ (if getCanGrow d then "+" else EmptyString) +:+ "]".

(** [ArrayNode::operator std::string] for a vector of integers
    (parser/parse.cpp): the elements separated by a comma and a space,
    between brackets. *)
Definition ints_to_string (ints : list Z) : string := "[" +:+ join_ints ints +:+ "]".

(** The tokens of an array literal: the literals of the elements separated
    by commas, between brackets. *)
Fixpoint literal_tokens (ints : list Z) : list Token :=
  match ints with
  | [] => []
  | [x] => [mkToken INT_LIT (to_string_Z x)]
  | x :: rest => mkToken INT_LIT (to_string_Z x) :: symbol "," :: literal_tokens rest
  end.

Definition array_tokens (ints : list Z) : list Token :=
  symbol "[" :: literal_tokens ints ++ [symbol "]"].

(** The lexer on the text [code] from column [char_num] of line
    [line_num] on, with the tokens [result] read so far. *)
Definition lex (code : list ascii) (char_num line_num : Z) (result : list Token)
    : outcome (list Token) :=
  tokenize_loop (S (length code)) code 0 char_num line_num result.

(** One step of the decimal reading of [std::stoi]. *)
Definition digit_step (acc : Z) (d : ascii) : Z := acc * 10 + (Z.of_N (code_of d) - 48).

(** A binding, a scope and the live scopes hold values of the
    interpreter's shape only. *)
Definition binding_well_formed (b : Binding) : Prop :=
  match b with BValue v => well_formed v | BFunction _ => True end.

Definition scope_well_formed (s : Scope) : Prop :=
  forall name b, variables s !! name = Some b -> binding_well_formed b.

Definition scopes_well_formed (h : Scopes) : Prop := Forall scope_well_formed h.

Definition option_well_formed (o : option Value) : Prop :=
  match o with Some v => well_formed v | None => True end.

(** A computation that, started with scopes of that kind, returns with
    scopes of that kind and a result that is [good]. *)
Definition maintains {A} (good : A -> Prop) (m : M A) : Prop :=
  forall st a st',
    scopes_well_formed (scopes st) -> m st = (Ok a, st') ->
    scopes_well_formed (scopes st') /\ good a.

Record Evaluator_maintains (rec : Evaluator) : Prop := mkEvaluator_maintains {
  maintains_rec_Expression :
    forall e scope, maintains well_formed (rec_Expression rec e scope);
  maintains_rec_FunctionCall :
    forall c scope, maintains well_formed (rec_FunctionCall rec c scope);
  maintains_rec_Body :
    forall b scope, maintains option_well_formed (rec_Body rec b scope);
  maintains_rec_If :
    forall i scope, maintains (fun r => option_well_formed (fst r)) (rec_If rec i scope);
  maintains_rec_while :
    forall c b scope, maintains option_well_formed (rec_while rec c b scope) }.

(** * Properties *)

(** ** The value model *)

Lemma size_of_eqb (a b : list Z) :
  (size_of a =? size_of b)%N = (length a =? length b)%nat.
Proof.
  unfold size_of.
  destruct (Nat.eqb_spec (length a) (length b)) as [E | E].
  - rewrite E. apply N.eqb_refl.
  - apply N.eqb_neq. lia.
Qed.

(** The comparison loop succeeds exactly when no aligned pair is bad. *)
Lemma none_bad_true (bad : Z -> Z -> bool) (a b : list Z) :
  none_bad bad a b = true <->
  forall i x y, a !! i = Some x -> b !! i = Some y -> bad x y = false.
Proof.
  revert b. induction a as [| x a IH]; intros b.
  - split; [intros _ i u v Hu | reflexivity]. destruct i; discriminate Hu.
  - destruct b as [| y b].
    + split; [intros _ i u v _ Hv | reflexivity]. destruct i; discriminate Hv.
    + simpl. destruct (bad x y) eqn:Hxy.
      * split; [discriminate |].
        intros H. specialize (H 0%nat x y eq_refl eq_refl). congruence.
      * rewrite IH. split.
        -- intros H [| i] u v Hu Hv.
           ++ simpl in Hu, Hv. congruence.
           ++ apply (H i); assumption.
        -- intros H i u v Hu Hv. apply (H (S i)); assumption.
Qed.

(** C5. For any two array values, [!=] is false when the lengths differ,
    and for equal lengths it is true if and only if every pair of
    corresponding elements differs. *)
Theorem Value_ne_all_pairs_differ (a b : Value) :
  Value_ne a b = true <->
  length (fromValue a) = length (fromValue b) /\
  forall i x y, fromValue a !! i = Some x -> fromValue b !! i = Some y -> x <> y.
Proof.
  unfold Value_ne, Value_compare, sameSize, DynamicArray_ne, DynamicArray_compare.
  rewrite size_of_eqb.
  destruct (Nat.eqb_spec (length (fromValue a)) (length (fromValue b))) as [E | E];
    simpl.
  - rewrite none_bad_true. split.
    + intros H. split; [exact E |].
      intros i x y Hx Hy. apply Z.eqb_neq. exact (H i x y Hx Hy).
    + intros [_ H] i x y Hx Hy. apply Z.eqb_neq. exact (H i x y Hx Hy).
  - split; [discriminate | intros [E' _]; contradiction].
Qed.

(** One differing pair is not enough, and two empty arrays are unequal. *)
Example Value_ne_some_pair :
  Value_ne (mkValue (VVector [1; 2]) 2) (mkValue (VVector [1; 3]) 2) = false
  /\ Value_ne (mkValue (VVector [1; 2]) 2) (mkValue (VDynamicArray [3; 4]) 2) = true
  /\ Value_ne (mkValue (VVector []) 0) (mkValue (VVector []) 0) = true
  /\ Value_ne (mkValue (VVector [1]) 1) (mkValue (VVector [2; 3]) 2) = false.
Proof. repeat split. Qed.

(** Assigning to an empty vector copies the source, whatever its storage. *)
Lemma assign_from_dynamic_nil (other : list Z) : assign_from_dynamic [] other = other.
Proof. destruct other; reflexivity. Qed.

Lemma Value_assign_empty_vector (other : Value) :
  Value_assign (mkValue (VVector []) 0) other = Ok (mkValue (VVector (fromValue other)) 0).
Proof.
  unfold Value_assign, fromValue. simpl.
  destruct (value other) as [v | d]; simpl.
  - destruct (size_of v); reflexivity.
  - destruct (minimum other); destruct d; reflexivity.
Qed.

(** What [fromDescriptor] does for a growable descriptor: the declared
    size is used for [reserve] only. *)
Lemma fromDescriptor_growable (size : option N) (v : option Value) :
  match size with Some n => (n <= max_size)%N | None => True end ->
  fromDescriptor (mkArrayDescriptor size true) v =
  Ok (mkValue (VVector (match v with Some other => fromValue other | None => [] end)) 0).
Proof.
  intros Hn. unfold fromDescriptor. simpl.
  assert (Hres : (match size with
                  | Some n => if (max_size <? n)%N then Throw "vector::reserve" else Ok tt
                  | None => Ok tt
                  end) = Ok tt).
  { destruct size as [n |]; [| reflexivity].
    destruct (N.ltb_spec max_size n); [lia | reflexivity]. }
  rewrite Hres. simpl.
  destruct v as [other |]; [apply Value_assign_empty_vector | reflexivity].
Qed.

(** C2. Constructing a value from the descriptor [2+] without an initializer
    gives an empty growable with minimum 0 (not length 2 and minimum 2), and
    with the one-element initializer [7] it succeeds with minimum 0 although
    the initializer is shorter than the declared size. *)
Theorem fromDescriptor_growable_loses_minimum :
  fromDescriptor (mkArrayDescriptor (Some 2%N) true) None
    = Ok (mkValue (VVector []) 0)
  /\ fromDescriptor (mkArrayDescriptor (Some 2%N) true) (Some (mkValue (VVector [7]) 1))
    = Ok (mkValue (VVector [7]) 0).
Proof. split; reflexivity. Qed.

(** ** Scopes *)

Lemma lock_top (s : Scope) (h : Scopes) : lock (s :: h) (length h) = Some s.
Proof. simpl. rewrite Nat.eqb_refl. reflexivity. Qed.

Lemma lock_lt (h : Scopes) (id : nat) (s : Scope) :
  lock h id = Some s -> (id < length h)%nat.
Proof.
  induction h as [| t h IH]; simpl; [discriminate |].
  destruct (Nat.eqb_spec (length h) id) as [E | E]; intros H.
  - lia.
  - specialize (IH H). lia.
Qed.

(** Lookups from the newest scope: its own variables first, then the chain
    of its parent. *)
Lemma Scope_get_top (s : Scope) (h : Scopes) (name : string) :
  Scope_get (s :: h) (length h) name =
  match variables s !! name with
  | Some b => Ok b
  | None =>
      match parent s with
      | Some p => Scope_get h p name
      | None => Throw ("Undefined variable: " +:+ name)
      end
  end.
Proof. simpl. rewrite Nat.eqb_refl. reflexivity. Qed.

Lemma Scope_hasRecursive_top (s : Scope) (h : Scopes) (name : string) :
  Scope_hasRecursive (s :: h) (length h) name =
  if Scope_has s name then true
  else match parent s with
       | Some p => Scope_hasRecursive h p name
       | None => false
       end.
Proof. simpl. rewrite Nat.eqb_refl. reflexivity. Qed.

(** Scopes below the newest one are not affected by it. *)
Lemma Scope_get_below (s : Scope) (h : Scopes) (id : nat) (name : string) :
  (id < length h)%nat -> Scope_get (s :: h) id name = Scope_get h id name.
Proof.
  intros Hlt. simpl.
  destruct (Nat.eqb_spec (length h) id); [lia | reflexivity].
Qed.

Lemma Scope_define_top (s : Scope) (h : Scopes) (name : string) (b : Binding) :
  Scope_define (s :: h) (length h) name b = emplace name b s :: h.
Proof. simpl. rewrite Nat.eqb_refl. reflexivity. Qed.

Lemma Scope_define_length (h : Scopes) (id : nat) (name : string) (b : Binding) :
  length (Scope_define h id name b) = length h.
Proof.
  induction h as [| s h IH]; simpl; [reflexivity |].
  destruct (length h =? id)%nat; simpl; [reflexivity | rewrite IH; reflexivity].
Qed.

(** [define] keeps an existing entry: defining a name that the scope
    already has changes nothing. *)
Lemma Scope_define_existing (h : Scopes) (id : nat) (s : Scope) (name : string)
    (b : Binding) :
  lock h id = Some s -> Scope_has s name = true -> Scope_define h id name b = h.
Proof.
  induction h as [| t h IH]; simpl; [discriminate |].
  destruct (length h =? id)%nat.
  - intros [= ->] Hhas. unfold emplace. rewrite Hhas. reflexivity.
  - intros Hl Hhas. rewrite (IH Hl Hhas). reflexivity.
Qed.

(** [define] on a name the scope does not have yet adds the entry. *)
Lemma Scope_define_fresh (h : Scopes) (id : nat) (s : Scope) (name : string)
    (b : Binding) :
  lock h id = Some s -> Scope_has s name = false ->
  lock (Scope_define h id name b) id
  = Some (mkScope (parent s) (<[name := b]> (variables s))).
Proof.
  induction h as [| t h IH]; simpl; [discriminate |].
  destruct (length h =? id)%nat eqn:E.
  - intros [= ->] Hhas. simpl. rewrite E. unfold emplace. rewrite Hhas. reflexivity.
  - intros Hl Hhas. simpl. rewrite Scope_define_length, E. apply IH; assumption.
Qed.

Lemma Scope_has_insert (s : Scope) (name : string) (b : Binding) :
  Scope_has (mkScope (parent s) (<[name := b]> (variables s))) name = true.
Proof. unfold Scope_has. simpl. rewrite lookup_insert_eq. reflexivity. Qed.

(** [set] succeeds exactly on the names that [hasRecursive] finds, keeps
    the number of scopes, and makes the new binding the one [get] finds. *)
Lemma Scope_set_defined (h : Scopes) (id : nat) (name : string) (b : Binding) :
  Scope_hasRecursive h id name = true ->
  exists h', Scope_set h id name b = Ok h'
             /\ length h' = length h
             /\ Scope_get h' id name = Ok b
             /\ Scope_hasRecursive h' id name = true.
Proof.
  revert id. induction h as [| s h IH]; intros id; simpl; [discriminate |].
  destruct (length h =? id)%nat eqn:E.
  - destruct (Scope_has s name) eqn:Hhas.
    + intros _. eexists. split; [reflexivity |]. simpl. rewrite E.
      rewrite lookup_insert_eq. unfold Scope_has. simpl. rewrite lookup_insert_eq.
      repeat split.
    + destruct (parent s) as [p |] eqn:Hp; [| discriminate].
      intros Hrec. destruct (IH p Hrec) as (h' & Hset & Hlen & Hget & Hhas').
      rewrite Hset. simpl. eexists. split; [reflexivity |].
      simpl. rewrite Hlen, E, Hp.
      unfold Scope_has in Hhas. destruct (variables s !! name) eqn:Hv; [discriminate |].
      unfold Scope_has. rewrite Hv. repeat split; assumption.
  - intros Hrec. destruct (IH id Hrec) as (h' & Hset & Hlen & Hget & Hhas').
    rewrite Hset. simpl. eexists. split; [reflexivity |].
    simpl. rewrite Hlen, E. repeat split; assumption.
Qed.

Lemma Scope_set_undefined (h : Scopes) (id : nat) (name : string) (b : Binding) :
  Scope_hasRecursive h id name = false ->
  Scope_set h id name b = Throw ("Undefined variable for assignment: " +:+ name).
Proof.
  revert id. induction h as [| s h IH]; intros id; simpl; [reflexivity |].
  destruct (length h =? id)%nat.
  - destruct (Scope_has s name); [discriminate |].
    destruct (parent s) as [p |]; [| reflexivity].
    intros Hrec. rewrite (IH p Hrec). reflexivity.
  - intros Hrec. rewrite (IH id Hrec). reflexivity.
Qed.

(** ** Assignment statements *)

(** An assignment to a defined name replaces the binding by the value of
    the right-hand side, with that value's own storage and minimum; the
    binding it replaces is never consulted. *)
Lemma interpretVariableAssignment_replaces (rec : Evaluator) (name : string)
    (e : ExpressionNode) (scope : nat) (st st' : State) (right : Value) :
  lock (scopes st) scope <> None ->
  Scope_hasRecursive (scopes st) scope name = true ->
  interpretExpression rec e scope st = (Ok right, st') ->
  Scope_hasRecursive (scopes st') scope name = true ->
  exists h,
    interpretVariableAssignment rec (mkVariableAssignment name e) scope st
    = (Ok tt, set_scopes h st')
    /\ value_at h scope name = Ok right.
Proof.
  intros Hlock Hrec Heval Hrec'.
  destruct (Scope_set_defined (scopes st') scope name (BValue right) Hrec')
    as (h & Hset & _ & Hget & _).
  exists h. split.
  - unfold interpretVariableAssignment, locked.
    destruct (lock (scopes st) scope); [| contradiction].
    unfold bind, get_scopes. simpl. rewrite Hrec. simpl. rewrite Heval.
    unfold lift. rewrite Hset. reflexivity.
  - unfold value_at. rewrite Hget. reflexivity.
Qed.

(** C1. The variable [g] holds the growable [1,2,3,4,5] with minimum 5;
    executing [g = [1,2]] raises no error although the minimum exceeds the
    length of the new value, and [g] ends with minimum 2. *)
Theorem assignment_bypasses_minimum (fs : string -> option string) :
  let before := mkValue (VVector [1; 2; 3; 4; 5]) 5 in
  let after := mkValue (VVector [1; 2]) 2 in
  let st := set_scopes [mkScope None {[ "g" := BValue before ]}] (initial_State []) in
  Value_assign before after
    = Throw "Cannot set value. Destination minimum is larger than the sources length"
  /\ interpretVariableAssignment (evaluator fs 0)
       (mkVariableAssignment "g" (Expression_of_ints [1; 2])) 0 st
     = (Ok tt, set_scopes [mkScope None {[ "g" := BValue after ]}] (initial_State [])).
Proof. split; reflexivity. Qed.

(** ** One more level of fuel *)

Section Unfolding.

Variable fs : string -> option string.

Lemma rec_Expression_S (fuel : nat) :
  rec_Expression (evaluator fs (S fuel)) = interpretExpression (evaluator fs fuel).
Proof. reflexivity. Qed.

Lemma rec_FunctionCall_S (fuel : nat) :
  rec_FunctionCall (evaluator fs (S fuel)) = interpretFunctionCall fs (evaluator fs fuel).
Proof. reflexivity. Qed.

Lemma rec_Body_S (fuel : nat) :
  rec_Body (evaluator fs (S fuel)) = interpretBody fs (evaluator fs fuel).
Proof. reflexivity. Qed.

Lemma rec_If_S (fuel : nat) :
  rec_If (evaluator fs (S fuel)) = interpretIf (evaluator fs fuel).
Proof. reflexivity. Qed.

Lemma rec_while_S (fuel : nat) :
  rec_while (evaluator fs (S fuel)) = while_loop (evaluator fs fuel).
Proof. reflexivity. Qed.

End Unfolding.

(** ** Function calls *)

(** Binding the parameters touches the callee's scope only, and only the
    names of the parameters. *)
Lemma bind_parameters_top (params : list FunctionParameterNode) :
  forall (arguments : list Value) (s : Scope) (h : Scopes) (st st2 : State),
    scopes st = s :: h ->
    bind_parameters (length h) params arguments st = (Ok tt, st2) ->
    exists vars,
      scopes st2 = mkScope (parent s) vars :: h
      /\ forall x, x ∉ map param_identifier params -> vars !! x = variables s !! x.
Proof.
  induction params as [| param params IH]; intros arguments s h st st2 Hst.
  - simpl. intros [= <-]. exists (variables s). rewrite Hst.
    destruct s; split; reflexivity.
  - destruct arguments as [| argument arguments]; simpl.
    + intros [= <-]. exists (variables s). rewrite Hst.
      destruct s; split; reflexivity.
    + unfold bind, lift at 1.
      destruct (fromDescriptor (param_descriptor param) (Some argument)) as [v | | | | |];
        try discriminate.
      unfold define at 1. rewrite Hst, Scope_define_top.
      intros Hrest.
      apply IH with (s := emplace (param_identifier param) (BValue v) s) in Hrest;
        [| reflexivity].
      destruct Hrest as (vars & Hscopes & Hvars).
      exists vars. split.
      * rewrite Hscopes. unfold emplace. destruct (Scope_has s _); reflexivity.
      * intros x Hx. rewrite Hvars.
        -- unfold emplace. destruct (Scope_has s _); [reflexivity |]. simpl.
           apply lookup_insert_ne. intros E. apply Hx.
           apply elem_of_cons. left. symmetry. exact E.
        -- intros Hin. apply Hx. apply elem_of_cons. right. exact Hin.
Qed.

(** C3. In a call of a user-defined function the parameters are bound and
    the body is evaluated in a fresh scope whose parent is the scope of the
    call site; an identifier that is not a parameter resolves in it exactly
    as it does at the call site. *)
Theorem callee_scope_is_child_of_call_site (fs : string -> option string)
    (rec : Evaluator) (identifier : string) (parameters : list ExpressionNode)
    (caller : nat) (st st1 st2 : State) (arguments : list Value)
    (fd0 fd : FunctionDefinitionNode) :
  lock (scopes st) caller <> None ->
  Scope_hasRecursive (scopes st) caller identifier = true ->
  function_at (scopes st) caller identifier = Ok fd0 ->
  interpretParameters rec parameters caller st = (Ok arguments, st1) ->
  function_at (scopes st1) caller identifier = Ok fd ->
  length (getParams fd) = length arguments ->
  let callee := length (scopes st1) in
  bind_parameters callee (getParams fd) arguments
    (set_scopes (mkScope (Some caller) ∅ :: scopes st1) st1) = (Ok tt, st2) ->
  interpretFunctionCall fs rec (mkFunctionCall identifier parameters) caller st
  = (do result <-
       (do returnValue <- rec_Body rec (getBody fd) callee;
        ret (match returnValue with Some v => v | None => empty_Value end));
     run release_Scope;
     ret result) st2
  /\ (exists s, lock (scopes st2) callee = Some s /\ parent s = Some caller)
  /\ (forall x, x ∉ map param_identifier (getParams fd) ->
        Scope_get (scopes st2) callee x = Scope_get (scopes st1) caller x
        /\ Scope_hasRecursive (scopes st2) callee x
           = Scope_hasRecursive (scopes st1) caller x).
Proof.
  intros Hlock Hrec Hfd0 Hargs Hfd Hlen callee Hbind.
  destruct (bind_parameters_top (getParams fd) arguments (mkScope (Some caller) ∅)
              (scopes st1)
              (set_scopes (mkScope (Some caller) ∅ :: scopes st1) st1) st2
              eq_refl Hbind) as (vars & Hscopes & Hvars).
  simpl in Hscopes.
  split; [| split].
  - unfold interpretFunctionCall, locked.
    destruct (lock (scopes st) caller); [| contradiction].
    unfold bind at 1, get_scopes at 1. rewrite Hrec.
    unfold bind at 1, lift at 1. rewrite Hfd0.
    unfold bind at 1. rewrite Hargs.
    unfold bind at 1, get_scopes at 1.
    unfold bind at 1, lift at 1. rewrite Hfd.
    unfold with_Scope. unfold bind at 1, new_Scope at 1.
    rewrite Hlen, Nat.eqb_refl. change (negb true) with false. cbv beta iota.
    unfold bind at 1 2. cbv beta. fold callee. rewrite Hbind. reflexivity.
  - exists (mkScope (Some caller) vars). rewrite Hscopes. split; [| reflexivity].
    apply lock_top.
  - intros x Hx. rewrite Hscopes. unfold callee.
    rewrite Scope_get_top, Scope_hasRecursive_top. unfold Scope_has. simpl.
    rewrite (Hvars x Hx). simpl. rewrite lookup_empty. split; reflexivity.
Qed.

(** The theorem applied to the call [f([7])] made from a function body
    whose scope has the local variable [x]. *)
Lemma callee_scope_witness :
  let rec := evaluator no_files 2 in
  let st := sample_call_state in
  let arguments := [mkValue (VVector [7]) 1] in
  let st2 :=
    set_scopes (mkScope (Some 1%nat) {[ "p" := BValue (mkValue (VVector [7]) 0) ]}
                :: sample_call_scopes) st in
  (lock (scopes st) 1 <> None
   /\ Scope_hasRecursive (scopes st) 1 "f" = true
   /\ function_at (scopes st) 1 "f" = Ok sample_f
   /\ interpretParameters rec [Expression_of_ints [7]] 1 st = (Ok arguments, st)
   /\ length (getParams sample_f) = length arguments
   /\ bind_parameters 2 (getParams sample_f) arguments
        (set_scopes (mkScope (Some 1%nat) ∅ :: scopes st) st) = (Ok tt, st2))
  /\ (interpretFunctionCall no_files rec (mkFunctionCall "f" [Expression_of_ints [7]]) 1 st
      = (do result <-
           (do returnValue <- rec_Body rec (getBody sample_f) 2;
            ret (match returnValue with Some v => v | None => empty_Value end));
         run release_Scope;
         ret result) st2
      /\ (exists s, lock (scopes st2) 2 = Some s /\ parent s = Some 1%nat)
      /\ (forall x, x ∉ map param_identifier (getParams sample_f) ->
            Scope_get (scopes st2) 2 x = Scope_get (scopes st) 1 x
            /\ Scope_hasRecursive (scopes st2) 2 x = Scope_hasRecursive (scopes st) 1 x)).
Proof.
  intros rec st arguments st2.
  assert (H1 : lock (scopes st) 1 <> None) by (vm_compute; discriminate).
  assert (H2 : Scope_hasRecursive (scopes st) 1 "f" = true) by reflexivity.
  assert (H3 : function_at (scopes st) 1 "f" = Ok sample_f) by reflexivity.
  assert (H4 : interpretParameters rec [Expression_of_ints [7]] 1 st = (Ok arguments, st))
    by reflexivity.
  assert (H5 : length (getParams sample_f) = length arguments) by reflexivity.
  assert (H6 : bind_parameters 2 (getParams sample_f) arguments
                 (set_scopes (mkScope (Some 1%nat) ∅ :: scopes st) st) = (Ok tt, st2))
    by reflexivity.
  split; [repeat split; assumption |].
  exact (callee_scope_is_child_of_call_site no_files rec "f" [Expression_of_ints [7]]
           1 st st st2 arguments sample_f sample_f H1 H2 H3 H4 H3 H5 H6).
Defined.

(** The body of [f] reads the local variable [x] of its caller. *)
Example callee_reads_local_of_caller :
  interpretFunctionCall no_files (evaluator no_files 2)
    (mkFunctionCall "f" [Expression_of_ints [7]]) 1 sample_call_state
  = (Ok (mkValue (VVector [72; 105]) 2), sample_call_state).
Proof. reflexivity. Qed.

(** ** Range postfix *)

Lemma to_size_t_int (x : Z) : 0 <= x <= INT_MAX -> to_size_t x = Z.to_N x.
Proof.
  intros [Hlo Hhi]. unfold to_size_t, INT_MAX in *.
  rewrite Z.mod_small; [reflexivity |]. lia.
Qed.

(** The evaluator resolves a bound as the specification says. *)
Lemma resolves_sound (rec : Evaluator) (scope : nat) (default : N)
    (b : option Bound) (st st' : State) (n : N) :
  resolves rec scope default b st n st' ->
  interpretArrayRangeBound rec
    (match b with Some x => x | None => BSize default end) scope st = (Ok n, st').
Proof.
  intros [st0 | m st0 | e st0 st0' v x Heval Hv Hx]; simpl; try reflexivity.
  unfold bind. rewrite Heval, Hv.
  destruct (Z.ltb_spec x 0) as [Hneg | _]; [lia |].
  unfold ret. rewrite (to_size_t_int x Hx). reflexivity.
Qed.

(** C4. For an array [a] of length [L] and resolved bounds [start] and
    [finish], the range postfix raises an error when [finish < start] or
    [finish > L], and otherwise yields a new array of length
    [finish - start] whose element [i] is the element [start + i] of [a]; in
    particular [a[0:L]] has the elements of [a]. An expression bound that
    evaluates to a single negative integer, or not to a single integer,
    raises an error. *)
Theorem range_postfix_slices (rec : Evaluator) (s e : option Bound) (a : Value)
    (scope : nat) (st st1 st2 : State) (start finish : N) :
  let L := Value_getSize a in
  (L <= max_size)%N ->
  resolves rec scope 0 s st start st1 ->
  resolves rec scope L e st1 finish st2 ->
  ((finish < start \/ L < finish)%N ->
     exists what,
       interpretArrayRange rec (mkArrayRange s e) a scope st = (Throw what, st2))
  /\ ((start <= finish /\ finish <= L)%N ->
        exists d,
          interpretArrayRange rec (mkArrayRange s e) a scope st
          = (Ok (mkValue (VDynamicArray d) (finish - start)), st2)
          /\ length d = N.to_nat (finish - start)
          /\ (forall i, (i < N.to_nat (finish - start))%nat ->
                d !! i = fromValue a !! (N.to_nat start + i)%nat)
          /\ (start = 0%N -> finish = L -> d = fromValue a))
  /\ (forall (e0 : ExpressionNode) (v : Value) (st0 st0' : State),
        rec_Expression rec e0 scope st0 = (Ok v, st0') ->
        (forall x, fromValue v = [x] -> x < 0) ->
        exists what,
          interpretArrayRangeBound rec (BExpression e0) scope st0 = (Throw what, st0')).
Proof.
  intros L HL Hs He.
  apply resolves_sound in Hs. apply resolves_sound in He.
  assert (Hrun : interpretArrayRange rec (mkArrayRange s e) a scope st
                 = (slice a start finish, st2)).
  { unfold interpretArrayRange. fold L. unfold bind. rewrite Hs, He. reflexivity. }
  rewrite Hrun. unfold slice. fold L.
  split; [| split].
  - intros Hbad.
    destruct (N.ltb_spec finish start) as [Hlt | Hge]; [eexists; reflexivity |].
    unfold DynamicArray_new.
    destruct (N.ltb_spec max_size (finish - start)); simpl; [eexists; reflexivity |].
    destruct (N.ltb_spec L finish); [eexists; reflexivity | lia].
  - intros [Hle HleL].
    destruct (N.ltb_spec finish start) as [Hlt | _]; [lia |].
    unfold DynamicArray_new.
    destruct (N.ltb_spec max_size (finish - start)) as [Hbig | _]; [lia |]. simpl.
    destruct (N.ltb_spec L finish) as [Hlt | _]; [lia |].
    eexists. split; [reflexivity |].
    assert (Hlen : length (fromValue a) = N.to_nat L).
    { unfold L, Value_getSize, size_of. lia. }
    split; [| split].
    + rewrite length_take, length_drop. lia.
    + intros i Hi. rewrite lookup_take_lt by exact Hi. apply lookup_drop.
    + intros -> ->. rewrite N.sub_0_r. simpl. rewrite drop_0.
      apply take_ge. lia.
  - intros e0 v st0 st0' Heval Hbad. simpl. unfold bind. rewrite Heval.
    destruct (fromValue v) as [| x [| y rest]] eqn:Hv; try (eexists; reflexivity).
    specialize (Hbad x eq_refl).
    destruct (Z.ltb_spec x 0); [eexists; reflexivity | lia].
Qed.

(** The theorem applied to [a[1:4]] for [a = [1,2,3,4,5]], with a literal
    lower bound and an expression upper bound. *)
Lemma range_postfix_witness :
  let rec := evaluator no_files 1 in
  let a := mkValue (VDynamicArray [1; 2; 3; 4; 5]) 5 in
  let s := Some (BSize 1) in
  let e := Some (BExpression (Expression_of_ints [4])) in
  let st := initial_State [] in
  let st' := set_scopes [mkScope None ∅] st in
  ((Value_getSize a <= max_size)%N
   /\ resolves rec 0 0 s st' 1 st'
   /\ resolves rec 0 (Value_getSize a) e st' 4 st')
  /\ exists d,
       interpretArrayRange rec (mkArrayRange s e) a 0 st'
       = (Ok (mkValue (VDynamicArray d) (4 - 1)), st')
       /\ length d = N.to_nat (4 - 1)
       /\ (forall i, (i < N.to_nat (4 - 1))%nat ->
             d !! i = fromValue a !! (N.to_nat 1 + i)%nat)
       /\ (1%N = 0%N -> 4%N = Value_getSize a -> d = fromValue a).
Proof.
  intros rec a s e st st'.
  assert (H1 : (Value_getSize a <= max_size)%N) by (vm_compute; discriminate).
  assert (H2 : resolves rec 0 0 s st' 1 st') by constructor.
  assert (H3 : resolves rec 0 (Value_getSize a) e st' 4 st').
  { apply (resolves_expression rec 0 (Value_getSize a) (Expression_of_ints [4]) st' st'
             (mkValue (VVector [4]) 1) 4); [reflexivity | reflexivity |].
    unfold INT_MAX. lia. }
  split; [repeat split; assumption |].
  apply (range_postfix_slices rec s e a 0 st' st' st' 1 4 H1 H2 H3).
  split; [lia | vm_compute; discriminate].
Defined.

(** ** The built-in [range] and the method [size] *)

Lemma wrap_int_small (z : Z) : INT_MIN <= z <= INT_MAX -> wrap_int z = z.
Proof.
  unfold wrap_int, INT_MIN, INT_MAX. intros H.
  rewrite Z.mod_small; lia.
Qed.

Lemma int_of_size_t_small (n : N) : Z.of_N n <= INT_MAX -> int_of_size_t n = Z.of_N n.
Proof.
  intros H. unfold int_of_size_t. apply wrap_int_small.
  unfold INT_MIN. lia.
Qed.

(** The counting loop of [interpretRange] writes [0, 1, ..., n-1]. *)
Lemma range_loop (n : nat) :
  Z.of_nat n <= INT_MAX + 1 ->
  map (fun i => int_of_size_t (N.of_nat i)) (seq 0 n) = map Z.of_nat (seq 0 n).
Proof.
  intros Hn. apply map_ext_in. intros i Hi. apply in_seq in Hi.
  rewrite int_of_size_t_small; lia.
Qed.

Lemma range_of_single (n : Z) :
  0 <= n <= INT_MAX ->
  range_of [n] = Ok (mkValue (VDynamicArray (map Z.of_nat (seq 0 (Z.to_nat n)))) (Z.to_N n)).
Proof.
  intros Hn. unfold range_of.
  destruct (Z.ltb_spec n 0); [lia |].
  rewrite range_loop by lia.
  unfold size_of. rewrite length_map, length_seq.
  replace (N.of_nat (Z.to_nat n)) with (Z.to_N n) by lia. reflexivity.
Qed.

(** C8. For every non-negative [n], the built-in [range] applied to an
    argument that evaluates to the one-element array [n] yields the array
    [0, 1, ..., n-1] of length [n], and the expression [range(e).size()]
    yields the one-element array [n]. *)
Theorem range_size (fs : string -> option string) (fuel : nat) (e : ExpressionNode)
    (scope : nat) (st st' : State) (v : Value) (n : Z) :
  lock (scopes st) scope <> None ->
  Scope_hasRecursive (scopes st) scope "range" = false ->
  interpretExpression (evaluator fs fuel) e scope st = (Ok v, st') ->
  fromValue v = [n] ->
  0 <= n <= INT_MAX ->
  let call := mkFunctionCall "range" [e] in
  let r := mkValue (VDynamicArray (map Z.of_nat (seq 0 (Z.to_nat n)))) (Z.to_N n) in
  interpretFunctionCall fs (evaluator fs fuel) call scope st = (Ok r, st')
  /\ length (fromValue r) = Z.to_nat n
  /\ (forall i, (i < Z.to_nat n)%nat -> fromValue r !! i = Some (Z.of_nat i))
  /\ interpretExpression (evaluator fs (S fuel))
       (mkExpression (PArray (ACall call)) [PMethod (mkMethod "size" [])]) scope st
     = (Ok (mkValue (VDynamicArray [n]) 1), st').
Proof.
  intros Hlock Hrange Heval Hv Hn call r.
  assert (Hcall : interpretFunctionCall fs (evaluator fs fuel) call scope st = (Ok r, st')).
  { unfold interpretFunctionCall, call, locked.
    destruct (lock (scopes st) scope); [| contradiction].
    unfold bind at 1, get_scopes at 1. rewrite Hrange. simpl.
    unfold bind. rewrite Heval. unfold lift. rewrite Hv.
    rewrite (range_of_single n Hn). reflexivity. }
  split; [exact Hcall |]. split; [| split].
  - unfold r, fromValue. simpl. rewrite length_map, length_seq. reflexivity.
  - intros i Hi. unfold r, fromValue. simpl.
    rewrite list_lookup_fmap, lookup_seq_lt by exact Hi. reflexivity.
  - destruct (lock (scopes st) scope) as [s |] eqn:Hs; [| contradiction].
    unfold interpretExpression, interpretArray, locked.
    unfold bind at 1. rewrite Hs, rec_FunctionCall_S, Hcall.
    unfold applyPostfix, foldM, applyMethod, interpretParameters, mapM.
    unfold bind, ret, lift. simpl.
    unfold Value_getSize, r, fromValue. simpl.
    unfold size_of. rewrite length_map, length_seq.
    rewrite int_of_size_t_small by lia.
    replace (Z.of_N (N.of_nat (Z.to_nat n))) with n by lia. reflexivity.
Qed.

(** The theorem applied to [range([4]).size()]. *)
Lemma range_size_witness :
  let st := set_scopes [mkScope None ∅] (initial_State []) in
  let e := Expression_of_ints [4] in
  (lock (scopes st) 0 <> None
   /\ Scope_hasRecursive (scopes st) 0 "range" = false
   /\ interpretExpression (evaluator no_files 0) e 0 st = (Ok (mkValue (VVector [4]) 1), st)
   /\ 0 <= 4 <= INT_MAX)
  /\ interpretExpression (evaluator no_files 1)
       (mkExpression (PArray (ACall (mkFunctionCall "range" [e])))
          [PMethod (mkMethod "size" [])]) 0 st
     = (Ok (mkValue (VDynamicArray [4]) 1), st).
Proof.
  intros st e.
  assert (H1 : lock (scopes st) 0 <> None) by (vm_compute; discriminate).
  assert (H2 : Scope_hasRecursive (scopes st) 0 "range" = false) by reflexivity.
  assert (H3 : interpretExpression (evaluator no_files 0) e 0 st
               = (Ok (mkValue (VVector [4]) 1), st)) by reflexivity.
  assert (H4 : 0 <= 4 <= INT_MAX) by (unfold INT_MAX; lia).
  split; [repeat split; try assumption; apply H4 |].
  apply (range_size no_files 0 e 0 st st (mkValue (VVector [4]) 1) 4 H1 H2 H3 eq_refl H4).
Defined.

(** ** The lexer *)

Lemma collect_first (predicate : ascii -> bool) (c : ascii) (rest : list ascii) :
  predicate c = true -> collect predicate (c :: rest) = c :: collect predicate rest.
Proof. intros H. simpl. rewrite H. reflexivity. Qed.

Lemma drop_lookup_cons (code : list ascii) (i : nat) (c : ascii) :
  code !! i = Some c -> drop i code = c :: drop (S i) code.
Proof.
  revert i. induction code as [| x code IH]; intros [| i]; simpl; try discriminate.
  - intros [= ->]. rewrite drop_0. reflexivity.
  - intros H. apply IH. exact H.
Qed.

(** C9 (as the lexer does it). A [-] immediately followed by a digit always
    begins an IntLit token, whatever the byte before it: the token takes the
    [-] and the digits that follow. A [-] that is not followed by a digit is
    emitted as a Symbol token. Lexing [x-1] yields Identifier [x], IntLit
    [-1]. *)
Theorem minus_before_digit_begins_literal :
  (forall (fuel : nat) (code : list ascii) (i : nat) (char_num line_num : Z)
          (result : list Token) (d : ascii),
      code !! i = Some "-"%char ->
      code !! S i = Some d ->
      isdigit d = true ->
      let digits := collect isdigit (drop (S i) code) in
      tokenize_loop (S fuel) code i char_num line_num result
      = tokenize_loop fuel code (S i + length digits) (char_num + Z.of_nat (length digits))
          line_num
          (result ++ [mkToken INT_LIT (String "-" (string_of_list_ascii digits))]))
  /\ (forall (fuel : nat) (code : list ascii) (i : nat) (char_num line_num : Z)
             (result : list Token),
         code !! i = Some "-"%char ->
         match code !! S i with Some d => isdigit d | None => false end = false ->
         tokenize_loop (S fuel) code i char_num line_num result
         = tokenize_loop fuel code (S i) (char_num + 1) line_num
             (result ++ [mkToken SYMBOL "-"]))
  /\ tokenize "x-1" = Ok [mkToken IDENTIFIER "x"; mkToken INT_LIT "-1"].
Proof.
  split; [| split].
  - intros fuel code i char_num line_num result d Hi HSi Hd digits.
    assert (Hdigits : digits = d :: collect isdigit (drop (S (S i)) code)).
    { unfold digits. rewrite (drop_lookup_cons code (S i) d HSi).
      apply collect_first. exact Hd. }
    simpl tokenize_loop. rewrite Hi.
    change (isalpha "-"%char) with false. change (isdigit "-"%char) with false.
    change (("-" =? "-")%char) with true. rewrite HSi, Hd.
    cbn [orb andb]. unfold collectWhile. fold digits.
    rewrite Hdigits. cbn [length].
    f_equal; try lia.
  - intros fuel code i char_num line_num result Hi HSi.
    simpl tokenize_loop. rewrite Hi.
    change (isalpha "-"%char) with false. change (isdigit "-"%char) with false.
    change (("-" =? "-")%char) with true. rewrite HSi.
    reflexivity.
  - reflexivity.
Qed.

(** The first part of the theorem at the [-] of [x-1]. *)
Lemma minus_before_digit_witness :
  let code := list_ascii_of_string "x-1" in
  (code !! 1%nat = Some "-"%char /\ code !! 2%nat = Some "1"%char
   /\ isdigit "1"%char = true)
  /\ tokenize_loop 3 code 1 2 1 [mkToken IDENTIFIER "x"]
     = tokenize_loop 2 code 3 3 1 [mkToken IDENTIFIER "x"; mkToken INT_LIT "-1"].
Proof.
  intros code. split; [repeat split |].
  exact (proj1 minus_before_digit_begins_literal 2%nat code 1%nat 2 1
           [mkToken IDENTIFIER "x"] "1"%char eq_refl eq_refl eq_refl).
Defined.

(** C9 as stated fails on [x-1]: the lexer does not look at the byte before
    the [-] and produces no Symbol token. *)
Lemma minus_after_identifier_is_not_a_symbol :
  tokenize "x-1" <> Ok [mkToken IDENTIFIER "x"; mkToken SYMBOL "-"; mkToken INT_LIT "1"].
Proof. vm_compute. discriminate. Qed.

(** ** Running a program *)

Lemma readCode_found (fs : string -> option string) (path content : string) (st : State) :
  fs path = Some content ->
  readCode fs path st = (Ok content, set_opened (opened st ++ [path]) st).
Proof. intros H. unfold readCode. rewrite H. reflexivity. Qed.

Lemma interpretFile_found (fs : string -> option string) (fuel : nat)
    (path content : string) (scope : nat) (st : State) :
  fs path = Some content ->
  interpretFile fs (S fuel) path scope st
  = (do tokens <- lift (tokenize content);
     do root <- lift (RootNode_parse fuel tokens);
     forM (fun value =>
             match value with
             | RFunctionDefinition arg => interpretFunctionDefinition arg scope
             | RUse arg => interpretUse fs fuel arg scope
             | _ => ret tt
             end)
       root) (set_opened (opened st ++ [path]) st).
Proof.
  intros H. simpl. unfold bind at 1. rewrite (readCode_found fs path content st H).
  reflexivity.
Qed.

(** C6 (as the code runs it). The program
    [fn main(c: [+], a: [+]) -> [+] { print("Hi"); }], run with no
    command-line arguments, writes [Hi] to the standard output and nothing
    to the standard error, and the process exits with status 0. Ten levels of
    fuel are enough. *)
Theorem hello_with_two_parameters_prints_Hi (fs : string -> option string)
    (path : string) (keys : list ascii) (fuel : nat) :
  fs path = Some hello_two_parameters ->
  (10 <= fuel)%nat ->
  exists st,
    run_program fs fuel path [] keys = (Ok tt, st)
    /\ cout st = "Hi" /\ cerr st = EmptyString
    /\ exit_status (fst (run_program fs fuel path [] keys)) = Some 0.
Proof.
  intros Hfs Hfuel.
  assert (Hrun : exists st,
             run_program fs fuel path [] keys = (Ok tt, st)
             /\ cout st = "Hi" /\ cerr st = EmptyString).
  { replace fuel with (S (9 + (fuel - 10)))%nat by lia.
    generalize (fuel - 10)%nat. intros n.
    unfold run_program, interpret.
    unfold bind at 1. unfold new_Scope at 1. cbv beta iota.
    unfold bind at 1. cbv beta iota. unfold bind at 1.
    rewrite (interpretFile_found fs _ path hello_two_parameters _ _ Hfs).
    vm_compute.
    eexists. split; [reflexivity |]. split; reflexivity. }
  destruct Hrun as (st & Hrun & Hout & Herr).
  exists st. rewrite Hrun. repeat split; assumption.
Qed.

(** The theorem on a host whose only file is the program. *)
Lemma hello_with_two_parameters_witness :
  (one_file "main.ints" hello_two_parameters "main.ints" = Some hello_two_parameters
   /\ (10 <= 10)%nat)
  /\ exists st,
       run_program (one_file "main.ints" hello_two_parameters) 10 "main.ints" [] []
       = (Ok tt, st)
       /\ cout st = "Hi" /\ cerr st = EmptyString
       /\ exit_status
            (fst (run_program (one_file "main.ints" hello_two_parameters) 10
                    "main.ints" [] [])) = Some 0.
Proof.
  split; [split; [reflexivity | lia] |].
  exact (hello_with_two_parameters_prints_Hi
           (one_file "main.ints" hello_two_parameters) "main.ints" [] 10%nat
           eq_refl (le_n 10)).
Defined.

(** C6 as stated fails. The lexer rejects the [_] of
    [fn main(_: [+]) -> [+] { print("Hi"); }]: whatever the fuel, the run
    does not write [Hi] and exit with status 0 (the exception leaves
    [interpret] before anything is printed). With a letter for the [_] the
    program lexes and parses, but [main] is called with two arguments and
    has one parameter: the run prints nothing and exits with status 1. *)
Lemma hello_with_one_parameter_fails :
  (forall (fuel : nat) (keys : list ascii),
     let r := run_program (one_file "main.ints" hello_underscore) fuel "main.ints" [] keys in
     ~ (cout (snd r) = "Hi" /\ exit_status (fst r) = Some 0))
  /\ (let r := run_program (one_file "main.ints" hello_underscore) 10 "main.ints" [] [] in
      fst r = Throw "Unexpected character '_' at line 1, char 7"
      /\ cout (snd r) = EmptyString)
  /\ (let r := run_program (one_file "main.ints" hello_one_parameter) 10 "main.ints" [] [] in
      fst r = Exit 1
      /\ cout (snd r) = EmptyString
      /\ cerr (snd r)
         = "Error: Function main expected 1 argument(s) but received 2"
           +:+ string_of_char newline).
Proof.
  split; [| split].
  - intros [| fuel] keys; vm_compute; intros [H _]; discriminate H.
  - vm_compute. split; reflexivity.
  - vm_compute. repeat split.
Qed.

(** ** The module loader *)

(** A [use] directive naming a recorded file leaves the state as it is. *)
Lemma interpretUse_recorded (fs : string -> option string) (fuel : nat)
    (ints : list Z) (type : UseType) (scope : nat) (st : State) :
  lock (scopes st) scope <> None ->
  existsb (String.eqb (valueToString (mkValue (VVector ints) (size_of ints))))
    (interpretedFiles st) = true ->
  interpretUse fs (S fuel) (mkUse (AInts ints) type) scope st = (Ok tt, st).
Proof.
  intros Hlock Hin. simpl. unfold bind, interpretArray, locked.
  destruct (lock (scopes st) scope); [| contradiction].
  simpl. rewrite Hin. reflexivity.
Qed.

(** A [use] directive naming a file that is not recorded records it and
    loads it. *)
Lemma interpretUse_fresh (fs : string -> option string) (fuel : nat)
    (ints : list Z) (type : UseType) (scope : nat) (st : State) :
  lock (scopes st) scope <> None ->
  let filename := valueToString (mkValue (VVector ints) (size_of ints)) in
  existsb (String.eqb filename) (interpretedFiles st) = false ->
  interpretUse fs (S fuel) (mkUse (AInts ints) type) scope st
  = interpretFile fs fuel filename scope
      (set_interpretedFiles (interpretedFiles st ++ [filename]) st).
Proof.
  intros Hlock filename Hin. simpl. unfold bind, interpretArray, locked.
  destruct (lock (scopes st) scope); [| contradiction].
  simpl. fold filename. rewrite Hin. reflexivity.
Qed.

(** C7. The root file [a.ints] consists of the directive [use "a.ints"].
    The run reads [a.ints] twice: [interpret] loads the root file without
    recording it, so the directive finds no record of [a.ints] and loads it
    again. Five levels of fuel are enough. *)
Theorem root_file_is_loaded_twice (fuel : nat) (keys : list ascii) :
  (5 <= fuel)%nat ->
  let r := run_program (one_file "a.ints" self_use) fuel "a.ints" [] keys in
  fst r = Ok tt
  /\ opened (snd r) = ["a.ints"; "a.ints"]
  /\ interpretedFiles (snd r) = ["a.ints"].
Proof.
  intros Hfuel.
  replace fuel with (5 + (fuel - 5))%nat by lia.
  generalize (fuel - 5)%nat. intros n.
  vm_compute. repeat split.
Qed.

(** The theorem with five levels of fuel. *)
Lemma root_file_is_loaded_twice_witness :
  (5 <= 5)%nat
  /\ opened (snd (run_program (one_file "a.ints" self_use) 5 "a.ints" [] []))
     = ["a.ints"; "a.ints"].
Proof.
  split; [lia |].
  pose proof (root_file_is_loaded_twice 5 [] (le_n 5)) as H.
  cbv zeta in H. destruct H as [_ [H _]]. exact H.
Defined.

(** ** Scopes keep their names *)

Lemma keeps_names_refl (h : Scopes) : keeps_names h h.
Proof. split; [reflexivity |]. intros id s Hs. exists s. auto. Qed.

Lemma keeps_names_trans (h1 h2 h3 : Scopes) :
  keeps_names h1 h2 -> keeps_names h2 h3 -> keeps_names h1 h3.
Proof.
  intros [L12 N12] [L23 N23]. split; [congruence |].
  intros id s Hs.
  destruct (N12 id s Hs) as (s2 & Hs2 & H2).
  destruct (N23 id s2 Hs2) as (s3 & Hs3 & H3).
  exists s3. auto.
Qed.

Lemma Scope_has_emplace (name : string) (b : Binding) (s : Scope) (x : string) :
  Scope_has s x = true -> Scope_has (emplace name b s) x = true.
Proof.
  unfold emplace. destruct (Scope_has s name) eqn:E; [auto |].
  unfold Scope_has. simpl. intros H.
  destruct (decide (name = x)) as [-> | Hne].
  - rewrite lookup_insert_eq. reflexivity.
  - rewrite lookup_insert_ne by exact Hne. exact H.
Qed.

Lemma keeps_names_define (h : Scopes) (id : nat) (name : string) (b : Binding) :
  keeps_names h (Scope_define h id name b).
Proof.
  split; [apply Scope_define_length |].
  induction h as [| t h IH]; intros i s; simpl; [discriminate |].
  destruct (length h =? id)%nat eqn:E; simpl.
  - destruct (length h =? i)%nat.
    + intros [= <-]. eexists. split; [reflexivity |]. apply Scope_has_emplace.
    + intros Hs. exists s. auto.
  - rewrite Scope_define_length. destruct (length h =? i)%nat.
    + intros [= <-]. exists t. auto.
    + apply IH.
Qed.

Lemma keeps_names_set (h h' : Scopes) (id : nat) (name : string) (b : Binding) :
  Scope_set h id name b = Ok h' -> keeps_names h h'.
Proof.
  revert id h'. induction h as [| t h IH]; intros id h'; simpl; [discriminate |].
  assert (Hcons : forall t' below',
             keeps_names h below' ->
             (forall x, Scope_has t x = true -> Scope_has t' x = true) ->
             keeps_names (t :: h) (t' :: below')).
  { intros t' below' [Hlen Hnames] Ht. split; [simpl; congruence |].
    intros i s. simpl. rewrite Hlen. destruct (length h =? i)%nat.
    - intros [= <-]. exists t'. auto.
    - apply Hnames. }
  destruct (length h =? id)%nat.
  - destruct (Scope_has t name) eqn:Hhas.
    + intros [= <-]. apply Hcons; [apply keeps_names_refl |].
      intros x Hx. unfold Scope_has in *. simpl.
      destruct (decide (name = x)) as [-> | Hne].
      * rewrite lookup_insert_eq. reflexivity.
      * rewrite lookup_insert_ne by exact Hne. exact Hx.
    + destruct (parent t) as [p |]; [| discriminate].
      destruct (Scope_set h p name b) as [below' | | | | |] eqn:Hset; try discriminate.
      intros [= <-]. apply Hcons; [apply (IH p), Hset | auto].
  - destruct (Scope_set h id name b) as [below' | | | | |] eqn:Hset; try discriminate.
    intros [= <-]. apply Hcons; [apply (IH id), Hset | auto].
Qed.

(** Leaving a block: what held with the block's scope on top holds for the
    scopes below it. *)
Lemma keeps_names_pop (s : Scope) (h h2 : Scopes) :
  keeps_names (s :: h) h2 -> keeps_names h (tail h2).
Proof.
  intros [Hlen Hnames]. destruct h2 as [| s2 t2]; [discriminate |].
  simpl in Hlen. injection Hlen as Hlen. split; [exact Hlen |].
  intros id s0 Hs0. pose proof (lock_lt h id s0 Hs0) as Hlt.
  destruct (Hnames id s0) as (s' & Hs' & Hx).
  - simpl. destruct (Nat.eqb_spec (length h) id); [lia | exact Hs0].
  - exists s'. split; [| exact Hx]. simpl in Hs'. rewrite Hlen in Hs'.
    destruct (Nat.eqb_spec (length h) id); [lia | exact Hs'].
Qed.

Lemma preserves_ret {A} (a : A) : preserves (ret a).
Proof. intros st x st' [= _ <-]. apply keeps_names_refl. Qed.

Lemma preserves_lift {A} (o : outcome A) : preserves (lift o).
Proof. intros st x st' [= _ <-]. apply keeps_names_refl. Qed.

Lemma preserves_throw {A} (what : string) : preserves (@throw A what).
Proof. apply preserves_lift. Qed.

Lemma preserves_throw_arity {A} (literal : string) (n : nat) :
  preserves (@throw_arity A literal n).
Proof. apply preserves_lift. Qed.

Lemma preserves_bind {A B} (m : M A) (k : A -> M B) :
  preserves m -> (forall a, preserves (k a)) -> preserves (bind m k).
Proof.
  intros Hm Hk st b st'. unfold bind.
  destruct (m st) as [[a | | | | |] st1] eqn:E; try discriminate.
  intros Hk1. eapply keeps_names_trans; [eapply Hm, E | eapply Hk, Hk1].
Qed.

Lemma preserves_locked {A} (scope : nat) (what : string) (k : M A) :
  preserves k -> preserves (locked scope what k).
Proof.
  intros Hk st a st'. unfold locked.
  destruct (lock (scopes st) scope); [apply Hk | discriminate].
Qed.

Lemma preserves_with_Scope {A} (p : option nat) (block : nat -> M A) :
  (forall scope, preserves (block scope)) -> preserves (with_Scope p block).
Proof.
  intros Hblock st a st'. unfold with_Scope, bind, new_Scope, release_Scope, ret.
  destruct (block _ _) as [[r | | | | |] st1] eqn:E; try discriminate.
  intros [= _ <-]. simpl.
  apply Hblock in E. simpl in E. eapply keeps_names_pop, E.
Qed.

Lemma preserves_mapM {A B} (f : A -> M B) (l : list A) :
  (forall x, preserves (f x)) -> preserves (mapM f l).
Proof.
  intros Hf. induction l as [| x l IH]; simpl.
  - apply preserves_ret.
  - apply preserves_bind; [apply Hf |]. intros y.
    apply preserves_bind; [exact IH |]. intros ys. apply preserves_ret.
Qed.

Lemma preserves_foldM {A B} (f : B -> A -> M B) (l : list A) (b : B) :
  (forall b x, preserves (f b x)) -> preserves (foldM f l b).
Proof.
  intros Hf. revert b. induction l as [| x l IH]; intros b; simpl.
  - apply preserves_ret.
  - apply preserves_bind; [apply Hf | exact IH].
Qed.

Lemma preserves_first_return {A} (f : A -> M (option Value)) (l : list A) :
  (forall x, preserves (f x)) -> preserves (first_return f l).
Proof.
  intros Hf. induction l as [| x l IH]; simpl.
  - apply preserves_ret.
  - apply preserves_bind; [apply Hf |]. intros [v |]; [apply preserves_ret | exact IH].
Qed.

Lemma preserves_get_scopes : preserves get_scopes.
Proof. intros st a st' [= _ <-]. apply keeps_names_refl. Qed.

Lemma preserves_define (scope : nat) (name : string) (b : Binding) :
  preserves (define scope name b).
Proof. intros st a st' [= _ <-]. simpl. apply keeps_names_define. Qed.

Lemma preserves_write_cout (s : string) : preserves (write_cout s).
Proof. intros st a st' [= _ <-]. apply keeps_names_refl. Qed.

Lemma preserves_clearTerminal : preserves clearTerminal.
Proof. intros st a st' [= _ <-]. apply keeps_names_refl. Qed.

Lemma preserves_getCharImmediate : preserves getCharImmediate.
Proof.
  intros st a st'. unfold getCharImmediate.
  destruct (keys st) as [| c rest]; cbv beta iota zeta.
  - destruct (code_of "255" =? 3)%N; [discriminate |].
    intros [= _ <-]. apply keeps_names_refl.
  - destruct (code_of c =? 3)%N; [discriminate |].
    intros [= _ <-]. apply keeps_names_refl.
Qed.

Lemma preserves_readCode (fs : string -> option string) (path : string) :
  preserves (readCode fs path).
Proof.
  intros st a st'. unfold readCode. destruct (fs path); [| discriminate].
  intros [= _ <-]. apply keeps_names_refl.
Qed.

Lemma preserves_bind_parameters (scope : nat) (params : list FunctionParameterNode)
    (arguments : list Value) : preserves (bind_parameters scope params arguments).
Proof.
  revert arguments. induction params as [| p params IH]; intros [| a arguments]; simpl;
    try apply preserves_ret.
  apply preserves_bind; [apply preserves_lift |]. intros v.
  apply preserves_bind; [apply preserves_define |]. intros _. apply IH.
Qed.

(** The routine steps of a preservation proof. *)
Ltac preserve :=
  repeat first
    [ apply preserves_ret
    | apply preserves_lift
    | apply preserves_throw
    | apply preserves_throw_arity
    | apply preserves_get_scopes
    | apply preserves_define
    | apply preserves_write_cout
    | apply preserves_clearTerminal
    | apply preserves_getCharImmediate
    | apply preserves_readCode
    | apply preserves_bind_parameters
    | apply preserves_locked
    | apply preserves_with_Scope; intros ?
    | apply preserves_mapM; intros ?
    | apply preserves_foldM; intros ? ?
    | apply preserves_first_return; intros ?
    | apply preserves_bind; [| intros ?]
    | match goal with
      | |- preserves (match ?x with _ => _ end) => destruct x
      | |- preserves (let '_ := ?x in _) => destruct x
      end ].

Section Level_preserves.

Variable fs : string -> option string.
Variable rec : Evaluator.
Hypothesis Hrec : Evaluator_preserves rec.

Ltac by_rec :=
  first [ apply (preserves_rec_Expression rec Hrec)
        | apply (preserves_rec_FunctionCall rec Hrec)
        | apply (preserves_rec_Body rec Hrec)
        | apply (preserves_rec_If rec Hrec)
        | apply (preserves_rec_while rec Hrec) ].

Lemma preserves_interpretParameters ps scope : preserves (interpretParameters rec ps scope).
Proof. unfold interpretParameters. preserve. by_rec. Qed.

Lemma preserves_interpretArray a scope : preserves (interpretArray rec a scope).
Proof. unfold interpretArray. preserve. by_rec. Qed.

Lemma preserves_interpretArithmetic a scope : preserves (interpretArithmetic rec a scope).
Proof. unfold interpretArithmetic. preserve; by_rec. Qed.

Lemma preserves_applyMethod v m scope : preserves (applyMethod rec v m scope).
Proof.
  unfold applyMethod. destruct m. apply preserves_bind;
    [apply preserves_interpretParameters | intros ?; preserve].
Qed.

Lemma preserves_interpretArrayRangeBound b scope :
  preserves (interpretArrayRangeBound rec b scope).
Proof. unfold interpretArrayRangeBound. preserve; by_rec. Qed.

Lemma preserves_interpretArrayRange r v scope :
  preserves (interpretArrayRange rec r v scope).
Proof.
  unfold interpretArrayRange. destruct r.
  apply preserves_bind; [apply preserves_interpretArrayRangeBound | intros ?].
  apply preserves_bind; [apply preserves_interpretArrayRangeBound | intros ?].
  preserve.
Qed.

Lemma preserves_applyPostfix v p scope : preserves (applyPostfix rec v p scope).
Proof.
  unfold applyPostfix. apply preserves_foldM. intros b [r | m];
    [apply preserves_interpretArrayRange | apply preserves_applyMethod].
Qed.

Lemma preserves_interpretExpression e scope : preserves (interpretExpression rec e scope).
Proof.
  unfold interpretExpression. destruct e as [[a | a] p];
    (apply preserves_bind;
     [first [apply preserves_interpretArithmetic | apply preserves_interpretArray]
     | intros ?; apply preserves_applyPostfix]).
Qed.

Lemma preserves_interpretVariableDeclaration d scope :
  preserves (interpretVariableDeclaration rec d scope).
Proof.
  unfold interpretVariableDeclaration. apply preserves_locked.
  apply preserves_bind; [| intros ?; preserve].
  destruct (decl_value d); [| preserve].
  apply preserves_bind; [apply preserves_interpretExpression | intros ?; preserve].
Qed.

Lemma preserves_interpretVariableAssignment a scope :
  preserves (interpretVariableAssignment rec a scope).
Proof.
  unfold interpretVariableAssignment. apply preserves_locked.
  apply preserves_bind; [apply preserves_get_scopes | intros h].
  destruct (negb _); [preserve |].
  apply preserves_bind; [apply preserves_interpretExpression | intros right].
  intros st x st'. unfold bind, get_scopes, lift, put_scopes.
  destruct (Scope_set (scopes st) scope (getLeft a) (BValue right)) as [h' | | | | |] eqn:E;
    try discriminate.
  intros [= _ <-]. simpl. eapply keeps_names_set, E.
Qed.

Lemma preserves_interpretVariableBinding b scope :
  preserves (interpretVariableBinding rec b scope).
Proof.
  destruct b; [apply preserves_interpretVariableDeclaration
              | apply preserves_interpretVariableAssignment].
Qed.

Lemma preserves_interpretIfDeclaration d scope :
  preserves (interpretIfDeclaration rec d scope).
Proof.
  unfold interpretIfDeclaration. destruct (decl_value d).
  - apply preserves_locked.
    apply preserves_bind; [apply preserves_interpretExpression | intros ?].
    destruct (descriptor_accepts _ _); preserve.
  - apply preserves_bind; [apply preserves_interpretVariableDeclaration | intros ?].
    preserve.
Qed.

Lemma preserves_interpretIfCompare c scope : preserves (interpretIfCompare rec c scope).
Proof.
  unfold interpretIfCompare.
  apply preserves_bind; [apply preserves_interpretExpression | intros ?].
  apply preserves_bind; [apply preserves_interpretExpression | intros ?].
  preserve.
Qed.

Lemma preserves_interpretIfCondition c scope : preserves (interpretIfCondition rec c scope).
Proof.
  destruct c; [apply preserves_interpretIfCompare | apply preserves_interpretIfDeclaration].
Qed.

Lemma preserves_while_loop c b scope : preserves (while_loop rec c b scope).
Proof.
  unfold while_loop.
  apply preserves_bind; [apply preserves_interpretIfCondition | intros [|]]; [| preserve].
  apply preserves_bind; [by_rec | intros [v |]]; [preserve | by_rec].
Qed.

Lemma preserves_interpretWhile w scope : preserves (interpretWhile rec w scope).
Proof.
  destruct w. unfold interpretWhile. apply preserves_with_Scope. intros ?.
  apply preserves_while_loop.
Qed.

Lemma preserves_interpretForLoop f scope : preserves (interpretForLoop rec f scope).
Proof.
  destruct f. unfold interpretForLoop.
  apply preserves_bind; [apply preserves_interpretExpression | intros ?].
  apply preserves_first_return. intros ?. apply preserves_with_Scope. intros ?.
  apply preserves_bind; [apply preserves_define | intros ?]. by_rec.
Qed.

Lemma preserves_interpretIf i scope : preserves (interpretIf rec i scope).
Proof.
  destruct i as [c b elseIf elseBody]. unfold interpretIf.
  apply preserves_with_Scope. intros ?.
  apply preserves_bind; [apply preserves_interpretIfCondition | intros [|]].
  - apply preserves_bind; [by_rec | intros ?; preserve].
  - apply preserves_bind.
    + destruct elseIf; [by_rec | preserve].
    + intros [r [|]]; simpl; [preserve |].
      destruct elseBody; [| preserve].
      apply preserves_bind; [by_rec | intros ?; preserve].
Qed.

Lemma preserves_interpretFunctionCall c scope :
  preserves (interpretFunctionCall fs rec c scope).
Proof.
  destruct c as [identifier parameters]. unfold interpretFunctionCall.
  apply preserves_locked.
  apply preserves_bind; [apply preserves_get_scopes | intros h].
  destruct (Scope_hasRecursive h scope identifier).
  { apply preserves_bind; [apply preserves_lift | intros ?].
    apply preserves_bind; [apply preserves_interpretParameters | intros arguments].
    apply preserves_bind; [apply preserves_get_scopes | intros h'].
    apply preserves_bind; [apply preserves_lift | intros fd].
    apply preserves_with_Scope. intros callee.
    destruct (negb _); [preserve |].
    apply preserves_bind; [apply preserves_bind_parameters | intros ?].
    apply preserves_bind; [by_rec | intros ?; preserve]. }
  repeat (match goal with |- preserves (if ?b then _ else _) => destruct b end);
    try apply preserves_throw.
  - unfold interpretPrint. destruct parameters as [| p [| q l]]; try apply preserves_throw_arity.
    apply preserves_bind; [apply preserves_interpretExpression | intros ?]. preserve.
  - unfold interpretRead. destruct parameters as [| p [| q l]]; try apply preserves_throw_arity.
    apply preserves_bind; [apply preserves_interpretExpression | intros ?].
    apply preserves_bind; [apply preserves_readCode | intros ?].
    apply preserves_interpretArray.
  - unfold interpretGetchar. destruct parameters as [| p l]; try apply preserves_throw_arity.
    apply preserves_bind; [apply preserves_getCharImmediate | intros ?].
    apply preserves_interpretArray.
  - unfold interpretClear. destruct parameters as [| p l]; try apply preserves_throw_arity.
    preserve.
  - unfold interpretRange. destruct parameters as [| p [| q l]]; try apply preserves_throw_arity.
    apply preserves_bind; [apply preserves_interpretExpression | intros ?]. preserve.
  - unfold interpretExit. destruct parameters as [| p [| q l]]; try apply preserves_throw_arity.
    apply preserves_bind; [apply preserves_interpretExpression | intros ?]. preserve.
Qed.

Lemma preserves_interpretStatement s scope :
  preserves (interpretStatement fs rec s scope).
Proof.
  destruct s; simpl.
  - apply preserves_bind; [apply preserves_interpretVariableBinding | intros ?; preserve].
  - apply preserves_interpretForLoop.
  - apply preserves_bind; [apply preserves_interpretIf | intros ?; preserve].
  - apply preserves_interpretWhile.
  - apply preserves_bind; [apply preserves_interpretFunctionCall | intros ?; preserve].
  - apply preserves_bind; [apply preserves_interpretExpression | intros ?; preserve].
Qed.

Lemma preserves_interpretBody b scope : preserves (interpretBody fs rec b scope).
Proof.
  unfold interpretBody. apply preserves_first_return. intros ?.
  apply preserves_interpretStatement.
Qed.

End Level_preserves.

(** Whatever the fuel, the evaluator keeps the names of the live scopes. *)
Lemma evaluator_preserves (fs : string -> option string) (fuel : nat) :
  Evaluator_preserves (evaluator fs fuel).
Proof.
  induction fuel as [| fuel IH].
  - split; intros; apply preserves_lift.
  - split; intros; cbn [evaluator rec_Expression rec_FunctionCall rec_Body rec_If rec_while].
    + apply preserves_interpretExpression, IH.
    + apply preserves_interpretFunctionCall, IH.
    + apply preserves_interpretBody, IH.
    + apply preserves_interpretIf, IH.
    + apply preserves_while_loop, IH.
Qed.

(** ** Declarations in a [while] loop *)

Lemma set_scopes_same (st : State) : set_scopes (scopes st) st = st.
Proof. destruct st; reflexivity. Qed.

(** Evaluating the initializer keeps the declared name in its scope. *)
Lemma initializer_keeps_name (fs : string -> option string) (fuel : nat)
    (d : VariableDeclarationNode) (scope : nat) (st st1 : State) (s : Scope)
    (v : option Value) :
  lock (scopes st) scope = Some s ->
  Scope_has s (decl_identifier d) = true ->
  initializer_gives (evaluator fs fuel) d scope st v st1 ->
  exists s1, lock (scopes st1) scope = Some s1
             /\ Scope_has s1 (decl_identifier d) = true.
Proof.
  intros Hlock Hhas Hinit. unfold initializer_gives in Hinit.
  assert (Hkeep : keeps_names (scopes st) (scopes st1)).
  { destruct (decl_value d) as [e |].
    - destruct Hinit as (x & Heval & _).
      exact (preserves_interpretExpression (evaluator fs fuel)
               (evaluator_preserves fs fuel) e scope st x st1 Heval).
    - destruct Hinit as [-> _]. apply keeps_names_refl. }
  destruct Hkeep as [_ Hnames].
  destruct (Hnames scope s Hlock) as (s1 & Hs1 & Hx).
  exists s1. auto.
Qed.

(** The declaration of a name that its scope already has: the initializer
    is evaluated and the value is constructed, but the state is left as the
    evaluation of the initializer left it. *)
Lemma redeclaration_skips_define (fs : string -> option string) (fuel : nat)
    (d : VariableDeclarationNode) (scope : nat) (st st1 : State) (s : Scope)
    (v : option Value) (made : Value) :
  lock (scopes st) scope = Some s ->
  Scope_has s (decl_identifier d) = true ->
  initializer_gives (evaluator fs fuel) d scope st v st1 ->
  fromDescriptor (decl_descriptor d) v = Ok made ->
  interpretVariableDeclaration (evaluator fs fuel) d scope st = (Ok tt, st1).
Proof.
  intros Hlock Hhas Hinit Hmade.
  destruct (initializer_keeps_name fs fuel d scope st st1 s v Hlock Hhas Hinit)
    as (s1 & Hs1 & Hhas1).
  unfold interpretVariableDeclaration, locked. rewrite Hlock.
  unfold initializer_gives in Hinit. unfold bind at 1.
  destruct (decl_value d) as [e |].
  - destruct Hinit as (x & Heval & ->). unfold bind at 1. rewrite Heval.
    unfold ret, bind, lift. rewrite Hmade. unfold define.
    rewrite (Scope_define_existing (scopes st1) scope s1 _ _ Hs1 Hhas1).
    rewrite set_scopes_same. reflexivity.
  - destruct Hinit as [-> ->]. unfold ret, bind, lift. rewrite Hmade. unfold define.
    rewrite (Scope_define_existing (scopes st) scope s1 _ _ Hs1 Hhas1).
    rewrite set_scopes_same. reflexivity.
Qed.

(** A declaration whose initializer and construction succeed defines the
    name in its scope, in the state the initializer left. *)
Lemma declaration_defines (rec : Evaluator) (d : VariableDeclarationNode)
    (scope : nat) (st st1 : State) (s : Scope) (v : option Value) (made : Value) :
  lock (scopes st) scope = Some s ->
  initializer_gives rec d scope st v st1 ->
  fromDescriptor (decl_descriptor d) v = Ok made ->
  interpretVariableDeclaration rec d scope st
  = (Ok tt, set_scopes (Scope_define (scopes st1) scope (decl_identifier d)
                          (BValue made)) st1).
Proof.
  intros Hlock Hinit Hmade.
  unfold interpretVariableDeclaration, locked. rewrite Hlock.
  unfold initializer_gives in Hinit. unfold bind at 1.
  destruct (decl_value d) as [e |].
  - destruct Hinit as (x & Heval & ->). unfold bind at 1. rewrite Heval.
    unfold ret, bind, lift. rewrite Hmade. reflexivity.
  - destruct Hinit as [-> ->]. unfold ret, bind, lift. rewrite Hmade. reflexivity.
Qed.

(** C10 (as the code does it). A [while] statement creates one scope, a
    child of the enclosing scope, and every turn evaluates the condition and
    the body in it; defining a name that a scope already has is a no-op.
    Therefore a declaration in the [while] body, or as the [while]
    condition, that is reached when the scope already has its name still
    evaluates its initializer and constructs the value from the descriptor,
    but does not bind it again: the state after the declaration is the state
    the evaluation of the initializer left. A declaration reached when the
    scope does not have its name binds the name to the constructed value. *)
Theorem while_redeclaration_does_not_rebind (fs : string -> option string)
    (fuel : nat) :
  let rec := evaluator fs fuel in
  (forall c b parentScope st,
      interpretWhile rec (mkWhile c b) parentScope st
      = (do result <- while_loop rec c b (length (scopes st));
         run release_Scope;
         ret result)
          (set_scopes (mkScope (Some parentScope) ∅ :: scopes st) st))
  /\ (forall c b scope,
        rec_while (evaluator fs (S fuel)) c b scope
        = (do turn <- interpretIfCondition rec c scope;
           if turn then
             do result <- rec_Body rec b scope;
             match result with
             | Some v => ret (Some v)
             | None => rec_while rec c b scope
             end
           else ret None))
  /\ (forall h id s name b,
        lock h id = Some s -> Scope_has s name = true ->
        Scope_define h id name b = h)
  /\ (forall d scope st st1 s v made,
        lock (scopes st) scope = Some s ->
        Scope_has s (decl_identifier d) = true ->
        initializer_gives rec d scope st v st1 ->
        fromDescriptor (decl_descriptor d) v = Ok made ->
        interpretVariableDeclaration rec d scope st = (Ok tt, st1))
  /\ (forall d scope st st1 s v made,
        lock (scopes st) scope = Some s ->
        Scope_has s (decl_identifier d) = true ->
        initializer_gives rec d scope st v st1 ->
        match v with Some x => descriptor_accepts (decl_descriptor d) x = true
                   | None => True end ->
        fromDescriptor (decl_descriptor d) v = Ok made ->
        interpretIfDeclaration rec d scope st = (Ok true, st1))
  /\ (forall d scope st st1 s s1 v made,
        lock (scopes st) scope = Some s ->
        initializer_gives rec d scope st v st1 ->
        fromDescriptor (decl_descriptor d) v = Ok made ->
        lock (scopes st1) scope = Some s1 ->
        Scope_has s1 (decl_identifier d) = false ->
        exists st2,
          interpretVariableDeclaration rec d scope st = (Ok tt, st2)
          /\ lock (scopes st2) scope
             = Some (mkScope (parent s1)
                       (<[decl_identifier d := BValue made]> (variables s1)))).
Proof.
  intros rec. split; [| split; [| split; [| split; [| split]]]];
    [ | | | | | intros d scope st st1 s s1 v made Hlock Hinit Hmade Hs1 Hfresh;
              eexists; split;
              [ exact (declaration_defines rec d scope st st1 s v made
                         Hlock Hinit Hmade)
              | destruct st1; simpl in *; apply Scope_define_fresh; assumption ] ].
  - reflexivity.
  - reflexivity.
  - apply Scope_define_existing.
  - apply redeclaration_skips_define.
  - intros d scope st st1 s v made Hlock Hhas Hinit Haccepts Hmade.
    pose proof (redeclaration_skips_define fs fuel d scope st st1 s v made
                  Hlock Hhas Hinit Hmade) as Hdecl.
    destruct (initializer_keeps_name fs fuel d scope st st1 s v Hlock Hhas Hinit)
      as (s1 & Hs1 & Hhas1).
    unfold interpretIfDeclaration. unfold initializer_gives in Hinit.
    destruct (decl_value d) as [e |].
    + destruct Hinit as (x & Heval & ->). unfold locked. rewrite Hlock.
      unfold bind at 1. fold rec in Heval. rewrite Heval, Haccepts.
      unfold bind, lift. rewrite Hmade. unfold define.
      rewrite (Scope_define_existing (scopes st1) scope s1 _ _ Hs1 Hhas1).
      rewrite set_scopes_same. reflexivity.
    + unfold bind. fold rec in Hdecl. rewrite Hdecl. reflexivity.
Qed.

(** The theorem applied to [let x: [+] = [1]] in the scope of a [while]
    statement that already has [x]. *)
Lemma while_redeclaration_witness :
  let rec := evaluator no_files 1 in
  let x := mkValue (VVector [65]) 0 in
  let st := set_scopes (second_turn_scopes x) (initial_State []) in
  (lock (scopes st) 1 = Some (mkScope (Some 0%nat) {[ "x" := BValue x ]})
   /\ Scope_has (mkScope (Some 0%nat) {[ "x" := BValue x ]}) "x" = true
   /\ initializer_gives rec let_x_1 1 st (Some (mkValue (VVector [1]) 1)) st
   /\ fromDescriptor growable (Some (mkValue (VVector [1]) 1))
      = Ok (mkValue (VVector [1]) 0))
  /\ interpretVariableDeclaration rec let_x_1 1 st = (Ok tt, st).
Proof.
  intros rec x st.
  assert (H1 : lock (scopes st) 1 = Some (mkScope (Some 0%nat) {[ "x" := BValue x ]}))
    by reflexivity.
  assert (H2 : Scope_has (mkScope (Some 0%nat) {[ "x" := BValue x ]}) "x" = true)
    by reflexivity.
  assert (H3 : initializer_gives rec let_x_1 1 st (Some (mkValue (VVector [1]) 1)) st).
  { exists (mkValue (VVector [1]) 1). split; reflexivity. }
  assert (H4 : fromDescriptor growable (Some (mkValue (VVector [1]) 1))
               = Ok (mkValue (VVector [1]) 0)) by reflexivity.
  split; [repeat split; assumption |].
  pose proof (while_redeclaration_does_not_rebind no_files 1) as H.
  cbv zeta in H. destruct H as (_ & _ & _ & H & _).
  exact (H let_x_1 1%nat st st _ _ _ H1 H2 H3 H4).
Defined.

(** C10 as stated fails. In the scope of a [while] statement that has [x]
    bound to "A", the declaration [let x: [+] = f()] leaves [x] bound to
    "B", because the body of [f] assigns [x] and finds the [x] of the call
    site; the program [redeclaring_loop] prints "A" in the first turn of its
    loop and "B" in the second. *)
Lemma redeclaration_can_change_value :
  ~ redeclaration_keeps_value
  /\ (let st := set_scopes (second_turn_scopes (mkValue (VVector [65]) 0))
                  (initial_State []) in
      interpretVariableDeclaration (evaluator no_files 2) let_x_f 1 st
      = (Ok tt, set_scopes (second_turn_scopes (mkValue (VVector [66]) 1))
                  (initial_State [])))
  /\ (let r := run_program (one_file "main.ints" redeclaring_loop) 21 "main.ints" [] [] in
      fst r = Ok tt /\ cout (snd r) = "AB").
Proof.
  assert (Hrun :
    interpretVariableDeclaration (evaluator no_files 2) let_x_f 1
      (set_scopes (second_turn_scopes (mkValue (VVector [65]) 0)) (initial_State []))
    = (Ok tt, set_scopes (second_turn_scopes (mkValue (VVector [66]) 1))
                (initial_State []))) by reflexivity.
  split; [| split].
  - intros Hclaim.
    assert (Hlock :
      lock (scopes (set_scopes (second_turn_scopes (mkValue (VVector [65]) 0))
                      (initial_State []))) 1
      = Some (mkScope (Some 0%nat) {[ "x" := BValue (mkValue (VVector [65]) 0) ]}))
      by reflexivity.
    assert (Hhas :
      variables (mkScope (Some 0%nat) {[ "x" := BValue (mkValue (VVector [65]) 0) ]})
        !! decl_identifier let_x_f
      = Some (BValue (mkValue (VVector [65]) 0))) by reflexivity.
    destruct (Hclaim no_files 2%nat let_x_f 1%nat _ _ _ _ Hlock Hhas Hrun)
      as (s' & Hs' & Hx).
    change (lock (second_turn_scopes (mkValue (VVector [66]) 1)) 1 = Some s') in Hs'.
    unfold second_turn_scopes in Hs'. cbn in Hs'. injection Hs' as <-.
    cbn in Hx. rewrite lookup_singleton_eq in Hx. discriminate Hx.
  - exact Hrun.
  - vm_compute. split; reflexivity.
Qed.

(** * Further properties *)

(** ** Comparisons *)

Lemma none_bad_Forall2 (bad : Z -> Z -> bool) (a b : list Z) :
  length a = length b ->
  none_bad bad a b = true <-> Forall2 (fun x y => bad x y = false) a b.
Proof.
  revert b. induction a as [| x a IH]; intros [| y b] Hlen; simpl in *; try discriminate.
  - split; [constructor | reflexivity].
  - injection Hlen as Hlen. destruct (bad x y) eqn:Hxy.
    + split; [discriminate |]. intros H. inversion H; subst. congruence.
    + rewrite (IH b Hlen). split.
      * intros H. constructor; assumption.
      * intros H. inversion H; subst. assumption.
Qed.

Lemma Value_compare_Forall2 (bad : Z -> Z -> bool) (a b : Value) :
  Value_compare (DynamicArray_compare bad) a b = true <->
  Forall2 (fun x y => bad x y = false) (fromValue a) (fromValue b).
Proof.
  unfold Value_compare, sameSize, DynamicArray_compare. rewrite size_of_eqb.
  destruct (Nat.eqb_spec (length (fromValue a)) (length (fromValue b))) as [E | E]; simpl.
  - apply none_bad_Forall2. exact E.
  - split; [discriminate |]. intros H. apply Forall2_length in H. contradiction.
Qed.

(** X1. Each of the six comparisons of an [if] or [while] condition is
    true exactly when the two arrays have the same length and the
    operator's relation holds between every pair of corresponding
    elements; the storage and the minimum of the operands play no part. *)
Theorem compare_all_pairs (type : IfCompareType) (a b : Value) :
  compare type a b = true <-> Forall2 (holds type) (fromValue a) (fromValue b).
Proof.
  destruct type; simpl;
    unfold Value_eq, Value_ne, Value_lt, Value_le, Value_gt, Value_ge,
      DynamicArray_eq, DynamicArray_ne, DynamicArray_lt, DynamicArray_le,
      DynamicArray_gt, DynamicArray_ge;
    rewrite Value_compare_Forall2;
    split; intros H; (eapply Forall2_impl; [exact H |]); simpl; intros x y Hxy; lia.
Qed.

(** Comparisons are not exhaustive: between two arrays of different
    lengths all six comparisons are false (neither [==] nor [!=] holds), and
    between two empty arrays all six are true (also [!=] and [<]). *)
Theorem compare_by_length (type : IfCompareType) (a b : Value) :
  (length (fromValue a) <> length (fromValue b) -> compare type a b = false)
  /\ (fromValue a = [] -> fromValue b = [] -> compare type a b = true).
Proof.
  split.
  - intros Hlen.
    destruct type; simpl;
      unfold Value_eq, Value_ne, Value_lt, Value_le, Value_gt, Value_ge, Value_compare,
        sameSize;
      rewrite size_of_eqb;
      destruct (Nat.eqb_spec (length (fromValue a)) (length (fromValue b)));
      try contradiction; reflexivity.
  - intros Ha Hb.
    destruct type; simpl;
      unfold Value_eq, Value_ne, Value_lt, Value_le, Value_gt, Value_ge, Value_compare,
        sameSize, DynamicArray_eq, DynamicArray_ne, DynamicArray_lt, DynamicArray_le,
        DynamicArray_gt, DynamicArray_ge, DynamicArray_compare;
      rewrite Ha, Hb; reflexivity.
Qed.

Lemma compare_by_length_witness :
  (length (fromValue (mkValue (VVector [1]) 1))
   <> length (fromValue (mkValue (VDynamicArray [1; 2]) 2)))
  /\ compare NE (mkValue (VVector [1]) 1) (mkValue (VDynamicArray [1; 2]) 2) = false.
Proof.
  assert (H : length (fromValue (mkValue (VVector [1]) 1))
              <> length (fromValue (mkValue (VDynamicArray [1; 2]) 2)))
    by (simpl; lia).
  split; [exact H |].
  exact (proj1 (compare_by_length NE (mkValue (VVector [1]) 1)
                  (mkValue (VDynamicArray [1; 2]) 2)) H).
Defined.

(** ** Arithmetic *)





Lemma pointwise_comm (op : Z -> Z -> outcome Z) (a b : list Z) :
  (forall x y, op x y = op y x) -> pointwise op a b = pointwise op b a.
Proof.
  intros Hop. revert b. induction a as [| x a IH]; intros [| y b]; simpl; try reflexivity.
  rewrite (Hop x y), (IH b). reflexivity.
Qed.

(** X3. Addition and multiplication of arrays are commutative, in the
    value they return and in the way they fail. *)
Theorem Value_add_mul_comm (a b : Value) :
  Value_add a b = Value_add b a /\ Value_mul a b = Value_mul b a.
Proof.
  unfold Value_add, Value_mul, Value_arith, DynamicArray_add, DynamicArray_mul,
    DynamicArray_arith, sameSize.
  rewrite (N.eqb_sym (size_of (fromValue b)) (size_of (fromValue a))).
  destruct (N.eqb_spec (size_of (fromValue a)) (size_of (fromValue b))) as [E | E];
    simpl; [| split; reflexivity].
  rewrite E.
  rewrite (pointwise_comm int_add (fromValue a) (fromValue b)),
          (pointwise_comm int_mul (fromValue a) (fromValue b)).
  - split; reflexivity.
  - intros x y. unfold int_mul. rewrite Z.mul_comm. reflexivity.
  - intros x y. unfold int_add. rewrite Z.add_comm. reflexivity.
Qed.

Lemma pointwise_div_zero (a b : list Z) :
  length a = length b -> In 0 b -> pointwise int_div a b = UB.
Proof.
  revert b. induction a as [| x a IH]; intros [| y b] Hlen Hin; simpl in *;
    try discriminate; try contradiction.
  injection Hlen as Hlen. unfold int_div at 1.
  destruct (Z.eqb_spec y 0) as [-> | Hy]; [reflexivity |].
  destruct Hin as [-> | Hin]; [contradiction |].
  unfold int_result. destruct (in_int (x ÷ y)); simpl; [| reflexivity].
  rewrite (IH b Hlen Hin). reflexivity.
Qed.

(** X4. Division by an array that holds a zero is not caught: for arrays
    of the same length no runtime error is raised, the behaviour is
    undefined. *)
Theorem Value_div_by_zero (a b : Value) :
  length (fromValue a) = length (fromValue b) ->
  In 0 (fromValue b) ->
  Value_div a b = UB.
Proof.
  intros Hlen Hin.
  unfold Value_div, Value_arith, DynamicArray_div, DynamicArray_arith, sameSize.
  rewrite size_of_eqb, Hlen, Nat.eqb_refl. simpl.
  rewrite (pointwise_div_zero _ _ Hlen Hin). reflexivity.
Qed.

Lemma Value_div_by_zero_witness :
  (length (fromValue (mkValue (VVector [6; 7]) 2))
   = length (fromValue (mkValue (VVector [3; 0]) 2))
   /\ In 0 (fromValue (mkValue (VVector [3; 0]) 2)))
  /\ Value_div (mkValue (VVector [6; 7]) 2) (mkValue (VVector [3; 0]) 2) = UB.
Proof.
  assert (H1 : length (fromValue (mkValue (VVector [6; 7]) 2))
               = length (fromValue (mkValue (VVector [3; 0]) 2))) by reflexivity.
  assert (H2 : In 0 (fromValue (mkValue (VVector [3; 0]) 2))) by (simpl; auto).
  split; [split; assumption |].
  exact (Value_div_by_zero _ _ H1 H2).
Defined.

(** ** Assignment between values and construction from a descriptor *)

Lemma assign_from_dynamic_length (this_arg other_arg : list Z) :
  length (assign_from_dynamic this_arg other_arg)
  = Nat.max (length this_arg) (length other_arg).
Proof.
  revert other_arg. induction this_arg as [| x t IH]; intros [| o os]; simpl;
    try reflexivity.
  - rewrite IH. simpl. lia.
  - rewrite IH. reflexivity.
Qed.


Lemma copy_prefix_all (this_arg other_arg : list Z) :
  length this_arg = length other_arg ->
  copy_prefix (length this_arg) this_arg other_arg = Ok other_arg.
Proof.
  revert other_arg. induction this_arg as [| x t IH]; intros [| o os] Hlen; simpl in *;
    try discriminate; [reflexivity |].
  injection Hlen as Hlen. rewrite (IH os Hlen). reflexivity.
Qed.

Lemma size_of_to_nat (l : list Z) : N.to_nat (size_of l) = length l.
Proof. unfold size_of. lia. Qed.



Lemma repeat_lookup_zero (n i : nat) (x : Z) : repeat 0 n !! i = Some x -> x = 0.
Proof.
  revert i. induction n as [| n IH]; intros [| i]; simpl; try discriminate.
  - intros [= <-]. reflexivity.
  - apply IH.
Qed.

(** X6. Construction from a descriptor that cannot grow. [[n]] without an
    initializer gives [n] zeros; with an initializer it succeeds exactly when
    the initializer has [n] elements and then holds its elements in a fixed
    array of minimum [n]. [[]] takes the initializer as it is and throws
    without one. *)
Theorem fromDescriptor_fixed (n : N) (v : Value) :
  (n <= max_size)%N -> well_formed v ->
  fromDescriptor (mkArrayDescriptor (Some n) false) None
  = Ok (mkValue (VDynamicArray (repeat 0 (N.to_nat n))) n)
  /\ (Value_getSize v = n ->
      fromDescriptor (mkArrayDescriptor (Some n) false) (Some v)
      = Ok (mkValue (VDynamicArray (fromValue v)) n))
  /\ (Value_getSize v <> n ->
      fromDescriptor (mkArrayDescriptor (Some n) false) (Some v)
      = Throw "Cannot set value. Destination length is not equal to the sources length")
  /\ fromDescriptor (mkArrayDescriptor None false) (Some v) = Ok v
  /\ fromDescriptor (mkArrayDescriptor None false) None
     = Throw "Static array cannot be defined without a value".
Proof.
  intros Hn Hv. unfold fromDescriptor, DynamicArray_new. simpl.
  destruct (N.ltb_spec max_size n) as [Hbig | _]; [lia |]. simpl.
  split; [reflexivity |]. split; [| split; [| split; reflexivity]].
  - intros Hsize. unfold Value_assign, Value_getSize, fromValue in *. simpl.
    destruct v as [[l | d] k]; simpl in *.
    + rewrite <- Hsize, N.eqb_refl. simpl.
      replace (N.to_nat (size_of l)) with (length (repeat 0 (N.to_nat (size_of l))))
        at 1 by (rewrite repeat_length; reflexivity).
      rewrite copy_prefix_all; [reflexivity |].
      rewrite repeat_length. apply size_of_to_nat.
    + unfold well_formed in Hv. simpl in Hv. subst k.
      rewrite <- Hsize, N.eqb_refl. simpl.
      replace (N.to_nat (size_of d)) with (length (repeat 0 (N.to_nat (size_of d))))
        at 1 by (rewrite repeat_length; reflexivity).
      rewrite copy_prefix_all; [reflexivity |].
      rewrite repeat_length. apply size_of_to_nat.
  - intros Hsize. unfold Value_assign, Value_getSize, fromValue in *. simpl.
    destruct v as [[l | d] k]; simpl in *.
    + destruct (N.eqb_spec n (size_of l)); [congruence | reflexivity].
    + unfold well_formed in Hv. simpl in Hv. subst k.
      destruct (N.eqb_spec n (size_of d)); [congruence | reflexivity].
Qed.

Lemma fromDescriptor_fixed_witness :
  ((2 <= max_size)%N /\ well_formed (mkValue (VVector [5; 6]) 2))
  /\ fromDescriptor (mkArrayDescriptor (Some 2%N) false) None
     = Ok (mkValue (VDynamicArray [0; 0]) 2).
Proof.
  assert (H1 : (2 <= max_size)%N) by (unfold max_size; lia).
  assert (H2 : well_formed (mkValue (VVector [5; 6]) 2))
    by (unfold well_formed; simpl; unfold size_of; simpl; lia).
  split; [split; assumption |].
  exact (proj1 (fromDescriptor_fixed 2 _ H1 H2)).
Defined.

(** ** The shape of values *)

Lemma pointwise_length (op : Z -> Z -> outcome Z) (a b l : list Z) :
  length a = length b -> pointwise op a b = Ok l -> length l = length a.
Proof.
  revert b l. induction a as [| x a IH]; intros [| y b] l Hlen; simpl in *;
    try discriminate.
  - intros [= <-]. reflexivity.
  - injection Hlen as Hlen. destruct (op x y) as [z | | | | |]; simpl; try discriminate.
    destruct (pointwise op a b) as [rest | | | | |] eqn:Hp; simpl; try discriminate.
    intros [= <-]. simpl. rewrite (IH b rest Hlen Hp). reflexivity.
Qed.

Lemma Value_assign_well_formed (this other r : Value) :
  well_formed this -> well_formed other ->
  Value_assign this other = Ok r -> well_formed r.
Proof.
  destruct this as [[this_arg | this_arg] m], other as [[other_arg | other_arg] k];
    unfold well_formed, Value_assign; simpl; intros Hthis Hother.
  - destruct (size_of other_arg <? m)%N eqn:E; [discriminate |].
    intros [= <-]. simpl. apply N.ltb_ge in E. exact E.
  - subst k. destruct (size_of other_arg <? m)%N eqn:E; [discriminate |].
    intros [= <-]. simpl. apply N.ltb_ge in E.
    unfold size_of in *. rewrite assign_from_dynamic_length. lia.
  - subst m. destruct (N.eqb_spec (size_of this_arg) (size_of other_arg)) as [E | E];
      simpl; [| discriminate].
    rewrite size_of_to_nat, copy_prefix_all by (unfold size_of in E; lia).
    intros [= <-]. simpl. exact E.
  - subst m k.
    destruct (N.eqb_spec (size_of this_arg) (size_of other_arg)) as [E | E];
      simpl; [| discriminate].
    rewrite size_of_to_nat, copy_prefix_all by (unfold size_of in E; lia).
    intros [= <-]. simpl. exact E.
Qed.

Lemma sqrt_all_length (l r : list Z) : sqrt_all l = Ok r -> length r = length l.
Proof.
  revert r. induction l as [| x l IH]; intros r; simpl.
  - intros [= <-]. reflexivity.
  - destruct (x <? 0); [discriminate |].
    destruct (sqrt_all l) as [rest | | | | |]; simpl; try discriminate.
    intros [= <-]. simpl. rewrite (IH rest eq_refl). reflexivity.
Qed.

Lemma fromDescriptor_well_formed (descriptor : ArrayDescriptor) (v : option Value)
    (r : Value) :
  match v with Some other => well_formed other | None => True end ->
  fromDescriptor descriptor v = Ok r -> well_formed r.
Proof.
  intros Hv. unfold fromDescriptor.
  destruct (getCanGrow descriptor).
  - destruct (match getSize descriptor with
              | Some n => if (max_size <? n)%N then Throw "vector::reserve" else Ok tt
              | None => Ok tt
              end) as [u | | | | |]; simpl; try discriminate.
    destruct v as [other |].
    + apply Value_assign_well_formed; [| exact Hv].
      unfold well_formed. simpl. unfold size_of. simpl. lia.
    + intros [= <-]. unfold well_formed. simpl. unfold size_of. simpl. lia.
  - destruct (getSize descriptor) as [size |].
    + unfold DynamicArray_new. destruct (max_size <? size)%N; simpl; [discriminate |].
      destruct v as [other |].
      * apply Value_assign_well_formed; [| exact Hv].
        unfold well_formed, size_of. simpl. rewrite repeat_length. lia.
      * intros [= <-]. unfold well_formed, size_of. simpl. rewrite repeat_length. lia.
    + destruct v as [other |]; [| discriminate]. intros [= <-]. exact Hv.
Qed.

Lemma Value_arith_well_formed (what : string) (op : Z -> Z -> outcome Z)
    (a b r : Value) :
  Value_arith what (DynamicArray_arith what op) a b = Ok r -> well_formed r.
Proof.
  unfold Value_arith, DynamicArray_arith, sameSize.
  destruct (N.eqb_spec (size_of (fromValue a)) (size_of (fromValue b))) as [E | E];
    simpl; [| discriminate].
  destruct (pointwise op (fromValue a) (fromValue b)) as [l | | | | |] eqn:Hp;
    simpl; try discriminate.
  intros [= <-]. unfold well_formed, size_of in *. simpl.
  assert (Hlen : length (fromValue a) = length (fromValue b)) by lia.
  rewrite (pointwise_length op _ _ l Hlen Hp). reflexivity.
Qed.

Lemma applyAppend_well_formed (v : Value) (parameters : list Value) (r : Value) :
  applyAppend v parameters = Ok r -> well_formed r.
Proof.
  destruct parameters as [| p [| q ps]]; simpl; try discriminate.
  intros [= <-]. unfold well_formed, Value_getSize, size_of. simpl.
  rewrite length_app. lia.
Qed.

Lemma applySqrt_well_formed (v : Value) (parameters : list Value) (r : Value) :
  applySqrt v parameters = Ok r -> well_formed r.
Proof.
  destruct parameters as [| p ps]; simpl; try discriminate.
  destruct (sqrt_all (fromValue v)) as [l | | | | |]; simpl; try discriminate.
  intros [= <-]. reflexivity.
Qed.

Lemma applySize_well_formed (v : Value) (parameters : list Value) (r : Value) :
  applySize v parameters = Ok r -> well_formed r.
Proof.
  destruct parameters as [| p ps]; simpl; try discriminate.
  intros [= <-]. reflexivity.
Qed.

Lemma slice_well_formed (v : Value) (start finish : N) (r : Value) :
  slice v start finish = Ok r -> well_formed r.
Proof.
  unfold slice, DynamicArray_new.
  destruct (finish <? start)%N eqn:E1; [discriminate |].
  destruct (max_size <? finish - start)%N; simpl; [discriminate |].
  destruct (Value_getSize v <? finish)%N eqn:E2; [discriminate |].
  intros [= <-]. unfold well_formed, size_of. simpl.
  apply N.ltb_ge in E1, E2. unfold Value_getSize, size_of in E2.
  rewrite length_take, length_drop. lia.
Qed.

Lemma range_of_well_formed (param1 : list Z) (r : Value) :
  range_of param1 = Ok r -> well_formed r.
Proof.
  unfold range_of. destruct param1 as [| n [| m l]]; try discriminate.
  destruct (n <? 0); [discriminate |]. intros [= <-]. reflexivity.
Qed.

(** X7. Every operation on values returns values of the interpreter's
    shape (a fixed array with exactly [minimum] elements, a vector with at
    least [minimum]): the arithmetic operators, [append], [sqrt], [size],
    slicing, [range], and construction from a descriptor with an initializer
    of that shape or with none. *)
Theorem operations_build_well_formed_values :
  (forall what op a b r,
      Value_arith what (DynamicArray_arith what op) a b = Ok r -> well_formed r)
  /\ (forall v parameters r, applyAppend v parameters = Ok r -> well_formed r)
  /\ (forall v parameters r, applySqrt v parameters = Ok r -> well_formed r)
  /\ (forall v parameters r, applySize v parameters = Ok r -> well_formed r)
  /\ (forall v start finish r, slice v start finish = Ok r -> well_formed r)
  /\ (forall param1 r, range_of param1 = Ok r -> well_formed r)
  /\ (forall descriptor v r,
        match v with Some other => well_formed other | None => True end ->
        fromDescriptor descriptor v = Ok r -> well_formed r).
Proof.
  split; [exact Value_arith_well_formed |].
  split; [exact applyAppend_well_formed |].
  split; [exact applySqrt_well_formed |].
  split; [exact applySize_well_formed |].
  split; [exact slice_well_formed |].
  split; [exact range_of_well_formed |].
  exact fromDescriptor_well_formed.
Qed.

(** ** Scopes: lookups and updates *)

(** X8. A lookup succeeds exactly for the names that [hasRecursive]
    reports, and throws [Undefined variable: name] for every other name. *)
Theorem Scope_get_hasRecursive (h : Scopes) (id : nat) (name : string) :
  (Scope_hasRecursive h id name = true <-> exists b, Scope_get h id name = Ok b)
  /\ (Scope_hasRecursive h id name = false ->
      Scope_get h id name = Throw ("Undefined variable: " +:+ name)).
Proof.
  revert id. induction h as [| s h IH]; intros id; simpl.
  - split; [split; [discriminate | intros [b Hb]; discriminate] | reflexivity].
  - destruct (length h =? id)%nat; [| apply IH].
    unfold Scope_has. destruct (variables s !! name) as [b |].
    + split; [split; [intros _; exists b; reflexivity | reflexivity] | discriminate].
    + destruct (parent s) as [p |]; [apply IH |].
      split; [split; [discriminate | intros [b Hb]; discriminate] | reflexivity].
Qed.

Lemma Scope_get_hasRecursive_witness :
  Scope_hasRecursive [mkScope None ∅] 0 "x" = false
  /\ Scope_get [mkScope None ∅] 0 "x" = Throw "Undefined variable: x".
Proof.
  assert (H : Scope_hasRecursive [mkScope None ∅] 0 "x" = false) by reflexivity.
  split; [exact H |].
  exact (proj2 (Scope_get_hasRecursive [mkScope None ∅] 0 "x") H).
Defined.



Lemma Scope_define_absent (h : Scopes) (id : nat) (name : string) (b : Binding) :
  (length h <= id)%nat -> Scope_define h id name b = h.
Proof.
  induction h as [| s h IH]; simpl; [reflexivity |]. intros Hlen.
  destruct (Nat.eqb_spec (length h) id); [lia |].
  rewrite IH by lia. reflexivity.
Qed.

Lemma Scope_get_below_define (h : Scopes) (id id' : nat) (name name' : string)
    (b : Binding) :
  (id' < id)%nat ->
  Scope_get (Scope_define h id name b) id' name' = Scope_get h id' name'.
Proof.
  intros Hlt. induction h as [| s h IH]; simpl; [reflexivity |].
  destruct (Nat.eqb_spec (length h) id) as [E | E]; simpl.
  - destruct (Nat.eqb_spec (length h) id'); [lia | reflexivity].
  - rewrite Scope_define_length.
    destruct (Nat.eqb_spec (length h) id') as [E' | E']; [| exact IH].
    rewrite Scope_define_absent by lia. reflexivity.
Qed.

Lemma Scope_get_other_define (h : Scopes) (id id' : nat) (name name' : string)
    (b : Binding) :
  name' <> name ->
  Scope_get (Scope_define h id name b) id' name' = Scope_get h id' name'.
Proof.
  intros Hne. revert id'. induction h as [| s h IH]; intros id'; simpl; [reflexivity |].
  destruct (Nat.eqb_spec (length h) id) as [E | E]; simpl.
  - destruct (length h =? id')%nat; [| reflexivity].
    unfold emplace. destruct (Scope_has s name); [reflexivity |]. simpl.
    rewrite lookup_insert_ne by congruence. reflexivity.
  - rewrite Scope_define_length.
    destruct (length h =? id')%nat; [| apply IH].
    destruct (variables s !! name'); [reflexivity |].
    destruct (parent s); [apply IH | reflexivity].
Qed.

(** X10. Defining a name that a scope does not have binds it there: a
    lookup of the name from that scope finds the new binding, also when an
    enclosing scope binds the same name. Lookups from the scopes created
    before it, and lookups of other names from any scope, are unchanged. *)
Theorem Scope_define_shadows (h : Scopes) (id : nat) (s : Scope) (name : string)
    (b : Binding) :
  lock h id = Some s ->
  Scope_has s name = false ->
  Scope_get (Scope_define h id name b) id name = Ok b
  /\ (forall id' name', (id' < id)%nat ->
        Scope_get (Scope_define h id name b) id' name' = Scope_get h id' name')
  /\ (forall id' name', name' <> name ->
        Scope_get (Scope_define h id name b) id' name' = Scope_get h id' name').
Proof.
  intros Hlock Hhas. split; [| split].
  - induction h as [| t h IH]; simpl in *; [discriminate |].
    destruct (length h =? id)%nat eqn:E.
    + injection Hlock as ->. simpl. rewrite E. unfold emplace. rewrite Hhas. simpl.
      rewrite lookup_insert_eq. reflexivity.
    + simpl. rewrite Scope_define_length, E. apply IH. exact Hlock.
  - intros id' name' Hlt. apply Scope_get_below_define. exact Hlt.
  - intros id' name' Hne. apply Scope_get_other_define. exact Hne.
Qed.

Lemma Scope_define_shadows_witness :
  let h := [mkScope (Some 0%nat) ∅; mkScope None {[ "x" := BValue empty_Value ]}] in
  let b := BValue (mkValue (VVector [1]) 1) in
  (lock h 1 = Some (mkScope (Some 0%nat) ∅)
   /\ Scope_has (mkScope (Some 0%nat) ∅) "x" = false)
  /\ Scope_get (Scope_define h 1 "x" b) 1 "x" = Ok b
  /\ Scope_get (Scope_define h 1 "x" b) 0 "x" = Scope_get h 0 "x".
Proof.
  intros h b.
  assert (H1 : lock h 1 = Some (mkScope (Some 0%nat) ∅)) by reflexivity.
  assert (H2 : Scope_has (mkScope (Some 0%nat) ∅) "x" = false) by reflexivity.
  split; [split; assumption |].
  pose proof (Scope_define_shadows h 1 _ "x" b H1 H2) as (Hget & Hbelow & _).
  split; [exact Hget |]. apply Hbelow. lia.
Defined.

(** ** The lexer: termination and single tokens *)

Lemma interpretEscapes_returns_or_throws (raw : list ascii) :
  returns_or_throws (interpretEscapes raw).
Proof.
  assert (H : forall n raw, (length raw <= n)%nat ->
                            returns_or_throws (interpretEscapes raw)).
  { clear raw. induction n as [| n IH]; intros [| c rest] Hlen; simpl in *;
      try exact I; try lia.
    destruct (Ascii.eqb c backslash).
    - destruct rest as [| next rest']; [exact I |].
      assert (Hrest : returns_or_throws (interpretEscapes rest'))
        by (apply IH; simpl in Hlen; lia).
      destruct (interpretEscapes rest'); try contradiction;
        repeat (match goal with
                | |- context [if ?b then _ else _] => destruct b
                end; simpl; try exact I).
    - assert (Hrest : returns_or_throws (interpretEscapes rest))
        by (apply IH; lia).
      destruct (interpretEscapes rest); try contradiction; exact I. }
  apply (H (length raw)). lia.
Qed.

Lemma tokenize_loop_returns_or_throws (fuel : nat) (code : list ascii) (i : nat)
    (char_num line_num : Z) (result : list Token) :
  (length code - i < fuel)%nat ->
  returns_or_throws (tokenize_loop fuel code i char_num line_num result).
Proof.
  revert i char_num line_num result.
  induction fuel as [| fuel IH]; intros i char_num line_num result Hfuel; [lia |].
  simpl. destruct (code !! i) as [c |] eqn:Hc; [| exact I].
  assert (Hi : (i < length code)%nat) by (apply lookup_lt_is_Some; eauto).
  destruct (isalpha c) eqn:Halpha.
  { unfold collectWhile. rewrite (drop_lookup_cons code i c Hc).
    rewrite collect_first by (unfold isalnum; rewrite Halpha; reflexivity).
    apply IH. simpl. lia. }
  destruct (isdigit c
            || (Ascii.eqb c "-"%char
                && match code !! S i with Some d => isdigit d | None => false end)).
  { unfold collectWhile. apply IH. lia. }
  destruct (Ascii.eqb c dquote).
  { destruct (string_body (drop (S i) code) c) as [string_lit closed].
    destruct closed; simpl; [| exact I].
    pose proof (interpretEscapes_returns_or_throws string_lit) as He.
    destruct (interpretEscapes string_lit); try contradiction; simpl; [| exact I].
    apply IH. lia. }
  destruct (Ascii.eqb c newline); [apply IH; lia |].
  destruct (is_symbol c); [apply IH; lia |].
  destruct (isspace c); simpl; [apply IH; lia | exact I].
Qed.

(** X11. The lexer terminates on every input: it returns the tokens or
    throws, whatever the text is. *)
Theorem tokenize_returns_or_throws (code : string) :
  returns_or_throws (tokenize code).
Proof. unfold tokenize. apply tokenize_loop_returns_or_throws. lia. Qed.

Lemma collect_all (predicate : ascii -> bool) (l : list ascii) :
  forallb predicate l = true -> collect predicate l = l.
Proof.
  induction l as [| c l IH]; simpl; [reflexivity |].
  destruct (predicate c); simpl; [| discriminate].
  intros H. rewrite (IH H). reflexivity.
Qed.

Lemma tokenize_loop_end (fuel : nat) (code : list ascii) (i : nat)
    (char_num line_num : Z) (result : list Token) :
  (length code <= i)%nat ->
  tokenize_loop (S fuel) code i char_num line_num result = Ok result.
Proof.
  intros Hi. simpl. rewrite (lookup_ge_None_2 code i Hi). reflexivity.
Qed.

Lemma tokenize_loop_alpha (fuel : nat) (code : list ascii) (i : nat)
    (char_num line_num : Z) (result : list Token) (c : ascii) :
  code !! i = Some c -> isalpha c = true ->
  tokenize_loop (S fuel) code i char_num line_num result
  = tokenize_loop fuel code (S (i + length (collect isalnum (drop i code)) - 1))
      (char_num - 1 + Z.of_nat (length (collect isalnum (drop i code))) - 1 + 1) line_num
      (result ++ [mkToken IDENTIFIER
                    (string_of_list_ascii (collect isalnum (drop i code)))]).
Proof. intros Hc Ha. simpl. rewrite Hc, Ha. reflexivity. Qed.

(** X12. A letter followed by letters and digits, on its own, is one
    Identifier token that carries the text; the words [fn], [let], [if] and
    the like get no token type of their own. *)
Theorem tokenize_identifier (c : ascii) (rest : string) :
  isalpha c = true ->
  forallb isalnum (list_ascii_of_string rest) = true ->
  tokenize (String c rest) = Ok [mkToken IDENTIFIER (String c rest)].
Proof.
  intros Hc Hrest. unfold tokenize.
  change (list_ascii_of_string (String c rest)) with (c :: list_ascii_of_string rest).
  set (l := list_ascii_of_string rest) in *.
  rewrite (tokenize_loop_alpha _ (c :: l) 0 _ _ _ c eq_refl Hc).
  rewrite drop_0.
  rewrite collect_all
    by (simpl; unfold isalnum at 1; rewrite Hc; simpl; exact Hrest).
  cbn [length].
  rewrite tokenize_loop_end by (simpl; lia).
  simpl. unfold l. rewrite string_of_list_ascii_of_string. reflexivity.
Qed.

Lemma tokenize_identifier_witness :
  (isalpha "w"%char = true
   /\ forallb isalnum (list_ascii_of_string "hile") = true)
  /\ tokenize "while" = Ok [mkToken IDENTIFIER "while"].
Proof.
  split; [split; reflexivity |].
  exact (tokenize_identifier "w"%char "hile" eq_refl eq_refl).
Defined.

(** The lexer reads the text from the current index on: running it at
    index [i] is running it at the start of the text without its first [i]
    characters. *)
Lemma tokenize_loop_drop (fuel : nat) (code : list ascii) (i : nat)
    (char_num line_num : Z) (result : list Token) :
  tokenize_loop fuel code i char_num line_num result
  = tokenize_loop fuel (drop i code) 0 char_num line_num result.
Proof.
  revert code i char_num line_num result.
  induction fuel as [| fuel IH]; intros code i char_num line_num result; [reflexivity |].
  simpl. rewrite lookup_drop, Nat.add_0_r.
  destruct (code !! i) as [c |] eqn:Hc; [| reflexivity].
  rewrite lookup_drop, Nat.add_1_r.
  destruct (isalpha c) eqn:Halpha.
  { unfold collectWhile. rewrite drop_0.
    rewrite (drop_lookup_cons code i c Hc).
    rewrite collect_first by (unfold isalnum; rewrite Halpha; reflexivity).
    cbn [length]. rewrite <- (drop_lookup_cons code i c Hc).
    rewrite IH. rewrite (IH (drop i code)). rewrite drop_drop.
    f_equal; try lia. f_equal. lia. }
  destruct (isdigit c
            || (Ascii.eqb c "-"%char
                && match code !! S i with Some d => isdigit d | None => false end)).
  { unfold collectWhile. rewrite drop_drop, Nat.add_1_r.
    rewrite IH. rewrite (IH (drop i code)). rewrite drop_drop.
    f_equal; try lia. f_equal. lia. }
  destruct (Ascii.eqb c dquote).
  { rewrite drop_drop, Nat.add_1_r.
    destruct (string_body (drop (S i) code) c) as [string_lit closed].
    destruct closed; simpl; [| reflexivity].
    destruct (interpretEscapes string_lit); simpl; try reflexivity.
    rewrite IH. rewrite (IH (drop i code)). rewrite drop_drop.
    f_equal. f_equal. lia. }
  destruct (Ascii.eqb c newline).
  { rewrite IH. rewrite (IH (drop i code)). rewrite drop_drop, Nat.add_1_r. reflexivity. }
  destruct (is_symbol c).
  { rewrite IH. rewrite (IH (drop i code)). rewrite drop_drop, Nat.add_1_r. reflexivity. }
  destruct (isspace c); simpl; [| reflexivity].
  rewrite IH. rewrite (IH (drop i code)). rewrite drop_drop, Nat.add_1_r. reflexivity.
Qed.

Lemma string_body_closed (body rest : list ascii) (prev : ascii) :
  forallb (fun c => negb (Ascii.eqb c dquote) && negb (Ascii.eqb c backslash)) body = true ->
  Ascii.eqb prev backslash = false ->
  string_body (body ++ dquote :: rest) prev = (body, true).
Proof.
  revert prev. induction body as [| c body IH]; intros prev Hbody Hprev; simpl in *.
  - rewrite Hprev. reflexivity.
  - apply andb_prop in Hbody as [Hc Hbody]. apply andb_prop in Hc as [Hq Hb].
    rewrite Hq. simpl. rewrite (IH c Hbody) by (destruct (Ascii.eqb c backslash);
      [discriminate | reflexivity]). reflexivity.
Qed.

Lemma string_body_open (s : list ascii) (prev : ascii) :
  forallb (fun c => negb (Ascii.eqb c dquote)) s = true ->
  string_body s prev = (s, false).
Proof.
  revert prev. induction s as [| c s IH]; intros prev Hs; simpl in *; [reflexivity |].
  apply andb_prop in Hs as [Hc Hs]. rewrite Hc. simpl. rewrite (IH c Hs). reflexivity.
Qed.

Lemma interpretEscapes_plain (raw : list ascii) :
  forallb (fun c => negb (Ascii.eqb c backslash)) raw = true ->
  interpretEscapes raw = Ok raw.
Proof.
  induction raw as [| c raw IH]; simpl; [reflexivity |].
  intros H. apply andb_prop in H as [Hc H].
  destruct (Ascii.eqb c backslash); [discriminate |].
  rewrite (IH H). reflexivity.
Qed.

Lemma tokenize_loop_quote (fuel : nat) (rest : list ascii)
    (char_num line_num : Z) (result : list Token) :
  tokenize_loop (S fuel) (dquote :: rest) 0 char_num line_num result
  = let '(string_lit, closed) := string_body rest dquote in
    if negb closed then
      Throw ("Unexpected end of file in String Literal at line "
             +:+ to_string_Z line_num +:+ ", char "
             +:+ to_string_Z (char_num + 1 + Z.of_nat (length string_lit))
             +:+ ". Expected " +:+ string_of_char dquote)
    else
      let* decoded := interpretEscapes string_lit in
      tokenize_loop fuel (drop (S (length string_lit)) rest) 0
        (char_num + 1 + Z.of_nat (length string_lit) + 1) line_num
        (result ++ [mkToken STRING_LIT (string_of_list_ascii decoded)]).
Proof.
  simpl. rewrite drop_0.
  destruct (string_body rest dquote) as [string_lit closed].
  destruct closed; simpl; [| reflexivity].
  destruct (interpretEscapes string_lit); simpl; try reflexivity.
  rewrite tokenize_loop_drop. reflexivity.
Qed.

Lemma list_ascii_of_string_app (a b : string) :
  list_ascii_of_string (a +:+ b) = list_ascii_of_string a ++ list_ascii_of_string b.
Proof. induction a as [| c a IH]; simpl; [reflexivity | rewrite IH; reflexivity]. Qed.

(** X13. A string literal whose text holds neither a quote nor a
    backslash, on its own, is one StringLit token that carries the text
    between the quotes. *)
Theorem tokenize_string_literal (s : string) :
  forallb (fun c => negb (Ascii.eqb c dquote) && negb (Ascii.eqb c backslash))
    (list_ascii_of_string s) = true ->
  tokenize (quoted s) = Ok [mkToken STRING_LIT s].
Proof.
  intros Hs. unfold tokenize, quoted.
  assert (Hcode : list_ascii_of_string (string_of_char dquote +:+ s +:+ string_of_char dquote)
                  = dquote :: list_ascii_of_string s ++ [dquote]).
  { rewrite !list_ascii_of_string_app. reflexivity. }
  rewrite Hcode. set (l := list_ascii_of_string s) in *.
  cbn [length]. rewrite tokenize_loop_quote.
  rewrite (string_body_closed l [] dquote Hs eq_refl). cbn [negb].
  rewrite interpretEscapes_plain.
  - cbn [obind]. rewrite length_app. cbn [length].
    destruct (length l + 1)%nat eqn:E; [lia |].
    rewrite tokenize_loop_end.
    + simpl. unfold l. rewrite string_of_list_ascii_of_string. reflexivity.
    + rewrite length_drop, length_app. simpl. lia.
  - clear -Hs. induction l as [| c l IH]; simpl in *; [reflexivity |].
    apply andb_prop in Hs as [Hc Hs]. apply andb_prop in Hc as [_ Hb].
    rewrite Hb, (IH Hs). reflexivity.
Qed.

Lemma tokenize_string_literal_witness :
  forallb (fun c => negb (Ascii.eqb c dquote) && negb (Ascii.eqb c backslash))
    (list_ascii_of_string "Hi there") = true
  /\ tokenize (quoted "Hi there") = Ok [mkToken STRING_LIT "Hi there"].
Proof.
  split; [reflexivity |].
  exact (tokenize_string_literal "Hi there" eq_refl).
Defined.

(** X14. A string literal that is never closed makes the lexer throw at
    the end of the text; the message reports the line on which the lexer
    was when the literal began and the column counted from there, the ends
    of line inside the literal not being counted as such. *)
Theorem tokenize_unterminated_string (s : string) :
  forallb (fun c => negb (Ascii.eqb c dquote)) (list_ascii_of_string s) = true ->
  tokenize (String dquote s)
  = Throw ("Unexpected end of file in String Literal at line 1, char "
           +:+ to_string_Z (2 + Z.of_nat (String.length s))
           +:+ ". Expected " +:+ string_of_char dquote).
Proof.
  intros Hs. unfold tokenize.
  change (list_ascii_of_string (String dquote s)) with (dquote :: list_ascii_of_string s).
  cbn [length]. rewrite tokenize_loop_quote.
  rewrite (string_body_open _ dquote Hs). cbn [negb].
  replace (length (list_ascii_of_string s)) with (String.length s).
  - reflexivity.
  - clear Hs. induction s as [| c s IH]; simpl; [reflexivity | rewrite IH; reflexivity].
Qed.

Lemma tokenize_unterminated_string_witness :
  forallb (fun c => negb (Ascii.eqb c dquote)) (list_ascii_of_string "Hi") = true
  /\ tokenize (String dquote "Hi")
     = Throw ("Unexpected end of file in String Literal at line 1, char 4. Expected "
              +:+ string_of_char dquote).
Proof.
  split; [reflexivity |].
  exact (tokenize_unterminated_string "Hi" eq_refl).
Defined.

Lemma blank_classes (c : ascii) :
  is_blank c = true ->
  isalpha c = false /\ isdigit c = false /\ Ascii.eqb c "-"%char = false
  /\ Ascii.eqb c dquote = false /\ Ascii.eqb c newline = false
  /\ is_symbol c = false /\ isspace c = true.
Proof.
  destruct c as [[] [] [] [] [] [] [] []]; intros H; try discriminate H;
    repeat split.
Qed.




(** ** Calls *)

Lemma char_of_int_of_char (c : ascii) : char_of_int (int_of_char c) = c.
Proof. destruct c as [[] [] [] [] [] [] [] []]; reflexivity. Qed.

Lemma valueToString_stringToInts (s : string) (n : N) :
  valueToString (mkValue (VVector (stringToInts s)) n) = s.
Proof.
  unfold valueToString, stringToInts, fromValue. simpl.
  rewrite map_map. rewrite <- (string_of_list_ascii_of_string s) at 2.
  f_equal. induction (list_ascii_of_string s) as [| c l IH]; simpl; [reflexivity |].
  rewrite char_of_int_of_char, IH. reflexivity.
Qed.

(** X16. [print] applied to a string literal writes exactly the bytes of
    the literal to the standard output, bytes above 127 included, and
    returns the empty array; nothing else of the state changes. This holds
    wherever no function named [print] is visible. *)
Theorem print_string_literal (fs : string -> option string) (rec : Evaluator)
    (s : string) (scope : nat) (st : State) :
  lock (scopes st) scope <> None ->
  Scope_hasRecursive (scopes st) scope "print" = false ->
  interpretFunctionCall fs rec
    (mkFunctionCall "print" [Expression_of_ints (stringToInts s)]) scope st
  = (Ok empty_Value, set_cout (cout st +:+ s) st).
Proof.
  intros Hlock Hprint.
  unfold interpretFunctionCall, locked.
  destruct (lock (scopes st) scope) eqn:E; [| contradiction].
  unfold bind at 1. unfold get_scopes at 1. cbv beta iota. rewrite Hprint.
  cbn [String.eqb Ascii.eqb Bool.eqb andb]. 
  unfold interpretPrint, interpretExpression, Expression_of_ints, interpretArray, locked.
  unfold bind, ret, applyPostfix, foldM, write_cout. rewrite E. simpl.
  rewrite valueToString_stringToInts. reflexivity.
Qed.

Lemma print_string_literal_witness :
  let st := set_scopes [mkScope None ∅] (initial_State []) in
  (lock (scopes st) 0 <> None /\ Scope_hasRecursive (scopes st) 0 "print" = false)
  /\ interpretFunctionCall no_files (evaluator no_files 0)
       (mkFunctionCall "print" [Expression_of_ints (stringToInts "Hi")]) 0 st
     = (Ok empty_Value, set_cout (cout st +:+ "Hi") st).
Proof.
  intros st.
  assert (H1 : lock (scopes st) 0 <> None) by discriminate.
  assert (H2 : Scope_hasRecursive (scopes st) 0 "print" = false) by reflexivity.
  split; [split; assumption |].
  exact (print_string_literal no_files (evaluator no_files 0) "Hi" 0 st H1 H2).
Defined.

(** X17. A call of a name that is neither visible from the scope of the
    call nor one of the built-in functions throws [Undefined function
    'name']; its arguments are not evaluated and the state is unchanged. *)
Theorem undefined_function_call (fs : string -> option string) (rec : Evaluator)
    (name : string) (parameters : list ExpressionNode) (scope : nat) (st : State) :
  lock (scopes st) scope <> None ->
  Scope_hasRecursive (scopes st) scope name = false ->
  ~ In name builtin_names ->
  interpretFunctionCall fs rec (mkFunctionCall name parameters) scope st
  = (Throw ("Undefined function '" +:+ name +:+ "'"), st).
Proof.
  intros Hlock Hname Hbuiltin.
  unfold interpretFunctionCall, locked.
  destruct (lock (scopes st) scope) eqn:E; [| contradiction].
  unfold bind at 1. unfold get_scopes at 1. cbv beta iota. rewrite Hname.
  unfold builtin_names in Hbuiltin. simpl in Hbuiltin.
  repeat match goal with
         | |- context [String.eqb name ?b] =>
             destruct (String.eqb_spec name b) as [-> | _];
             [exfalso; apply Hbuiltin; tauto |]
         end.
  reflexivity.
Qed.

Lemma undefined_function_call_witness :
  let st := set_scopes [mkScope None ∅] (initial_State []) in
  (lock (scopes st) 0 <> None /\ Scope_hasRecursive (scopes st) 0 "g" = false
   /\ ~ In "g" builtin_names)
  /\ interpretFunctionCall no_files (evaluator no_files 0) (mkFunctionCall "g" []) 0 st
     = (Throw "Undefined function 'g'", st).
Proof.
  intros st.
  assert (H1 : lock (scopes st) 0 <> None) by discriminate.
  assert (H2 : Scope_hasRecursive (scopes st) 0 "g" = false) by reflexivity.
  assert (H3 : ~ In "g" builtin_names).
  { unfold builtin_names. simpl. intros H.
    repeat (destruct H as [H | H]; [discriminate H |]). exact H. }
  split; [repeat split; assumption |].
  exact (undefined_function_call no_files (evaluator no_files 0) "g" [] 0 st H1 H2 H3).
Defined.

Lemma Scope_get_Ok_hasRecursive (h : Scopes) (id : nat) (name : string) (b : Binding) :
  Scope_get h id name = Ok b -> Scope_hasRecursive h id name = true.
Proof.
  revert id. induction h as [| s h IH]; intros id; simpl; [discriminate |].
  destruct (length h =? id)%nat; [| apply IH].
  unfold Scope_has. destruct (variables s !! name); [reflexivity |].
  destruct (parent s); [apply IH | discriminate].
Qed.

Lemma function_at_hasRecursive (h : Scopes) (id : nat) (name : string)
    (f : FunctionDefinitionNode) :
  function_at h id name = Ok f -> Scope_hasRecursive h id name = true.
Proof.
  unfold function_at. destruct (Scope_get h id name) as [b | | | | |] eqn:E;
    simpl; try discriminate.
  intros _. apply (Scope_get_Ok_hasRecursive h id name b E).
Qed.

(** X18. A call of a user-defined function whose number of arguments is
    not the number of its parameters throws [Function f expected n
    argument(s) but received m], after the arguments have been evaluated and
    before anything of the body runs. *)
Theorem call_with_wrong_arity (fs : string -> option string) (rec : Evaluator)
    (name : string) (parameters : list ExpressionNode) (parent : nat) (st st' : State)
    (f0 f : FunctionDefinitionNode) (arguments : list Value) :
  lock (scopes st) parent <> None ->
  function_at (scopes st) parent name = Ok f0 ->
  interpretParameters rec parameters parent st = (Ok arguments, st') ->
  function_at (scopes st') parent name = Ok f ->
  length (getParams f) <> length arguments ->
  fst (interpretFunctionCall fs rec (mkFunctionCall name parameters) parent st)
  = Throw ("Function " +:+ fn_identifier f +:+ " expected "
           +:+ to_string_N (N.of_nat (length (getParams f)))
           +:+ " argument(s) but received "
           +:+ to_string_N (N.of_nat (length arguments))).
Proof.
  intros Hlock Hf0 Hargs Hf Hlen.
  unfold interpretFunctionCall, locked.
  destruct (lock (scopes st) parent) eqn:E; [| contradiction].
  unfold bind at 1. unfold get_scopes at 1. cbv beta iota.
  rewrite (function_at_hasRecursive _ _ _ _ Hf0).
  unfold bind at 1. unfold lift at 1. rewrite Hf0. cbv beta iota.
  unfold bind at 1. rewrite Hargs. cbv beta iota.
  unfold bind at 1. unfold get_scopes at 1. cbv beta iota.
  unfold bind at 1. unfold lift at 1. rewrite Hf. cbv beta iota.
  unfold with_Scope, bind, new_Scope. cbv beta iota.
  destruct (Nat.eqb_spec (length (getParams f)) (length arguments)); [contradiction |].
  reflexivity.
Qed.

Lemma call_with_wrong_arity_witness :
  let st := set_scopes [mkScope None {[ "f" := BFunction sample_f ]}] (initial_State []) in
  fst (interpretFunctionCall no_files (evaluator no_files 1) (mkFunctionCall "f" []) 0 st)
  = Throw "Function f expected 1 argument(s) but received 0".
Proof.
  intros st.
  assert (H1 : lock (scopes st) 0 <> None) by discriminate.
  assert (H2 : function_at (scopes st) 0 "f" = Ok sample_f) by reflexivity.
  assert (H3 : interpretParameters (evaluator no_files 1) [] 0 st = (Ok [], st))
    by reflexivity.
  assert (H4 : length (getParams sample_f) <> length (@nil Value))
    by (simpl; lia).
  exact (call_with_wrong_arity no_files (evaluator no_files 1) "f" [] 0 st st
           sample_f sample_f [] H1 H2 H3 H2 H4).
Defined.

(** ** The [for] loop *)

Lemma hasRecursive_child (h : Scopes) (parentScope : nat) (x name : string)
    (b : Binding) :
  x <> name ->
  Scope_hasRecursive (mkScope (Some parentScope) {[ x := b ]} :: h) (length h) name
  = Scope_hasRecursive h parentScope name.
Proof.
  intros Hne. simpl. rewrite Nat.eqb_refl. unfold Scope_has. simpl.
  rewrite lookup_singleton_ne by exact Hne. reflexivity.
Qed.

Lemma string_append_empty_r (s : string) : s +:+ EmptyString = s.
Proof.
  induction s as [| c s IH]; [reflexivity |].
  change (String c (s +:+ EmptyString) = String c s). rewrite IH. reflexivity.
Qed.

Lemma string_append_assoc (a b c : string) : (a +:+ b) +:+ c = a +:+ (b +:+ c).
Proof.
  induction a as [| x a IH]; [reflexivity |].
  change (String x ((a +:+ b) +:+ c) = String x (a +:+ (b +:+ c))). rewrite IH. reflexivity.
Qed.

(** One turn of [for x in ... { print(x); }]: the element is written and
    the scope of the turn is gone. *)
Lemma for_print_turn (fs : string -> option string) (fuel : nat) (x : string)
    (parentScope : nat) (element_value : Z) (st : State) :
  x <> "print" ->
  Scope_hasRecursive (scopes st) parentScope "print" = false ->
  with_Scope (Some parentScope)
    (fun scope =>
       run define scope x (BValue (mkValue (VDynamicArray [element_value]) 1));
       rec_Body (evaluator fs (S fuel)) [print_statement x] scope) st
  = (Ok None, set_cout (cout st +:+ string_of_char (char_of_int element_value)) st).
Proof.
  intros Hx Hprint.
  unfold with_Scope, new_Scope. unfold bind at 1. cbv beta iota.
  unfold bind at 1. unfold bind at 1. unfold define at 1. cbv beta iota.
  cbn [scopes set_scopes]. rewrite Scope_define_top.
  unfold emplace, Scope_has. cbn [variables]. rewrite lookup_empty.
  cbn [parent variables]. rewrite insert_empty.
  rewrite rec_Body_S. unfold interpretBody, print_statement, first_return.
  unfold bind at 1. unfold interpretStatement. unfold bind at 1.
  unfold interpretFunctionCall, locked. cbn [scopes set_scopes].
  rewrite lock_top. unfold bind at 1. unfold get_scopes at 1. cbv beta iota.
  cbn [scopes set_scopes].
  rewrite (hasRecursive_child (scopes st) parentScope x "print" _ Hx), Hprint.
  cbn [String.eqb Ascii.eqb Bool.eqb andb].
  unfold interpretPrint, identifier_expression, interpretExpression, interpretArray, locked.
  unfold bind at 1. unfold bind at 1. cbn [scopes set_scopes]. rewrite lock_top.
  unfold bind at 1. unfold get_scopes at 1. cbv beta iota. cbn [scopes set_scopes].
  unfold lift at 1. unfold value_at. rewrite Scope_get_top. cbn [variables].
  rewrite lookup_singleton_eq. cbn [obind].
  unfold applyPostfix, foldM, ret, bind, write_cout, release_Scope. simpl.
  destruct st; reflexivity.
Qed.

(** X19. [for x in e { print(x); }] writes the elements of the value of
    [e] to the standard output as characters, in order: its effect is the
    effect of evaluating [e] followed by that of printing the value. Every
    turn runs in a scope of its own that is gone after the turn, and the
    loop yields no return value. This holds wherever no function named
    [print] is visible and [x] is not called [print]. *)
Theorem for_loop_prints_elements (fs : string -> option string) (fuel : nat)
    (x : string) (e : ExpressionNode) (parentScope : nat) (st st1 : State) (v : Value) :
  x <> "print" ->
  interpretExpression (evaluator fs (S fuel)) e parentScope st = (Ok v, st1) ->
  Scope_hasRecursive (scopes st1) parentScope "print" = false ->
  interpretForLoop (evaluator fs (S fuel)) (mkForLoop x e [print_statement x])
    parentScope st
  = (Ok None, set_cout (cout st1 +:+ valueToString v) st1).
Proof.
  intros Hx He Hprint. unfold interpretForLoop. unfold bind at 1. rewrite He.
  unfold valueToString. generalize (fromValue v). intros l.
  clear He. revert st1 Hprint. induction l as [| z l IH]; intros st1 Hprint.
  - simpl. unfold ret. rewrite string_append_empty_r.
    destruct st1; reflexivity.
  - cbn [first_return]. unfold bind at 1.
    rewrite (for_print_turn fs fuel x parentScope z st1 Hx Hprint).
    rewrite IH by exact Hprint.
    unfold set_cout. cbn [scopes interpretedFiles cout cerr keys opened cleared map
                            string_of_list_ascii].
    rewrite string_append_assoc. reflexivity.
Qed.

Lemma for_loop_prints_elements_witness :
  let st := set_scopes [mkScope None ∅] (initial_State []) in
  ("x" <> "print"
   /\ interpretExpression (evaluator no_files 1) (Expression_of_ints [72; 105]) 0 st
      = (Ok (mkValue (VVector [72; 105]) 2), st)
   /\ Scope_hasRecursive (scopes st) 0 "print" = false)
  /\ interpretForLoop (evaluator no_files 1)
       (mkForLoop "x" (Expression_of_ints [72; 105]) [print_statement "x"]) 0 st
     = (Ok None, set_cout (cout st +:+ "Hi") st).
Proof.
  intros st.
  assert (H1 : "x" <> "print") by discriminate.
  assert (H2 : interpretExpression (evaluator no_files 1) (Expression_of_ints [72; 105]) 0 st
               = (Ok (mkValue (VVector [72; 105]) 2), st)) by reflexivity.
  assert (H3 : Scope_hasRecursive (scopes st) 0 "print" = false) by reflexivity.
  split; [repeat split; assumption |].
  exact (for_loop_prints_elements no_files 0 "x" (Expression_of_ints [72; 105]) 0 st st
           (mkValue (VVector [72; 105]) 2) H1 H2 H3).
Defined.

(** ** Loading a file *)

Lemma forM_statements (fs : string -> option string) (fuel : nat) (scope : nat)
    (root : RootNode) (st : State) :
  forallb is_statement root = true ->
  forM (fun value =>
          match value with
          | RFunctionDefinition arg => interpretFunctionDefinition arg scope
          | RUse arg => interpretUse fs fuel arg scope
          | _ => ret tt
          end)
    root st
  = (Ok tt, st).
Proof.
  induction root as [| item root IH]; simpl; [reflexivity |].
  intros H. apply andb_prop in H as [Hitem Hroot].
  destruct item; try discriminate Hitem; unfold bind, ret; simpl; apply IH, Hroot.
Qed.

(** X20. Statements at the top level of a file are parsed and then
    ignored: a program that consists of variable bindings and function calls
    only (no [fn], no [use]) opens its file, executes nothing, prints
    nothing and ends with status 0. *)
Theorem top_level_statements_are_ignored (fs : string -> option string) (fuel : nat)
    (path content : string) (tokens : list Token) (root : RootNode)
    (args : list string) (keys : list ascii) :
  fs path = Some content ->
  tokenize content = Ok tokens ->
  RootNode_parse fuel tokens = Ok root ->
  forallb is_statement root = true ->
  run_program fs (S fuel) path args keys
  = (Ok tt, set_opened [path] (set_scopes [mkScope None ∅] (initial_State keys))).
Proof.
  intros Hfs Htokens Hroot Hstatements.
  unfold run_program, interpret.
  unfold bind at 1. unfold new_Scope at 1. cbv beta iota.
  unfold bind at 1. cbv beta iota. unfold bind at 1.
  rewrite (interpretFile_found fs fuel path content _ _ Hfs).
  unfold bind at 1. unfold lift at 1. rewrite Htokens. cbv beta iota.
  unfold bind at 1. unfold lift at 1. rewrite Hroot. cbv beta iota.
  rewrite (forM_statements fs fuel _ root _ Hstatements).
  reflexivity.
Qed.

Lemma top_level_statements_are_ignored_witness :
  exists tokens root,
    (one_file "main.ints" statements_only "main.ints" = Some statements_only
     /\ tokenize statements_only = Ok tokens
     /\ RootNode_parse 12 tokens = Ok root
     /\ forallb is_statement root = true)
    /\ run_program (one_file "main.ints" statements_only) 13 "main.ints" [] []
       = (Ok tt, set_opened ["main.ints"]
                   (set_scopes [mkScope None ∅] (initial_State []))).
Proof.
  eexists. eexists.
  assert (H1 : one_file "main.ints" statements_only "main.ints" = Some statements_only)
    by reflexivity.
  split; [split; [exact H1 | split; [vm_compute; reflexivity
                                    | split; [vm_compute; reflexivity | reflexivity]]] |].
  exact (top_level_statements_are_ignored (one_file "main.ints" statements_only) 12
           "main.ints" statements_only _ _ [] [] H1 eq_refl eq_refl eq_refl).
Defined.



(** ** What evaluation does to the state *)

Lemma only_appends_refl (st : State) : only_appends st st.
Proof.
  repeat split; try reflexivity.
  - exists EmptyString. symmetry. apply string_append_empty_r.
  - exists []. reflexivity.
  - exists []. symmetry. apply app_nil_r.
Qed.

Lemma only_appends_trans (st1 st2 st3 : State) :
  only_appends st1 st2 -> only_appends st2 st3 -> only_appends st1 st3.
Proof.
  intros (E1 & F1 & [o1 O1] & [k1 K1] & [p1 P1] & C1)
         (E2 & F2 & [o2 O2] & [k2 K2] & [p2 P2] & C2).
  repeat split; try congruence; try lia.
  - exists (o1 +:+ o2). rewrite O2, O1. apply string_append_assoc.
  - exists (k1 ++ k2). rewrite K1, K2. apply app_assoc.
  - exists (p1 ++ p2). rewrite P2, P1. symmetry. apply app_assoc.
Qed.

Lemma only_appends_set_scopes (h : Scopes) (st : State) : only_appends st (set_scopes h st).
Proof. exact (only_appends_refl (set_scopes h st)). Qed.

Lemma respects_ret {A} (a : A) : respects (ret a).
Proof. intros st x st' [= _ <-]. apply only_appends_refl. Qed.

Lemma respects_lift {A} (o : outcome A) : respects (lift o).
Proof. intros st x st' [= _ <-]. apply only_appends_refl. Qed.

Lemma respects_throw {A} (what : string) : respects (@throw A what).
Proof. apply respects_lift. Qed.

Lemma respects_throw_arity {A} (literal : string) (n : nat) :
  respects (@throw_arity A literal n).
Proof. apply respects_lift. Qed.

Lemma respects_bind {A B} (m : M A) (k : A -> M B) :
  respects m -> (forall a, respects (k a)) -> respects (bind m k).
Proof.
  intros Hm Hk st b st'. unfold bind.
  destruct (m st) as [[a | | | | |] st1] eqn:E;
    try (intros [= _ <-]; eapply Hm, E).
  intros Hk1. eapply only_appends_trans; [eapply Hm, E | eapply Hk, Hk1].
Qed.

Lemma respects_locked {A} (scope : nat) (what : string) (k : M A) :
  respects k -> respects (locked scope what k).
Proof.
  intros Hk st a st'. unfold locked.
  destruct (lock (scopes st) scope); [apply Hk |].
  intros [= _ <-]. apply only_appends_refl.
Qed.

Lemma respects_get_scopes : respects get_scopes.
Proof. intros st a st' [= _ <-]. apply only_appends_refl. Qed.

Lemma respects_put_scopes (h : Scopes) : respects (put_scopes h).
Proof. intros st a st' [= _ <-]. apply only_appends_set_scopes. Qed.

Lemma respects_new_Scope (p : option nat) : respects (new_Scope p).
Proof. intros st a st' [= _ <-]. apply only_appends_set_scopes. Qed.

Lemma respects_release_Scope : respects release_Scope.
Proof. intros st a st' [= _ <-]. apply only_appends_set_scopes. Qed.

Lemma respects_with_Scope {A} (p : option nat) (block : nat -> M A) :
  (forall scope, respects (block scope)) -> respects (with_Scope p block).
Proof.
  intros Hblock. unfold with_Scope.
  apply respects_bind; [apply respects_new_Scope | intros scope].
  apply respects_bind; [apply Hblock | intros result].
  apply respects_bind; [apply respects_release_Scope | intros _].
  apply respects_ret.
Qed.

Lemma respects_mapM {A B} (f : A -> M B) (l : list A) :
  (forall x, respects (f x)) -> respects (mapM f l).
Proof.
  intros Hf. induction l as [| x l IH]; simpl.
  - apply respects_ret.
  - apply respects_bind; [apply Hf |]. intros y.
    apply respects_bind; [exact IH |]. intros ys. apply respects_ret.
Qed.

Lemma respects_foldM {A B} (f : B -> A -> M B) (l : list A) (b : B) :
  (forall b x, respects (f b x)) -> respects (foldM f l b).
Proof.
  intros Hf. revert b. induction l as [| x l IH]; intros b; simpl.
  - apply respects_ret.
  - apply respects_bind; [apply Hf | exact IH].
Qed.

Lemma respects_first_return {A} (f : A -> M (option Value)) (l : list A) :
  (forall x, respects (f x)) -> respects (first_return f l).
Proof.
  intros Hf. induction l as [| x l IH]; simpl.
  - apply respects_ret.
  - apply respects_bind; [apply Hf |]. intros [v |]; [apply respects_ret | exact IH].
Qed.

Lemma respects_define (scope : nat) (name : string) (b : Binding) :
  respects (define scope name b).
Proof. intros st a st' [= _ <-]. apply only_appends_set_scopes. Qed.

Lemma respects_write_cout (s : string) : respects (write_cout s).
Proof.
  intros st a st' [= _ <-]. destruct (only_appends_refl st) as (E & F & _ & K & P & C).
  repeat split; try assumption. exists s. reflexivity.
Qed.

Lemma respects_clearTerminal : respects clearTerminal.
Proof.
  intros st a st' [= _ <-]. destruct (only_appends_refl st) as (E & F & O & K & P & C).
  repeat split; try assumption. simpl. lia.
Qed.

Lemma respects_getCharImmediate : respects getCharImmediate.
Proof.
  intros st a st'. unfold getCharImmediate.
  destruct (keys st) as [| c rest] eqn:Hkeys; cbv beta iota zeta.
  - destruct (code_of "255" =? 3)%N; intros [= _ <-]; apply only_appends_refl.
  - assert (H : only_appends st (set_keys rest st)).
    { destruct (only_appends_refl st) as (E & F & O & K & P & C).
      repeat split; try assumption. exists [c]. simpl. exact Hkeys. }
    destruct (code_of c =? 3)%N; intros [= _ <-]; exact H.
Qed.

Lemma respects_readCode (fs : string -> option string) (path : string) :
  respects (readCode fs path).
Proof.
  intros st a st'. unfold readCode.
  assert (H : only_appends st (set_opened (opened st ++ [path]) st)).
  { destruct (only_appends_refl st) as (E & F & O & K & P & C).
    repeat split; try assumption. exists [path]. reflexivity. }
  destruct (fs path); intros [= _ <-]; exact H.
Qed.

Lemma respects_bind_parameters (scope : nat) (params : list FunctionParameterNode)
    (arguments : list Value) : respects (bind_parameters scope params arguments).
Proof.
  revert arguments. induction params as [| p params IH]; intros [| a arguments]; simpl;
    try apply respects_ret.
  apply respects_bind; [apply respects_lift |]. intros v.
  apply respects_bind; [apply respects_define |]. intros _. apply IH.
Qed.

(** The routine steps of such a proof. *)
Ltac respect :=
  repeat first
    [ apply respects_ret
    | apply respects_lift
    | apply respects_throw
    | apply respects_throw_arity
    | apply respects_get_scopes
    | apply respects_put_scopes
    | apply respects_define
    | apply respects_write_cout
    | apply respects_clearTerminal
    | apply respects_getCharImmediate
    | apply respects_readCode
    | apply respects_bind_parameters
    | apply respects_locked
    | apply respects_with_Scope; intros ?
    | apply respects_mapM; intros ?
    | apply respects_foldM; intros ? ?
    | apply respects_first_return; intros ?
    | apply respects_bind; [| intros ?]
    | match goal with
      | |- respects (match ?x with _ => _ end) => destruct x
      | |- respects (let '_ := ?x in _) => destruct x
      end ].

Section Level_respects.

Variable fs : string -> option string.
Variable rec : Evaluator.
Hypothesis Hrec : Evaluator_respects rec.

Ltac by_rec :=
  first [ apply (respects_rec_Expression rec Hrec)
        | apply (respects_rec_FunctionCall rec Hrec)
        | apply (respects_rec_Body rec Hrec)
        | apply (respects_rec_If rec Hrec)
        | apply (respects_rec_while rec Hrec) ].

Lemma respects_interpretParameters ps scope : respects (interpretParameters rec ps scope).
Proof. unfold interpretParameters. respect. by_rec. Qed.

Lemma respects_interpretArray a scope : respects (interpretArray rec a scope).
Proof. unfold interpretArray. respect. by_rec. Qed.

Lemma respects_interpretArithmetic a scope : respects (interpretArithmetic rec a scope).
Proof. unfold interpretArithmetic. respect; by_rec. Qed.

Lemma respects_applyMethod v m scope : respects (applyMethod rec v m scope).
Proof.
  unfold applyMethod. destruct m. apply respects_bind;
    [apply respects_interpretParameters | intros ?; respect].
Qed.

Lemma respects_interpretArrayRangeBound b scope :
  respects (interpretArrayRangeBound rec b scope).
Proof. unfold interpretArrayRangeBound. respect; by_rec. Qed.

Lemma respects_interpretArrayRange r v scope :
  respects (interpretArrayRange rec r v scope).
Proof.
  unfold interpretArrayRange. destruct r.
  apply respects_bind; [apply respects_interpretArrayRangeBound | intros ?].
  apply respects_bind; [apply respects_interpretArrayRangeBound | intros ?].
  respect.
Qed.

Lemma respects_applyPostfix v p scope : respects (applyPostfix rec v p scope).
Proof.
  unfold applyPostfix. apply respects_foldM. intros b [r | m];
    [apply respects_interpretArrayRange | apply respects_applyMethod].
Qed.

Lemma respects_interpretExpression e scope : respects (interpretExpression rec e scope).
Proof.
  unfold interpretExpression. destruct e as [[a | a] p];
    (apply respects_bind;
     [first [apply respects_interpretArithmetic | apply respects_interpretArray]
     | intros ?; apply respects_applyPostfix]).
Qed.

Lemma respects_interpretVariableDeclaration d scope :
  respects (interpretVariableDeclaration rec d scope).
Proof.
  unfold interpretVariableDeclaration. apply respects_locked.
  apply respects_bind; [| intros ?; respect].
  destruct (decl_value d); [| respect].
  apply respects_bind; [apply respects_interpretExpression | intros ?; respect].
Qed.

Lemma respects_interpretVariableAssignment a scope :
  respects (interpretVariableAssignment rec a scope).
Proof.
  unfold interpretVariableAssignment. apply respects_locked.
  apply respects_bind; [apply respects_get_scopes | intros h].
  destruct (negb _); [respect |].
  apply respects_bind; [apply respects_interpretExpression | intros right].
  respect.
Qed.

Lemma respects_interpretVariableBinding b scope :
  respects (interpretVariableBinding rec b scope).
Proof.
  destruct b; [apply respects_interpretVariableDeclaration
              | apply respects_interpretVariableAssignment].
Qed.

Lemma respects_interpretIfDeclaration d scope :
  respects (interpretIfDeclaration rec d scope).
Proof.
  unfold interpretIfDeclaration. destruct (decl_value d).
  - apply respects_locked.
    apply respects_bind; [apply respects_interpretExpression | intros ?].
    destruct (descriptor_accepts _ _); respect.
  - apply respects_bind; [apply respects_interpretVariableDeclaration | intros ?].
    respect.
Qed.

Lemma respects_interpretIfCompare c scope : respects (interpretIfCompare rec c scope).
Proof.
  unfold interpretIfCompare.
  apply respects_bind; [apply respects_interpretExpression | intros ?].
  apply respects_bind; [apply respects_interpretExpression | intros ?].
  respect.
Qed.

Lemma respects_interpretIfCondition c scope : respects (interpretIfCondition rec c scope).
Proof.
  destruct c; [apply respects_interpretIfCompare | apply respects_interpretIfDeclaration].
Qed.

Lemma respects_while_loop c b scope : respects (while_loop rec c b scope).
Proof.
  unfold while_loop.
  apply respects_bind; [apply respects_interpretIfCondition | intros [|]]; [| respect].
  apply respects_bind; [by_rec | intros [v |]]; [respect | by_rec].
Qed.

Lemma respects_interpretWhile w scope : respects (interpretWhile rec w scope).
Proof.
  destruct w. unfold interpretWhile. apply respects_with_Scope. intros ?.
  apply respects_while_loop.
Qed.

Lemma respects_interpretForLoop f scope : respects (interpretForLoop rec f scope).
Proof.
  destruct f. unfold interpretForLoop.
  apply respects_bind; [apply respects_interpretExpression | intros ?].
  apply respects_first_return. intros ?. apply respects_with_Scope. intros ?.
  apply respects_bind; [apply respects_define | intros ?]. by_rec.
Qed.

Lemma respects_interpretIf i scope : respects (interpretIf rec i scope).
Proof.
  destruct i as [c b elseIf elseBody]. unfold interpretIf.
  apply respects_with_Scope. intros ?.
  apply respects_bind; [apply respects_interpretIfCondition | intros [|]].
  - apply respects_bind; [by_rec | intros ?; respect].
  - apply respects_bind.
    + destruct elseIf; [by_rec | respect].
    + intros [r [|]]; simpl; [respect |].
      destruct elseBody; [| respect].
      apply respects_bind; [by_rec | intros ?; respect].
Qed.

Lemma respects_interpretFunctionCall c scope :
  respects (interpretFunctionCall fs rec c scope).
Proof.
  destruct c as [identifier parameters]. unfold interpretFunctionCall.
  apply respects_locked.
  apply respects_bind; [apply respects_get_scopes | intros h].
  destruct (Scope_hasRecursive h scope identifier).
  { apply respects_bind; [apply respects_lift | intros ?].
    apply respects_bind; [apply respects_interpretParameters | intros arguments].
    apply respects_bind; [apply respects_get_scopes | intros h'].
    apply respects_bind; [apply respects_lift | intros fd].
    apply respects_with_Scope. intros callee.
    destruct (negb _); [respect |].
    apply respects_bind; [apply respects_bind_parameters | intros ?].
    apply respects_bind; [by_rec | intros ?; respect]. }
  repeat (match goal with |- respects (if ?b then _ else _) => destruct b end);
    try apply respects_throw.
  - unfold interpretPrint. destruct parameters as [| p [| q l]]; try apply respects_throw_arity.
    apply respects_bind; [apply respects_interpretExpression | intros ?]. respect.
  - unfold interpretRead. destruct parameters as [| p [| q l]]; try apply respects_throw_arity.
    apply respects_bind; [apply respects_interpretExpression | intros ?].
    apply respects_bind; [apply respects_readCode | intros ?].
    apply respects_interpretArray.
  - unfold interpretGetchar. destruct parameters as [| p l]; try apply respects_throw_arity.
    apply respects_bind; [apply respects_getCharImmediate | intros ?].
    apply respects_interpretArray.
  - unfold interpretClear. destruct parameters as [| p l]; try apply respects_throw_arity.
    respect.
  - unfold interpretRange. destruct parameters as [| p [| q l]]; try apply respects_throw_arity.
    apply respects_bind; [apply respects_interpretExpression | intros ?]. respect.
  - unfold interpretExit. destruct parameters as [| p [| q l]]; try apply respects_throw_arity.
    apply respects_bind; [apply respects_interpretExpression | intros ?]. respect.
Qed.

Lemma respects_interpretStatement s scope :
  respects (interpretStatement fs rec s scope).
Proof.
  destruct s; simpl.
  - apply respects_bind; [apply respects_interpretVariableBinding | intros ?; respect].
  - apply respects_interpretForLoop.
  - apply respects_bind; [apply respects_interpretIf | intros ?; respect].
  - apply respects_interpretWhile.
  - apply respects_bind; [apply respects_interpretFunctionCall | intros ?; respect].
  - apply respects_bind; [apply respects_interpretExpression | intros ?; respect].
Qed.

Lemma respects_interpretBody b scope : respects (interpretBody fs rec b scope).
Proof.
  unfold interpretBody. apply respects_first_return. intros ?.
  apply respects_interpretStatement.
Qed.

End Level_respects.

(** Whatever the fuel, the evaluator does no more than that. *)
Lemma evaluator_respects (fs : string -> option string) (fuel : nat) :
  Evaluator_respects (evaluator fs fuel).
Proof.
  induction fuel as [| fuel IH].
  - split; intros; apply respects_lift.
  - split; intros; cbn [evaluator rec_Expression rec_FunctionCall rec_Body rec_If rec_while].
    + apply respects_interpretExpression, IH.
    + apply respects_interpretFunctionCall, IH.
    + apply respects_interpretBody, IH.
    + apply respects_interpretIf, IH.
    + apply respects_while_loop, IH.
Qed.


(** X22. Whatever a function body does and however it ends (by
    returning, by an exception, by [exit], or by running out of fuel), it
    never writes to the standard error, never changes the list of loaded
    files, only appends to the standard output, only consumes keys from the
    front of the input, only adds to the files it has opened, and never
    lowers the count of terminal clears. The same holds for a single call
    and for the evaluation of an expression. *)
Theorem evaluation_only_appends (fs : string -> option string) (fuel : nat) :
  (forall body scope st r st',
      interpretBody fs (evaluator fs fuel) body scope st = (r, st') ->
      only_appends st st')
  /\ (forall call scope st r st',
        interpretFunctionCall fs (evaluator fs fuel) call scope st = (r, st') ->
        only_appends st st')
  /\ (forall e scope st r st',
        interpretExpression (evaluator fs fuel) e scope st = (r, st') ->
        only_appends st st').
Proof.
  pose proof (evaluator_respects fs fuel) as H.
  split; [| split].
  - intros body scope. apply respects_interpretBody. exact H.
  - intros call scope. apply respects_interpretFunctionCall. exact H.
  - intros e scope. apply respects_interpretExpression. exact H.
Qed.

Lemma evaluation_only_appends_witness :
  let st := set_scopes [mkScope None ∅] (initial_State []) in
  let call := mkFunctionCall "print" [Expression_of_ints [72; 105]] in
  interpretFunctionCall no_files (evaluator no_files 0) call 0 st
  = (Ok empty_Value, set_cout "Hi" st)
  /\ only_appends st (set_cout "Hi" st).
Proof.
  intros st call.
  assert (H : interpretFunctionCall no_files (evaluator no_files 0) call 0 st
              = (Ok empty_Value, set_cout "Hi" st)) by reflexivity.
  split; [exact H |].
  exact (proj1 (proj2 (evaluation_only_appends no_files 0)) call 0%nat st _ _ H).
Defined.

(** ** What loading does to the state *)












(** ** The parser and integer literals *)

(** X25. An integer literal is never an operand: wherever the expression
    parser meets an IntLit token, also after an operator, it throws
    [Unexpected int literal in array expression.]; an integer has to be
    written as an array literal. *)
Theorem int_literal_is_no_operand (fuel : nat) (tokens : list Token) (i : nat)
    (t : Token) :
  tokens !! i = Some t ->
  getType t = INT_LIT ->
  (forall numLeftParentheses output operators,
      expression_loop (S fuel) tokens i numLeftParentheses output operators
      = Throw "Unexpected int literal in array expression.")
  /\ ExpressionNode_parse (S (S fuel)) tokens i
     = Throw "Unexpected int literal in array expression.".
Proof.
  intros Ht Htype.
  assert (Hloop : forall n output operators,
             expression_loop (S fuel) tokens i n output operators
             = Throw "Unexpected int literal in array expression.").
  { intros n output operators. simpl. rewrite Ht.
    unfold Token_eqb. rewrite Htype. simpl. rewrite andb_false_r. reflexivity. }
  split; [exact Hloop |].
  change (ExpressionNode_parse (S (S fuel)) tokens i)
    with (let* (i', stacks) := expression_loop (S fuel) tokens i 0%nat [] [] in
          let* e := finish_expression (fst stacks) (snd stacks) in
          Ok (e, i')).
  rewrite Hloop. reflexivity.
Qed.

Lemma int_literal_is_no_operand_witness :
  ([mkToken INT_LIT "1"] !! 0%nat = Some (mkToken INT_LIT "1")
   /\ getType (mkToken INT_LIT "1") = INT_LIT)
  /\ ExpressionNode_parse 2 [mkToken INT_LIT "1"] 0
     = Throw "Unexpected int literal in array expression.".
Proof.
  split; [split; reflexivity |].
  exact (proj2 (int_literal_is_no_operand 0 [mkToken INT_LIT "1"] 0
                  (mkToken INT_LIT "1") eq_refl eq_refl)).
Defined.

(** ** Append and slices *)

(** X26. Appending and slicing are inverse to each other: for arrays
    whose joint length can be allocated, the slice of [a.append(b)] from 0
    to the length of [a] holds the elements of [a], and the slice from there
    to the end holds the elements of [b]. *)
Theorem append_then_slice (a b : Value) :
  (Value_getSize a + Value_getSize b <= max_size)%N ->
  exists ab,
    applyAppend a [b] = Ok ab
    /\ fromValue ab = fromValue a ++ fromValue b
    /\ slice ab 0 (Value_getSize a)
       = Ok (mkValue (VDynamicArray (fromValue a)) (Value_getSize a))
    /\ slice ab (Value_getSize a) (Value_getSize a + Value_getSize b)
       = Ok (mkValue (VDynamicArray (fromValue b)) (Value_getSize b)).
Proof.
  intros Hab.
  assert (Ha : (Value_getSize a <= max_size)%N) by lia.
  assert (Hb : (Value_getSize b <= max_size)%N) by lia.
  clear Hab. eexists. split; [reflexivity |]. split; [reflexivity |].
  unfold slice, DynamicArray_new, Value_getSize in *.
  set (la := fromValue a) in *. set (lb := fromValue b) in *.
  cbn [fromValue value]. unfold size_of in *.
  rewrite length_app. split.
  - destruct (N.ltb_spec (N.of_nat (length la)) 0); [lia |].
    rewrite N.sub_0_r.
    destruct (N.ltb_spec max_size (N.of_nat (length la))); [lia |]. simpl.
    destruct (N.ltb_spec (N.of_nat (length la + length lb)) (N.of_nat (length la)));
      [lia |].
    cbn [obind]. rewrite Nat2N.id. change (N.to_nat 0) with 0%nat.
    rewrite drop_0, take_app_length. reflexivity.
  - destruct (N.ltb_spec (N.of_nat (length la) + N.of_nat (length lb))
                (N.of_nat (length la))); [lia |].
    replace (N.of_nat (length la) + N.of_nat (length lb) - N.of_nat (length la))%N
      with (N.of_nat (length lb)) by lia.
    destruct (N.ltb_spec max_size (N.of_nat (length lb))); [lia |]. simpl.
    destruct (N.ltb_spec (N.of_nat (length la + length lb))
                (N.of_nat (length la) + N.of_nat (length lb))); [lia |].
    cbn [obind]. rewrite !Nat2N.id, drop_app_length, firstn_all. reflexivity.
Qed.

Lemma append_then_slice_witness :
  let a := mkValue (VVector [1; 2]) 2 in
  let b := mkValue (VDynamicArray [3]) 1 in
  (Value_getSize a + Value_getSize b <= max_size)%N
  /\ exists ab,
       applyAppend a [b] = Ok ab
       /\ fromValue ab = [1; 2; 3]
       /\ slice ab 0 2 = Ok (mkValue (VDynamicArray [1; 2]) 2)
       /\ slice ab 2 3 = Ok (mkValue (VDynamicArray [3]) 1).
Proof.
  intros a b.
  assert (H : (Value_getSize a + Value_getSize b <= max_size)%N)
    by (vm_compute; discriminate).
  split; [exact H |].
  exact (append_then_slice a b H).
Defined.

(** ** The stack of scopes *)

(** X27. A function body that returns leaves the scopes as a stack should:
    the scopes that were live before are live after, in the same number,
    and none of them has lost a name. Scopes opened for calls, loops and
    conditionals inside the body are gone. *)
Theorem body_keeps_scopes (fs : string -> option string) (fuel : nat)
    (body : BodyNode) (scope : nat) (st st' : State) (r : option Value) :
  interpretBody fs (evaluator fs fuel) body scope st = (Ok r, st') ->
  length (scopes st') = length (scopes st)
  /\ forall id s x,
       lock (scopes st) id = Some s -> Scope_has s x = true ->
       exists s', lock (scopes st') id = Some s' /\ Scope_has s' x = true.
Proof.
  intros H.
  destruct (preserves_interpretBody fs (evaluator fs fuel) (evaluator_preserves fs fuel)
              body scope st r st' H) as [Hlen Hnames].
  split; [exact Hlen |].
  intros id s x Hs Hx. destruct (Hnames id s Hs) as (s' & Hs' & Hall).
  exists s'. auto.
Qed.

Lemma body_keeps_scopes_witness :
  let st := set_scopes [mkScope None ∅] (initial_State []) in
  let body := [SForLoop (mkForLoop "x" (Expression_of_ints [72; 105])
                           [print_statement "x"])] in
  interpretBody no_files (evaluator no_files 3) body 0 st
  = (Ok None, set_cout "Hi" st)
  /\ length (scopes (set_cout "Hi" st)) = length (scopes st).
Proof.
  intros st body.
  assert (H : interpretBody no_files (evaluator no_files 3) body 0 st
              = (Ok None, set_cout "Hi" st)) by reflexivity.
  split; [exact H |].
  exact (proj1 (body_keeps_scopes no_files 3 body 0 st _ _ H)).
Defined.

(** ** Printing, lexing and parsing integers *)

Lemma pretty_N_char_digit (x : N) :
  (x < 10)%N ->
  isdigit (pretty_N_char x) = true /\ Z.of_N (code_of (pretty_N_char x)) - 48 = Z.of_N x.
Proof.
  intros Hx.
  assert (H : (x = 0 \/ x = 1 \/ x = 2 \/ x = 3 \/ x = 4 \/ x = 5 \/ x = 6 \/ x = 7
               \/ x = 8 \/ x = 9)%N) by lia.
  repeat (destruct H as [-> | H]; [split; reflexivity |]). subst x. split; reflexivity.
Qed.

Lemma pretty_N_go_digits (x : N) (s : string) :
  exists ds,
    list_ascii_of_string (pretty_N_go x s) = ds ++ list_ascii_of_string s
    /\ forallb isdigit ds = true
    /\ (forall acc, fold_left digit_step ds acc
                    = acc * 10 ^ Z.of_nat (length ds) + Z.of_N x)
    /\ (0 < x -> ds <> [])%N.
Proof.
  revert s. induction (N.lt_wf_0 x) as [x _ IH]; intros s.
  destruct (N.eq_dec x 0%N) as [-> | Hx].
  - exists []. rewrite pretty_N_go_0. repeat split; try reflexivity.
    + intros acc. simpl. lia.
    + lia.
  - rewrite pretty_N_go_step by lia.
    assert (Hlt : (x `div` 10 < x)%N) by (apply N.div_lt; lia).
    destruct (IH (x `div` 10)%N Hlt (String (pretty_N_char (x `mod` 10)) s))
      as (ds & Hds & Hdigits & Hvalue & _).
    destruct (pretty_N_char_digit (x `mod` 10)%N) as [Hd Hv];
      [apply N.mod_lt; lia |].
    exists (ds ++ [pretty_N_char (x `mod` 10)]). repeat split.
    + rewrite Hds. simpl. rewrite <- app_assoc. reflexivity.
    + rewrite forallb_app, Hdigits. simpl. rewrite Hd. reflexivity.
    + intros acc. rewrite fold_left_app. simpl. unfold digit_step at 1.
      rewrite Hvalue, Hv, length_app. simpl.
      rewrite Nat2Z.inj_add, Z.pow_add_r by lia. simpl Z.of_nat.
      change (10 ^ 1) with 10.
      rewrite N2Z.inj_mod, N2Z.inj_div.
      assert (Hx10 : Z.of_N x = 10 * (Z.of_N x / 10) + Z.of_N x mod 10)
        by (apply Z.div_mod; lia).
      lia.
    + intros _. destruct ds; discriminate.
Qed.

Lemma tokenize_loop_fuel (fuel1 fuel2 : nat) (code : list ascii) (i : nat)
    (char_num line_num : Z) (result : list Token) :
  (length code - i < fuel1)%nat -> (length code - i < fuel2)%nat ->
  tokenize_loop fuel1 code i char_num line_num result
  = tokenize_loop fuel2 code i char_num line_num result.
Proof.
  revert fuel2 i char_num line_num result.
  induction fuel1 as [| fuel1 IH]; intros fuel2 i char_num line_num result H1 H2; [lia |].
  destruct fuel2 as [| fuel2]; [lia |].
  simpl. destruct (code !! i) as [c |] eqn:Hc; [| reflexivity].
  assert (Hi : (i < length code)%nat) by (apply lookup_lt_is_Some; eauto).
  destruct (isalpha c) eqn:Halpha.
  { unfold collectWhile. rewrite (drop_lookup_cons code i c Hc).
    rewrite collect_first by (unfold isalnum; rewrite Halpha; reflexivity).
    apply IH; simpl; lia. }
  destruct (isdigit c
            || (Ascii.eqb c "-"%char
                && match code !! S i with Some d => isdigit d | None => false end)).
  { unfold collectWhile. apply IH; lia. }
  destruct (Ascii.eqb c dquote).
  { destruct (string_body (drop (S i) code) c) as [string_lit closed].
    destruct closed; simpl; [| reflexivity].
    destruct (interpretEscapes string_lit); simpl; try reflexivity.
    apply IH; lia. }
  destruct (Ascii.eqb c newline); [apply IH; lia |].
  destruct (is_symbol c); [apply IH; lia |].
  destruct (isspace c); simpl; [apply IH; lia | reflexivity].
Qed.

Lemma tokenize_lex (code : string) : tokenize code = lex (list_ascii_of_string code) 1 1 [].
Proof. reflexivity. Qed.

Lemma lex_nil (char_num line_num : Z) (result : list Token) :
  lex [] char_num line_num result = Ok result.
Proof. reflexivity. Qed.

(** One step of the lexer that consumes [k] characters, with fuel to spare. *)
Lemma lex_step (code rest : list ascii) (k : nat) (char_num char_num' line_num line_num' : Z)
    (result result' : list Token) :
  drop k code = rest -> (0 < k <= length code)%nat ->
  tokenize_loop (S (length code)) code 0 char_num line_num result
  = tokenize_loop (length code) code k char_num' line_num' result' ->
  lex code char_num line_num result = lex rest char_num' line_num' result'.
Proof.
  intros Hdrop Hk Hstep. unfold lex. rewrite Hstep, tokenize_loop_drop, Hdrop.
  destruct (Nat.le_gt_cases (length code) k) as [Hle | Hgt].
  - rewrite <- Hdrop. rewrite drop_ge by lia.
    destruct (length code) as [| n]; [lia |]. reflexivity.
  - apply tokenize_loop_fuel; subst rest; rewrite length_drop; lia.
Qed.

Lemma digit_classes (c : ascii) :
  isdigit c = true ->
  isalpha c = false /\ isspace c = false /\ Ascii.eqb c "-"%char = false
  /\ Ascii.eqb c "+"%char = false.
Proof.
  destruct c as [[] [] [] [] [] [] [] []]; intros H; try discriminate H; repeat split.
Qed.

Lemma collect_app_stop (predicate : ascii -> bool) (a b : list ascii) :
  forallb predicate a = true ->
  match b with c :: _ => predicate c = false | [] => True end ->
  collect predicate (a ++ b) = a.
Proof.
  intros Ha Hb. induction a as [| x a IH]; simpl in *.
  - destruct b as [| c b]; [reflexivity |]. simpl. rewrite Hb. reflexivity.
  - apply andb_prop in Ha as [Hx Ha]. rewrite Hx, (IH Ha). reflexivity.
Qed.

Lemma tokenize_loop_digit (fuel : nat) (code : list ascii) (i : nat)
    (char_num line_num : Z) (result : list Token) (c : ascii) :
  code !! i = Some c -> isalpha c = false ->
  isdigit c
  || (Ascii.eqb c "-"%char
      && match code !! S i with Some d => isdigit d | None => false end) = true ->
  tokenize_loop (S fuel) code i char_num line_num result
  = tokenize_loop fuel code (S (S i + length (collect isdigit (drop (S i) code)) - 1))
      (char_num + 1 - 1 + Z.of_nat (length (collect isdigit (drop (S i) code))) - 1 + 1)
      line_num
      (result ++ [mkToken INT_LIT
                    (string_of_char c
                     +:+ string_of_list_ascii (collect isdigit (drop (S i) code)))]).
Proof. intros Hc Ha Hd. simpl. rewrite Hc, Ha, Hd. reflexivity. Qed.

(** An integer literal: a digit or a minus sign, then digits, up to a
    character that is no digit. *)
Lemma lex_int_literal (c : ascii) (ds rest : list ascii) (char_num line_num : Z)
    (result : list Token) :
  isdigit c = true \/ (c = "-"%char /\ ds <> []) ->
  forallb isdigit ds = true ->
  match rest with d :: _ => isdigit d = false | [] => True end ->
  lex (c :: ds ++ rest) char_num line_num result
  = lex rest (char_num + Z.of_nat (length ds)) line_num
      (result ++ [mkToken INT_LIT (string_of_list_ascii (c :: ds))]).
Proof.
  intros Hc Hds Hrest.
  apply (lex_step _ rest (S (length ds))); [| simpl; rewrite length_app; lia |].
  { simpl. rewrite drop_app_length. reflexivity. }
  assert (Hbranch : isalpha c = false
                    /\ (isdigit c
                        || (Ascii.eqb c "-"%char
                            && match (c :: ds ++ rest) !! 1%nat with
                               | Some d => isdigit d
                               | None => false
                               end)) = true).
  { destruct Hc as [Hc | [-> Hne]].
    - destruct (digit_classes c Hc) as (Ha & _). rewrite Hc. auto.
    - split; [reflexivity |]. destruct ds as [| d ds]; [contradiction |].
      simpl in Hds. apply andb_prop in Hds as [Hd _]. simpl. exact Hd. }
  destruct Hbranch as [Halpha Hbranch].
  rewrite (tokenize_loop_digit _ (c :: ds ++ rest) 0 _ _ _ c eq_refl Halpha Hbranch).
  cbn [drop]. rewrite drop_0.
  rewrite (collect_app_stop isdigit ds rest Hds Hrest).
  f_equal; try lia; try reflexivity.
Qed.

Lemma tokenize_loop_symbol (fuel : nat) (code : list ascii) (i : nat)
    (char_num line_num : Z) (result : list Token) (c : ascii) :
  code !! i = Some c ->
  isalpha c = false -> isdigit c = false -> Ascii.eqb c "-"%char = false ->
  Ascii.eqb c dquote = false -> Ascii.eqb c newline = false -> is_symbol c = true ->
  tokenize_loop (S fuel) code i char_num line_num result
  = tokenize_loop fuel code (S i) (char_num + 1) line_num
      (result ++ [mkToken SYMBOL (string_of_char c)]).
Proof.
  intros Hc H1 H2 H3 H4 H5 H6. simpl. rewrite Hc, H1, H2, H3, H4, H5, H6. reflexivity.
Qed.

Lemma lex_symbol (c : ascii) (rest : list ascii) (char_num line_num : Z)
    (result : list Token) :
  isalpha c = false -> isdigit c = false -> Ascii.eqb c "-"%char = false ->
  Ascii.eqb c dquote = false -> Ascii.eqb c newline = false -> is_symbol c = true ->
  lex (c :: rest) char_num line_num result
  = lex rest (char_num + 1) line_num (result ++ [symbol (string_of_char c)]).
Proof.
  intros H1 H2 H3 H4 H5 H6.
  apply (lex_step _ rest 1); [reflexivity | simpl; lia |].
  apply (tokenize_loop_symbol _ (c :: rest) 0 _ _ _ c eq_refl H1 H2 H3 H4 H5 H6).
Qed.

Lemma tokenize_loop_blank (fuel : nat) (code : list ascii) (i : nat)
    (char_num line_num : Z) (result : list Token) (c : ascii) :
  code !! i = Some c -> is_blank c = true ->
  tokenize_loop (S fuel) code i char_num line_num result
  = tokenize_loop fuel code (S i) (char_num + 1) line_num result.
Proof.
  intros Hc Hb. destruct (blank_classes c Hb) as (H1 & H2 & H3 & H4 & H5 & H6 & H7).
  simpl. rewrite Hc, H1, H2, H3, H4, H5, H6, H7. reflexivity.
Qed.

Lemma lex_blank (c : ascii) (rest : list ascii) (char_num line_num : Z)
    (result : list Token) :
  is_blank c = true ->
  lex (c :: rest) char_num line_num result = lex rest (char_num + 1) line_num result.
Proof.
  intros Hb. apply (lex_step _ rest 1); [reflexivity | simpl; lia |].
  apply (tokenize_loop_blank _ (c :: rest) 0 _ _ _ c eq_refl Hb).
Qed.

(** The decimal text of a natural number. *)
Lemma to_string_N_digits (n : N) :
  exists d ds,
    list_ascii_of_string (to_string_N n) = d :: ds
    /\ forallb isdigit (d :: ds) = true
    /\ digits_value (d :: ds) = Z.of_N n.
Proof.
  unfold to_string_N, pretty, pretty_N.
  destruct (decide (n = 0%N)) as [-> | Hn].
  - exists "0"%char, []. repeat split.
  - destruct (pretty_N_go_digits n EmptyString) as (ds & Hds & Hdigits & Hvalue & Hne).
    rewrite app_nil_r in Hds.
    destruct ds as [| d ds]; [exfalso; apply Hne; [lia | reflexivity] |].
    exists d, ds. split; [exact Hds |]. split; [exact Hdigits |].
    unfold digits_value. change (fun acc d0 => acc * 10 + (Z.of_N (code_of d0) - 48))
      with digit_step.
    rewrite Hvalue. lia.
Qed.

(** The decimal text of an integer: a minus sign for a negative one, then
    the digits of its absolute value. *)
Lemma to_string_Z_digits (z : Z) :
  exists d ds,
    forallb isdigit (d :: ds) = true
    /\ digits_value (d :: ds) = Z.abs z
    /\ list_ascii_of_string (to_string_Z z)
       = if z <? 0 then "-"%char :: d :: ds else d :: ds.
Proof.
  destruct z as [| p | p].
  - exists "0"%char, []. repeat split.
  - destruct (to_string_N_digits (Npos p)) as (d & ds & Hs & Hd & Hv).
    exists d, ds. repeat split; assumption.
  - destruct (to_string_N_digits (Npos p)) as (d & ds & Hs & Hd & Hv).
    exists d, ds. split; [exact Hd |]. split; [exact Hv |].
    change (to_string_Z (Z.neg p)) with ("-" +:+ to_string_N (Npos p)).
    simpl. rewrite <- Hs. reflexivity.
Qed.

Lemma skip_spaces_digit (d : ascii) (rest : list ascii) :
  isdigit d = true \/ d = "-"%char -> skip_spaces (d :: rest) = d :: rest.
Proof.
  intros [Hd | ->]; [| reflexivity].
  destruct (digit_classes d Hd) as (_ & Hs & _). simpl. rewrite Hs. reflexivity.
Qed.

(** [std::stoi] reads back what [std::to_string] writes. *)
Lemma stoi_to_string_Z (z : Z) : in_int z = true -> stoi (to_string_Z z) = Ok z.
Proof.
  intros Hz. destruct (to_string_Z_digits z) as (d & ds & Hd & Hv & Hs).
  unfold stoi. rewrite Hs.
  assert (Hd' := Hd). simpl in Hd'. apply andb_prop in Hd' as [Hd0 _].
  destruct (digit_classes d Hd0) as (_ & _ & Hminus & Hplus).
  destruct (Z.ltb_spec z 0) as [Hneg | Hpos].
  - rewrite skip_spaces_digit by (right; reflexivity).
    cbn [Ascii.eqb Bool.eqb]. cbv iota.
    rewrite (collect_all isdigit (d :: ds) Hd), Hv.
    replace (- Z.abs z) with z by lia. rewrite Hz. reflexivity.
  - rewrite skip_spaces_digit by (left; exact Hd0).
    rewrite Hminus, Hplus.
    rewrite (collect_all isdigit (d :: ds) Hd), Hv.
    replace (Z.abs z) with z by lia. rewrite Hz. reflexivity.
Qed.

Lemma stoi_to_string_N (n : N) :
  Z.of_N n <= INT_MAX -> stoi (to_string_N n) = Ok (Z.of_N n).
Proof.
  intros Hn.
  assert (E : to_string_N n = to_string_Z (Z.of_N n)) by (destruct n; reflexivity).
  rewrite E. apply stoi_to_string_Z. unfold in_int, INT_MIN, INT_MAX in *.
  apply andb_true_intro. split; apply Z.leb_le; lia.
Qed.

(** The literal of one integer, followed by text that does not begin with
    a digit. *)
Lemma lex_to_string_Z (z : Z) (rest : list ascii) (char_num line_num : Z)
    (result : list Token) :
  match rest with d :: _ => isdigit d = false | [] => True end ->
  exists char_num',
    lex (list_ascii_of_string (to_string_Z z) ++ rest) char_num line_num result
    = lex rest char_num' line_num (result ++ [mkToken INT_LIT (to_string_Z z)]).
Proof.
  intros Hrest. destruct (to_string_Z_digits z) as (d & ds & Hd & _ & Hs).
  assert (Ht : to_string_Z z
               = string_of_list_ascii (if z <? 0 then "-"%char :: d :: ds else d :: ds))
    by (rewrite <- Hs; symmetry; apply string_of_list_ascii_of_string).
  rewrite Hs, Ht. destruct (z <? 0).
  - eexists.
    apply (lex_int_literal "-"%char (d :: ds) rest);
      [right; split; [reflexivity | discriminate] | exact Hd | exact Hrest].
  - simpl in Hd. apply andb_prop in Hd as [Hd0 Hds].
    eexists.
    apply (lex_int_literal d ds rest); [left; exact Hd0 | exact Hds | exact Hrest].
Qed.

Lemma lex_join_ints (ints : list Z) (tail : list ascii) (char_num line_num : Z)
    (result : list Token) :
  exists char_num',
    lex (list_ascii_of_string (join_ints ints) ++ "]"%char :: tail) char_num line_num result
    = lex ("]"%char :: tail) char_num' line_num (result ++ literal_tokens ints).
Proof.
  revert char_num result. induction ints as [| x ints IH]; intros char_num result.
  - exists char_num. simpl. rewrite app_nil_r. reflexivity.
  - destruct ints as [| y ints].
    + cbn [join_ints literal_tokens].
      apply (lex_to_string_Z x ("]"%char :: tail)). reflexivity.
    + change (join_ints (x :: y :: ints))
        with (to_string_Z x +:+ ", " +:+ join_ints (y :: ints)).
      change (literal_tokens (x :: y :: ints))
        with (mkToken INT_LIT (to_string_Z x) :: symbol "," :: literal_tokens (y :: ints)).
      rewrite !list_ascii_of_string_app, <- !app_assoc.
      destruct (lex_to_string_Z x
                  (list_ascii_of_string ", "
                   ++ list_ascii_of_string (join_ints (y :: ints)) ++ "]"%char :: tail)
                  char_num line_num result) as (c1 & E1); [reflexivity |].
      rewrite E1. cbn [list_ascii_of_string app].
      rewrite lex_symbol by reflexivity.
      rewrite lex_blank by reflexivity.
      destruct (IH (c1 + 1 + 1)
                  ((result ++ [mkToken INT_LIT (to_string_Z x)])
                   ++ [symbol (string_of_char ","%char)])) as (c2 & E2).
      exists c2. rewrite E2. rewrite <- !app_assoc. reflexivity.
Qed.

Lemma tokenize_ints_to_string (ints : list Z) :
  tokenize (ints_to_string ints) = Ok (array_tokens ints).
Proof.
  rewrite tokenize_lex. unfold ints_to_string.
  rewrite !list_ascii_of_string_app. cbn [list_ascii_of_string app].
  rewrite lex_symbol by reflexivity.
  destruct (lex_join_ints ints [] (1 + 1) 1 ([] ++ [symbol (string_of_char "["%char)]))
    as (c & E).
  rewrite E. rewrite lex_symbol by reflexivity. rewrite lex_nil.
  unfold array_tokens. rewrite <- app_assoc. reflexivity.
Qed.

(** The tokens of a descriptor as it is printed. *)
Lemma tokenize_ArrayDescriptor_to_string (d : ArrayDescriptor) :
  tokenize (ArrayDescriptor_to_string d)
  = Ok (symbol "["
        :: match getSize d with
           | Some n => [mkToken INT_LIT (to_string_N n)]
           | None => []
           end
        ++ (if getCanGrow d then [symbol "+"] else [])
        ++ [symbol "]"]).
Proof.
  rewrite tokenize_lex. unfold ArrayDescriptor_to_string.
  rewrite !list_ascii_of_string_app. cbn [list_ascii_of_string app].
  rewrite lex_symbol by reflexivity.
  assert (Htail : forall cn r,
             lex (list_ascii_of_string (if getCanGrow d then "+" else EmptyString)
                  ++ ["]"%char]) cn 1 r
             = Ok (r ++ (if getCanGrow d then [symbol "+"] else []) ++ [symbol "]"])).
  { intros cn r. destruct (getCanGrow d); cbn [list_ascii_of_string app].
    - rewrite !lex_symbol by reflexivity. rewrite lex_nil, <- app_assoc. reflexivity.
    - rewrite !lex_symbol by reflexivity. rewrite lex_nil. reflexivity. }
  destruct (getSize d) as [n |].
  - assert (E : to_string_N n = to_string_Z (Z.of_N n)) by (destruct n; reflexivity).
    rewrite E.
    destruct (lex_to_string_Z (Z.of_N n)
                (list_ascii_of_string (if getCanGrow d then "+" else EmptyString)
                 ++ ["]"%char])
                (1 + 1) 1 ([] ++ [symbol (string_of_char "["%char)])) as (c & Ec).
    { destruct (getCanGrow d); reflexivity. }
    rewrite Ec, Htail. rewrite <- !app_assoc. reflexivity.
  - cbn [list_ascii_of_string app]. rewrite Htail. reflexivity.
Qed.

Lemma to_size_t_of_N (n : N) : Z.of_N n <= INT_MAX -> to_size_t (Z.of_N n) = n.
Proof.
  intros Hn. unfold to_size_t, INT_MAX in *.
  rewrite Z.mod_small by lia. apply N2Z.id.
Qed.

(** X28. A descriptor is read back from its printed form: the text that
    [ArrayDescriptor::operator std::string] writes for a descriptor whose
    size, if any, fits an [int] lexes to tokens from which
    [ArrayDescriptor::parse] rebuilds the descriptor, consuming all of
    them. *)
Theorem ArrayDescriptor_round_trip (d : ArrayDescriptor) :
  match getSize d with Some n => Z.of_N n <= INT_MAX | None => True end ->
  exists tokens,
    tokenize (ArrayDescriptor_to_string d) = Ok tokens
    /\ ArrayDescriptor_parse tokens 0 = Ok (d, length tokens).
Proof.
  intros Hsize. eexists. split; [apply tokenize_ArrayDescriptor_to_string |].
  destruct d as [[n |] [|]]; simpl in Hsize; unfold ArrayDescriptor_parse;
    cbn [getSize getCanGrow app];
    try (cbn; rewrite (stoi_to_string_N n Hsize); cbn;
         rewrite (to_size_t_of_N n Hsize); reflexivity);
    reflexivity.
Qed.

Lemma ArrayDescriptor_round_trip_witness :
  (match getSize (mkArrayDescriptor (Some 12%N) true) with
   | Some n => Z.of_N n <= INT_MAX
   | None => True
   end)
  /\ exists tokens,
       tokenize (ArrayDescriptor_to_string (mkArrayDescriptor (Some 12%N) true))
       = Ok tokens
       /\ ArrayDescriptor_parse tokens 0
          = Ok (mkArrayDescriptor (Some 12%N) true, length tokens).
Proof.
  assert (H : match getSize (mkArrayDescriptor (Some 12%N) true) with
              | Some n => Z.of_N n <= INT_MAX
              | None => True
              end) by (simpl; unfold INT_MAX; lia).
  split; [exact H |].
  exact (ArrayDescriptor_round_trip (mkArrayDescriptor (Some 12%N) true) H).
Defined.

Lemma lookup_middle_next {A} (prefix rest : list A) (t u : A) :
  (prefix ++ t :: u :: rest) !! S (length prefix) = Some u.
Proof.
  rewrite (cons_middle t), app_assoc.
  apply list_lookup_middle. rewrite length_app. simpl. lia.
Qed.

Lemma array_literal_loop_literal (ints : list Z) :
  Forall (fun z => in_int z = true) ints ->
  forall (prefix : list Token) (sofar : list Z) (more : list Token) (fuel : nat),
    (length ints < fuel)%nat ->
    array_literal_loop fuel (prefix ++ literal_tokens ints ++ symbol "]" :: more)
      (length prefix) sofar
    = Ok (sofar ++ ints, (length prefix + length (literal_tokens ints))%nat).
Proof.
  intros Hints. induction Hints as [| x ints Hx Hints IH];
    intros prefix sofar more fuel Hfuel.
  - destruct fuel as [| fuel]; [simpl in Hfuel; lia |].
    cbn [array_literal_loop literal_tokens app].
    rewrite list_lookup_middle by reflexivity.
    cbn. rewrite app_nil_r, Nat.add_0_r. reflexivity.
  - destruct fuel as [| fuel]; [simpl in Hfuel; lia |].
    simpl in Hfuel.
    destruct ints as [| y ints].
    + cbn [literal_tokens app array_literal_loop].
      rewrite list_lookup_middle by reflexivity.
      rewrite lookup_middle_next.
      unfold expect. rewrite list_lookup_middle by reflexivity.
      cbn. rewrite (stoi_to_string_Z x Hx). cbn.
      specialize (IH (prefix ++ [mkToken INT_LIT (to_string_Z x)]) (sofar ++ [x])
                    more fuel ltac:(simpl; lia)).
      cbn [literal_tokens app] in IH.
      rewrite <- app_assoc, length_app in IH. cbn [app length] in IH.
      rewrite Nat.add_1_r in IH. rewrite IH, app_nil_r.
      f_equal. f_equal. lia.
    + change (literal_tokens (x :: y :: ints))
        with (mkToken INT_LIT (to_string_Z x) :: symbol "," :: literal_tokens (y :: ints)).
      remember (literal_tokens (y :: ints)) as rest_tokens eqn:Hrest_tokens in *.
      cbn [app array_literal_loop].
      rewrite list_lookup_middle by reflexivity.
      rewrite lookup_middle_next.
      unfold expect. rewrite list_lookup_middle by reflexivity.
      rewrite lookup_middle_next.
      cbn. rewrite (stoi_to_string_Z x Hx). cbn.
      specialize (IH (prefix ++ [mkToken INT_LIT (to_string_Z x); symbol ","])
                    (sofar ++ [x]) more fuel ltac:(simpl in *; lia)).
      rewrite <- app_assoc, length_app in IH. cbn [app length] in IH.
      replace (length prefix + 2)%nat with (S (S (length prefix))) in IH by lia.
      rewrite IH. rewrite <- app_assoc.
      f_equal. f_equal. cbn [length]. lia.
Qed.

(** X29. An array literal is read back from its printed form: the text
    that [ArrayNode::operator std::string] writes for a vector of integers,
    negative ones included, lexes to tokens from which [ArrayNode::parse]
    rebuilds the vector, consuming all of them. *)
Theorem array_literal_round_trip (ints : list Z) (fuel : nat) :
  Forall (fun z => in_int z = true) ints ->
  (length ints < fuel)%nat ->
  exists tokens,
    tokenize (ints_to_string ints) = Ok tokens
    /\ ArrayNode_parse (S fuel) tokens 0 = Ok (AInts ints, length tokens).
Proof.
  intros Hints Hfuel. eexists. split; [apply tokenize_ints_to_string |].
  unfold array_tokens. cbn [ArrayNode_parse lookup list_lookup].
  cbn [getType symbol]. cbv iota.
  unfold expect at 1. cbn [lookup list_lookup]. cbn.
  pose proof (array_literal_loop_literal ints Hints [symbol "["] [] [] fuel Hfuel) as Hloop.
  cbn [app length] in Hloop. rewrite Hloop. cbn [obind].
  unfold expect. change (1 + length (literal_tokens ints))%nat
    with (S (length (literal_tokens ints))).
  change (symbol "[" :: literal_tokens ints ++ [symbol "]"])
    with ((symbol "[" :: literal_tokens ints) ++ [symbol "]"]).
  rewrite (list_lookup_middle (symbol "[" :: literal_tokens ints) [] (symbol "]")
             (S (length (literal_tokens ints))) eq_refl).
  cbn. rewrite length_app. cbn. f_equal. f_equal. lia.
Qed.

Lemma array_literal_round_trip_witness :
  (Forall (fun z => in_int z = true) [1; -20; 3] /\ Nat.lt (length [1; -20; 3]) 4%nat)
  /\ exists tokens,
       tokenize (ints_to_string [1; -20; 3]) = Ok tokens
       /\ ArrayNode_parse 5 tokens 0 = Ok (AInts [1; -20; 3], length tokens).
Proof.
  assert (H1 : Forall (fun z => in_int z = true) [1; -20; 3])
    by (repeat constructor).
  assert (H2 : Nat.lt (length [1; -20; 3]) 4%nat) by (simpl; lia).
  split; [split; assumption |].
  exact (array_literal_round_trip [1; -20; 3] 4 H1 H2).
Defined.

(** ** The shape of the values of a run *)

Lemma Scope_get_well_formed (h : Scopes) (id : nat) (name : string) (b : Binding) :
  scopes_well_formed h -> Scope_get h id name = Ok b -> binding_well_formed b.
Proof.
  intros Hh. revert id. induction Hh as [| s h Hs Hh IH]; intros id; simpl; [discriminate |].
  destruct (length h =? id)%nat; [| apply IH].
  destruct (variables s !! name) as [b' |] eqn:E.
  - intros [= <-]. exact (Hs name b' E).
  - destruct (parent s); [apply IH | discriminate].
Qed.

Lemma value_at_well_formed (h : Scopes) (id : nat) (name : string) (v : Value) :
  scopes_well_formed h -> value_at h id name = Ok v -> well_formed v.
Proof.
  intros Hh. unfold value_at.
  destruct (Scope_get h id name) as [b | | | | |] eqn:E; simpl; try discriminate.
  destruct b as [v' | f]; [| discriminate]. intros [= <-].
  exact (Scope_get_well_formed h id name (BValue v') Hh E).
Qed.

Lemma scope_well_formed_insert (s : Scope) (name : string) (b : Binding) :
  scope_well_formed s -> binding_well_formed b ->
  scope_well_formed (mkScope (parent s) (<[name := b]> (variables s))).
Proof.
  intros Hs Hb x b'. simpl. destruct (decide (name = x)) as [-> | Hne].
  - rewrite lookup_insert_eq. intros [= <-]. exact Hb.
  - rewrite lookup_insert_ne by exact Hne. apply Hs.
Qed.

Lemma Scope_define_well_formed (h : Scopes) (id : nat) (name : string) (b : Binding) :
  scopes_well_formed h -> binding_well_formed b ->
  scopes_well_formed (Scope_define h id name b).
Proof.
  intros Hh Hb. induction Hh as [| s h Hs Hh IH]; simpl; [constructor |].
  destruct (length h =? id)%nat.
  - constructor; [| exact Hh]. unfold emplace.
    destruct (Scope_has s name); [exact Hs | apply scope_well_formed_insert; assumption].
  - constructor; assumption.
Qed.

Lemma Scope_set_well_formed (h h' : Scopes) (id : nat) (name : string) (b : Binding) :
  scopes_well_formed h -> binding_well_formed b ->
  Scope_set h id name b = Ok h' -> scopes_well_formed h'.
Proof.
  intros Hh Hb. revert id h'.
  induction Hh as [| s h Hs Hh IH]; intros id h'; simpl; [discriminate |].
  destruct (length h =? id)%nat.
  - destruct (Scope_has s name).
    + intros [= <-]. constructor; [apply scope_well_formed_insert |]; assumption.
    + destruct (parent s) as [p |]; [| discriminate].
      destruct (Scope_set h p name b) as [below | | | | |] eqn:E; simpl; try discriminate.
      intros [= <-]. constructor; [exact Hs | exact (IH p below E)].
  - destruct (Scope_set h id name b) as [below | | | | |] eqn:E; simpl; try discriminate.
    intros [= <-]. constructor; [exact Hs | exact (IH id below E)].
Qed.

Lemma maintains_ret {A} (good : A -> Prop) (a : A) : good a -> maintains good (ret a).
Proof. intros Ha st x st' Hst [= <- <-]. auto. Qed.

Lemma maintains_lift {A} (good : A -> Prop) (o : outcome A) :
  (forall a, o = Ok a -> good a) -> maintains good (lift o).
Proof. intros Ho st x st' Hst [= -> <-]. auto. Qed.

Lemma maintains_throw {A} (good : A -> Prop) (what : string) :
  maintains good (@throw A what).
Proof. apply maintains_lift. discriminate. Qed.

Lemma maintains_throw_arity {A} (good : A -> Prop) (literal : string) (n : nat) :
  maintains good (@throw_arity A literal n).
Proof.
  apply maintains_lift. intros a. destruct (literal_plus literal n); discriminate.
Qed.

Lemma maintains_weaken {A} (g1 g2 : A -> Prop) (m : M A) :
  (forall a, g1 a -> g2 a) -> maintains g1 m -> maintains g2 m.
Proof.
  intros Hg Hm st a st' Hst E. destruct (Hm st a st' Hst E) as [H1 H2]. auto.
Qed.

Lemma maintains_bind {A B} (g1 : A -> Prop) (g2 : B -> Prop) (m : M A) (k : A -> M B) :
  maintains g1 m -> (forall a, g1 a -> maintains g2 (k a)) -> maintains g2 (bind m k).
Proof.
  intros Hm Hk st b st' Hst. unfold bind.
  destruct (m st) as [[a | | | | |] st1] eqn:E; try discriminate.
  destruct (Hm st a st1 Hst E) as [Hst1 Ha]. apply (Hk a Ha). exact Hst1.
Qed.

Lemma maintains_locked {A} (good : A -> Prop) (scope : nat) (what : string) (k : M A) :
  maintains good k -> maintains good (locked scope what k).
Proof.
  intros Hk st a st' Hst. unfold locked.
  destruct (lock (scopes st) scope); [apply Hk; exact Hst | discriminate].
Qed.

Lemma maintains_get_scopes : maintains scopes_well_formed get_scopes.
Proof. intros st a st' Hst [= <- <-]. auto. Qed.

Lemma maintains_put_scopes (h : Scopes) :
  scopes_well_formed h -> maintains (fun _ => True) (put_scopes h).
Proof. intros Hh st a st' Hst [= _ <-]. auto. Qed.

Lemma maintains_define (scope : nat) (name : string) (b : Binding) :
  binding_well_formed b -> maintains (fun _ => True) (define scope name b).
Proof.
  intros Hb st a st' Hst [= _ <-]. split; [| exact I].
  simpl. apply Scope_define_well_formed; assumption.
Qed.

Lemma maintains_with_Scope {A} (good : A -> Prop) (p : option nat) (block : nat -> M A) :
  (forall scope, maintains good (block scope)) -> maintains good (with_Scope p block).
Proof.
  intros Hblock st a st' Hst. unfold with_Scope, bind, new_Scope, release_Scope, ret.
  destruct (block _ _) as [[r | | | | |] st1] eqn:E; try discriminate.
  intros [= <- <-]. simpl.
  assert (Hnew : scopes_well_formed
                   (scopes (set_scopes (mkScope p ∅ :: scopes st) st))).
  { simpl. constructor; [| exact Hst].
    intros x b. simpl. rewrite lookup_empty. discriminate. }
  destruct (Hblock _ _ _ _ Hnew E) as [Hst1 Hr].
  split; [| exact Hr].
  destruct (scopes st1) as [| s t]; [constructor |]. inversion Hst1; assumption.
Qed.

Lemma maintains_mapM {A B} (good : B -> Prop) (f : A -> M B) (l : list A) :
  (forall x, maintains good (f x)) -> maintains (Forall good) (mapM f l).
Proof.
  intros Hf. induction l as [| x l IH]; simpl.
  - apply maintains_ret. constructor.
  - apply (maintains_bind good); [apply Hf | intros y Hy].
    apply (maintains_bind (Forall good)); [exact IH | intros ys Hys].
    apply maintains_ret. constructor; assumption.
Qed.

Lemma maintains_foldM {A B} (good : B -> Prop) (f : B -> A -> M B) (l : list A) (b : B) :
  (forall b x, good b -> maintains good (f b x)) -> good b ->
  maintains good (foldM f l b).
Proof.
  intros Hf. revert b. induction l as [| x l IH]; intros b Hb; simpl.
  - apply maintains_ret. exact Hb.
  - apply (maintains_bind good); [apply Hf; exact Hb | exact IH].
Qed.

Lemma maintains_first_return {A} (f : A -> M (option Value)) (l : list A) :
  (forall x, maintains option_well_formed (f x)) ->
  maintains option_well_formed (first_return f l).
Proof.
  intros Hf. induction l as [| x l IH]; simpl.
  - apply maintains_ret. exact I.
  - apply (maintains_bind option_well_formed); [apply Hf |].
    intros [v |] Hv; [apply maintains_ret; exact Hv | exact IH].
Qed.

(** Computations that leave the scopes alone. *)
Lemma maintains_same_scopes {A} (m : M A) :
  (forall st a st', m st = (Ok a, st') -> scopes st' = scopes st) ->
  maintains (fun _ => True) m.
Proof. intros Hm st a st' Hst E. rewrite (Hm st a st' E). auto. Qed.

Lemma maintains_write_cout (s : string) : maintains (fun _ => True) (write_cout s).
Proof. apply maintains_same_scopes. intros st a st' [= _ <-]. reflexivity. Qed.

Lemma maintains_clearTerminal : maintains (fun _ => True) clearTerminal.
Proof. apply maintains_same_scopes. intros st a st' [= _ <-]. reflexivity. Qed.

Lemma maintains_getCharImmediate : maintains (fun _ => True) getCharImmediate.
Proof.
  apply maintains_same_scopes. intros st a st'. unfold getCharImmediate.
  destruct (keys st) as [| c rest]; cbv beta iota zeta.
  - destruct (code_of "255" =? 3)%N; [discriminate |]. intros [= _ <-]. reflexivity.
  - destruct (code_of c =? 3)%N; [discriminate |]. intros [= _ <-]. reflexivity.
Qed.

Lemma maintains_readCode (fs : string -> option string) (path : string) :
  maintains (fun _ => True) (readCode fs path).
Proof.
  apply maintains_same_scopes. intros st a st'. unfold readCode.
  destruct (fs path); [| discriminate]. intros [= _ <-]. reflexivity.
Qed.

Lemma maintains_bind_parameters (scope : nat) (params : list FunctionParameterNode)
    (arguments : list Value) :
  Forall well_formed arguments ->
  maintains (fun _ => True) (bind_parameters scope params arguments).
Proof.
  intros Hargs. revert params.
  induction Hargs as [| a arguments Ha Hargs IH]; intros [| p params]; simpl;
    try (apply maintains_ret; exact I).
  apply (maintains_bind well_formed).
  - apply maintains_lift. intros v. apply fromDescriptor_well_formed. exact Ha.
  - intros v Hv. apply (maintains_bind (fun _ => True)); [apply maintains_define; exact Hv |].
    intros _ _. apply IH.
Qed.

Lemma well_formed_literal (ints : list Z) : well_formed (mkValue (VVector ints) (size_of ints)).
Proof. unfold well_formed. simpl. lia. Qed.

Lemma well_formed_empty_Value : well_formed empty_Value.
Proof. reflexivity. Qed.

Section Level_maintains.

Variable fs : string -> option string.
Variable rec : Evaluator.
Hypothesis Hrec : Evaluator_maintains rec.

Lemma maintains_interpretParameters ps scope :
  maintains (Forall well_formed) (interpretParameters rec ps scope).
Proof.
  unfold interpretParameters. apply maintains_mapM. intros x.
  apply (maintains_rec_Expression rec Hrec).
Qed.

Lemma maintains_interpretArray a scope : maintains well_formed (interpretArray rec a scope).
Proof.
  unfold interpretArray. apply maintains_locked. destruct a as [arg | arg | arg].
  - apply maintains_ret, well_formed_literal.
  - apply (maintains_bind scopes_well_formed); [apply maintains_get_scopes | intros h Hh].
    apply maintains_lift. intros v. apply value_at_well_formed. exact Hh.
  - apply (maintains_rec_FunctionCall rec Hrec).
Qed.

Lemma maintains_interpretArithmetic a scope :
  maintains well_formed (interpretArithmetic rec a scope).
Proof.
  destruct a as [[l |] [r |] type]; unfold interpretArithmetic;
    try (apply maintains_lift; discriminate).
  - apply (maintains_bind well_formed); [apply (maintains_rec_Expression rec Hrec) |].
    intros left _.
    apply (maintains_bind well_formed); [apply (maintains_rec_Expression rec Hrec) |].
    intros right _.
    destruct type; try apply maintains_throw; apply maintains_lift; intros v;
      apply Value_arith_well_formed.
  - apply (maintains_bind well_formed); [apply (maintains_rec_Expression rec Hrec) |].
    intros left _. apply maintains_lift. discriminate.
Qed.

Lemma maintains_applyMethod v m scope : maintains well_formed (applyMethod rec v m scope).
Proof.
  destruct m as [identifier ps]. unfold applyMethod.
  apply (maintains_bind (Forall well_formed)); [apply maintains_interpretParameters |].
  intros parameters _.
  destruct (String.eqb identifier "append");
    [apply maintains_lift; intros r; apply applyAppend_well_formed |].
  destruct (String.eqb identifier "sqrt");
    [apply maintains_lift; intros r; apply applySqrt_well_formed |].
  destruct (String.eqb identifier "size");
    [apply maintains_lift; intros r; apply applySize_well_formed |].
  apply maintains_throw.
Qed.

Lemma maintains_interpretArrayRangeBound b scope :
  maintains (fun _ => True) (interpretArrayRangeBound rec b scope).
Proof.
  destruct b as [n | e]; unfold interpretArrayRangeBound.
  - apply maintains_ret. exact I.
  - apply (maintains_bind well_formed); [apply (maintains_rec_Expression rec Hrec) |].
    intros v _. destruct (fromValue v) as [| x [| y l]]; try apply maintains_throw.
    destruct (x <? 0); [apply maintains_throw | apply maintains_ret; exact I].
Qed.

Lemma maintains_interpretArrayRange r v scope :
  maintains well_formed (interpretArrayRange rec r v scope).
Proof.
  destruct r as [s e]. unfold interpretArrayRange.
  apply (maintains_bind (fun _ => True)); [apply maintains_interpretArrayRangeBound |].
  intros start _.
  apply (maintains_bind (fun _ => True)); [apply maintains_interpretArrayRangeBound |].
  intros finish _. apply maintains_lift. intros x. apply slice_well_formed.
Qed.

Lemma maintains_applyPostfix v p scope :
  well_formed v -> maintains well_formed (applyPostfix rec v p scope).
Proof.
  intros Hv. unfold applyPostfix. apply maintains_foldM; [| exact Hv].
  intros b [r | m] _;
    [apply maintains_interpretArrayRange | apply maintains_applyMethod].
Qed.

Lemma maintains_interpretExpression e scope :
  maintains well_formed (interpretExpression rec e scope).
Proof.
  destruct e as [[a | a] p]; unfold interpretExpression;
    (apply (maintains_bind well_formed);
     [first [apply maintains_interpretArithmetic | apply maintains_interpretArray]
     | intros v Hv; apply maintains_applyPostfix; exact Hv]).
Qed.

Lemma maintains_interpretVariableDeclaration d scope :
  maintains (fun _ => True) (interpretVariableDeclaration rec d scope).
Proof.
  unfold interpretVariableDeclaration. apply maintains_locked.
  apply (maintains_bind option_well_formed).
  - destruct (decl_value d) as [e |]; [| apply maintains_ret; exact I].
    apply (maintains_bind well_formed); [apply maintains_interpretExpression |].
    intros x Hx. apply maintains_ret. exact Hx.
  - intros v Hv. apply (maintains_bind well_formed).
    + apply maintains_lift. intros made. apply fromDescriptor_well_formed.
      destruct v; exact Hv.
    + intros made Hmade. apply maintains_define. exact Hmade.
Qed.

Lemma maintains_interpretVariableAssignment a scope :
  maintains (fun _ => True) (interpretVariableAssignment rec a scope).
Proof.
  unfold interpretVariableAssignment. apply maintains_locked.
  apply (maintains_bind scopes_well_formed); [apply maintains_get_scopes | intros h _].
  destruct (negb _); [apply maintains_throw |].
  apply (maintains_bind well_formed); [apply maintains_interpretExpression |].
  intros right Hright.
  apply (maintains_bind scopes_well_formed); [apply maintains_get_scopes | intros h' Hh'].
  apply (maintains_bind scopes_well_formed).
  - apply maintains_lift. intros h''. apply Scope_set_well_formed; assumption.
  - intros h'' Hh''. apply maintains_put_scopes. exact Hh''.
Qed.

Lemma maintains_interpretVariableBinding b scope :
  maintains (fun _ => True) (interpretVariableBinding rec b scope).
Proof.
  destruct b; [apply maintains_interpretVariableDeclaration
              | apply maintains_interpretVariableAssignment].
Qed.

Lemma maintains_interpretIfDeclaration d scope :
  maintains (fun _ => True) (interpretIfDeclaration rec d scope).
Proof.
  unfold interpretIfDeclaration. destruct (decl_value d) as [e |].
  - apply maintains_locked.
    apply (maintains_bind well_formed); [apply maintains_interpretExpression |].
    intros v Hv. destruct (descriptor_accepts _ _); [| apply maintains_ret; exact I].
    apply (maintains_bind well_formed).
    + apply maintains_lift. intros made. apply fromDescriptor_well_formed. exact Hv.
    + intros made Hmade.
      apply (maintains_bind (fun _ => True)); [apply maintains_define; exact Hmade |].
      intros _ _. apply maintains_ret. exact I.
  - apply (maintains_bind (fun _ => True));
      [apply maintains_interpretVariableDeclaration |].
    intros _ _. apply maintains_ret. exact I.
Qed.

Lemma maintains_interpretIfCompare c scope :
  maintains (fun _ => True) (interpretIfCompare rec c scope).
Proof.
  unfold interpretIfCompare.
  apply (maintains_bind well_formed); [apply maintains_interpretExpression | intros l _].
  apply (maintains_bind well_formed); [apply maintains_interpretExpression | intros r _].
  apply maintains_ret. exact I.
Qed.

Lemma maintains_interpretIfCondition c scope :
  maintains (fun _ => True) (interpretIfCondition rec c scope).
Proof.
  destruct c; [apply maintains_interpretIfCompare | apply maintains_interpretIfDeclaration].
Qed.

Lemma maintains_while_loop c b scope :
  maintains option_well_formed (while_loop rec c b scope).
Proof.
  unfold while_loop.
  apply (maintains_bind (fun _ => True)); [apply maintains_interpretIfCondition |].
  intros [|] _; [| apply maintains_ret; exact I].
  apply (maintains_bind option_well_formed); [apply (maintains_rec_Body rec Hrec) |].
  intros [v |] Hv; [apply maintains_ret; exact Hv | apply (maintains_rec_while rec Hrec)].
Qed.

Lemma maintains_interpretWhile w scope :
  maintains option_well_formed (interpretWhile rec w scope).
Proof.
  destruct w. unfold interpretWhile. apply maintains_with_Scope. intros ?.
  apply maintains_while_loop.
Qed.

Lemma maintains_interpretForLoop f scope :
  maintains option_well_formed (interpretForLoop rec f scope).
Proof.
  destruct f. unfold interpretForLoop.
  apply (maintains_bind well_formed); [apply maintains_interpretExpression | intros v _].
  apply maintains_first_return. intros z. apply maintains_with_Scope. intros s.
  apply (maintains_bind (fun _ => True)); [apply maintains_define; reflexivity |].
  intros _ _. apply (maintains_rec_Body rec Hrec).
Qed.

Lemma maintains_interpretIf i scope :
  maintains (fun r => option_well_formed (fst r)) (interpretIf rec i scope).
Proof.
  destruct i as [c b elseIf elseBody]. unfold interpretIf.
  apply maintains_with_Scope. intros s.
  apply (maintains_bind (fun _ => True)); [apply maintains_interpretIfCondition |].
  intros [|] _.
  - apply (maintains_bind option_well_formed); [apply (maintains_rec_Body rec Hrec) |].
    intros r Hr. apply maintains_ret. exact Hr.
  - apply (maintains_bind (fun r => option_well_formed (fst r))).
    + destruct elseIf; [apply (maintains_rec_If rec Hrec) | apply maintains_ret; exact I].
    + intros [r [|]] Hr; simpl; [apply maintains_ret; exact Hr |].
      destruct elseBody; [| apply maintains_ret; exact I].
      apply (maintains_bind option_well_formed); [apply (maintains_rec_Body rec Hrec) |].
      intros r' Hr'. apply maintains_ret. exact Hr'.
Qed.

Lemma maintains_interpretFunctionCall c scope :
  maintains well_formed (interpretFunctionCall fs rec c scope).
Proof.
  destruct c as [identifier parameters]. unfold interpretFunctionCall.
  apply maintains_locked.
  apply (maintains_bind scopes_well_formed); [apply maintains_get_scopes | intros h _].
  destruct (Scope_hasRecursive h scope identifier).
  { apply (maintains_bind (fun _ => True)); [apply maintains_lift; auto | intros ? _].
    apply (maintains_bind (Forall well_formed)); [apply maintains_interpretParameters |].
    intros arguments Harguments.
    apply (maintains_bind scopes_well_formed); [apply maintains_get_scopes | intros h' _].
    apply (maintains_bind (fun _ => True)); [apply maintains_lift; auto | intros fd _].
    apply maintains_with_Scope. intros callee.
    destruct (negb _); [apply maintains_throw |].
    apply (maintains_bind (fun _ => True));
      [apply maintains_bind_parameters; exact Harguments | intros _ _].
    apply (maintains_bind option_well_formed); [apply (maintains_rec_Body rec Hrec) |].
    intros [v |] Hv; apply maintains_ret; [exact Hv | exact well_formed_empty_Value]. }
  repeat (match goal with |- maintains _ (if ?b then _ else _) => destruct b end);
    try apply maintains_throw.
  - unfold interpretPrint.
    destruct parameters as [| p [| q l]]; try apply maintains_throw_arity.
    apply (maintains_bind well_formed); [apply maintains_interpretExpression | intros ? _].
    apply (maintains_bind (fun _ => True)); [apply maintains_write_cout | intros _ _].
    apply maintains_ret, well_formed_empty_Value.
  - unfold interpretRead.
    destruct parameters as [| p [| q l]]; try apply maintains_throw_arity.
    apply (maintains_bind well_formed); [apply maintains_interpretExpression | intros ? _].
    apply (maintains_bind (fun _ => True)); [apply maintains_readCode | intros ? _].
    apply maintains_interpretArray.
  - unfold interpretGetchar.
    destruct parameters as [| p l]; try apply maintains_throw_arity.
    apply (maintains_bind (fun _ => True)); [apply maintains_getCharImmediate | intros ? _].
    apply maintains_interpretArray.
  - unfold interpretClear.
    destruct parameters as [| p l]; try apply maintains_throw_arity.
    apply (maintains_bind (fun _ => True)); [apply maintains_clearTerminal | intros _ _].
    apply maintains_ret, well_formed_empty_Value.
  - unfold interpretRange.
    destruct parameters as [| p [| q l]]; try apply maintains_throw_arity.
    apply (maintains_bind well_formed); [apply maintains_interpretExpression | intros v _].
    apply maintains_lift. intros r. apply range_of_well_formed.
  - unfold interpretExit.
    destruct parameters as [| p [| q l]]; try apply maintains_throw_arity.
    apply (maintains_bind well_formed); [apply maintains_interpretExpression | intros v _].
    destruct (fromValue v); apply maintains_lift; discriminate.
Qed.

Lemma maintains_interpretStatement s scope :
  maintains option_well_formed (interpretStatement fs rec s scope).
Proof.
  destruct s; simpl.
  - apply (maintains_bind (fun _ => True)); [apply maintains_interpretVariableBinding |].
    intros _ _. apply maintains_ret. exact I.
  - apply maintains_interpretForLoop.
  - apply (maintains_bind (fun r => option_well_formed (fst r)));
      [apply maintains_interpretIf |].
    intros r Hr. apply maintains_ret. exact Hr.
  - apply maintains_interpretWhile.
  - apply (maintains_bind well_formed); [apply maintains_interpretFunctionCall |].
    intros ? _. apply maintains_ret. exact I.
  - apply (maintains_bind well_formed); [apply maintains_interpretExpression |].
    intros v Hv. apply maintains_ret. exact Hv.
Qed.

Lemma maintains_interpretBody b scope :
  maintains option_well_formed (interpretBody fs rec b scope).
Proof.
  unfold interpretBody. apply maintains_first_return. intros ?.
  apply maintains_interpretStatement.
Qed.

End Level_maintains.

(** Whatever the fuel, the evaluator computes and stores values of the
    interpreter's shape only. *)
Lemma evaluator_maintains (fs : string -> option string) (fuel : nat) :
  Evaluator_maintains (evaluator fs fuel).
Proof.
  induction fuel as [| fuel IH].
  - split; intros; apply maintains_lift; discriminate.
  - split; intros; cbn [evaluator rec_Expression rec_FunctionCall rec_Body rec_If rec_while].
    + apply maintains_interpretExpression, IH.
    + apply maintains_interpretFunctionCall, IH.
    + apply maintains_interpretBody, IH.
    + apply maintains_interpretIf, IH.
    + apply maintains_while_loop, IH.
Qed.

Lemma Value_assign_returns_or_throws (this other : Value) :
  well_formed this -> well_formed other -> returns_or_throws (Value_assign this other).
Proof.
  destruct this as [[this_arg | this_arg] m], other as [[other_arg | other_arg] k];
    unfold well_formed, Value_assign; simpl; intros Hthis Hother.
  - destruct (size_of other_arg <? m)%N; exact I.
  - destruct (k <? m)%N; exact I.
  - subst m. destruct (N.eqb_spec (size_of this_arg) (size_of other_arg)) as [E | E];
      simpl; [| exact I].
    rewrite size_of_to_nat, copy_prefix_all by (unfold size_of in E; lia). exact I.
  - subst m k.
    destruct (N.eqb_spec (size_of this_arg) (size_of other_arg)) as [E | E];
      simpl; [| exact I].
    rewrite size_of_to_nat, copy_prefix_all by (unfold size_of in E; lia). exact I.
Qed.

Lemma fromDescriptor_returns_or_throws (descriptor : ArrayDescriptor) (v : option Value) :
  match v with Some other => well_formed other | None => True end ->
  returns_or_throws (fromDescriptor descriptor v).
Proof.
  intros Hv. unfold fromDescriptor.
  destruct (getCanGrow descriptor).
  - destruct (getSize descriptor) as [n |].
    + destruct (max_size <? n)%N; simpl; [exact I |].
      destruct v as [other |]; [| exact I].
      apply Value_assign_returns_or_throws; [| exact Hv].
      unfold well_formed, size_of. simpl. lia.
    + simpl. destruct v as [other |]; [| exact I].
      apply Value_assign_returns_or_throws; [| exact Hv].
      unfold well_formed, size_of. simpl. lia.
  - destruct (getSize descriptor) as [size |].
    + unfold DynamicArray_new. destruct (max_size <? size)%N; simpl; [exact I |].
      destruct v as [other |]; [| exact I].
      apply Value_assign_returns_or_throws; [| exact Hv].
      unfold well_formed, size_of. simpl. rewrite repeat_length. lia.
    + destruct v as [other |]; exact I.
Qed.

(** X30. The values of a run keep the interpreter's shape: when the live
    scopes hold values of that shape only, a body that returns leaves scopes
    of that kind and returns a value of that shape, and so do a call and an
    expression. Construction from a descriptor, which is where declarations
    and parameter passing copy buffers, is defined on such values: it returns
    or throws and never reads or writes outside a buffer. *)
Theorem evaluation_keeps_values_well_formed (fs : string -> option string) (fuel : nat) :
  (forall body scope st r st',
      scopes_well_formed (scopes st) ->
      interpretBody fs (evaluator fs fuel) body scope st = (Ok r, st') ->
      scopes_well_formed (scopes st') /\ option_well_formed r)
  /\ (forall call scope st v st',
        scopes_well_formed (scopes st) ->
        interpretFunctionCall fs (evaluator fs fuel) call scope st = (Ok v, st') ->
        scopes_well_formed (scopes st') /\ well_formed v)
  /\ (forall e scope st v st',
        scopes_well_formed (scopes st) ->
        interpretExpression (evaluator fs fuel) e scope st = (Ok v, st') ->
        scopes_well_formed (scopes st') /\ well_formed v)
  /\ (forall descriptor v,
        match v with Some other => well_formed other | None => True end ->
        returns_or_throws (fromDescriptor descriptor v)).
Proof.
  pose proof (evaluator_maintains fs fuel) as H.
  split; [| split; [| split]].
  - intros body scope. apply maintains_interpretBody. exact H.
  - intros call scope. apply maintains_interpretFunctionCall. exact H.
  - intros e scope. apply maintains_interpretExpression. exact H.
  - apply fromDescriptor_returns_or_throws.
Qed.

Lemma evaluation_keeps_values_well_formed_witness :
  let st := set_scopes [mkScope None {[ "x" := BValue (mkValue (VVector [1; 2]) 2) ]}]
              (initial_State []) in
  let e := mkExpression (PArray (AIdentifier "x"))
             [PMethod (mkMethod "append" [Expression_of_ints [3]])] in
  (scopes_well_formed (scopes st)
   /\ interpretExpression (evaluator no_files 1) e 0 st
      = (Ok (mkValue (VDynamicArray [1; 2; 3]) 3), st))
  /\ well_formed (mkValue (VDynamicArray [1; 2; 3]) 3).
Proof.
  intros st e.
  assert (H1 : scopes_well_formed (scopes st)).
  { repeat constructor. intros name b. simpl. intros Hb.
    apply lookup_singleton_Some in Hb as [_ <-]. simpl.
    unfold well_formed, size_of. simpl. lia. }
  assert (H2 : interpretExpression (evaluator no_files 1) e 0 st
               = (Ok (mkValue (VDynamicArray [1; 2; 3]) 3), st)) by reflexivity.
  split; [split; assumption |].
  exact (proj2 (proj1 (proj2 (proj2 (evaluation_keeps_values_well_formed no_files 1)))
                  e 0%nat st _ _ H1 H2)).
Defined.
